(** * Semantic Context Engine: retriever, cache and SQL validator

    A shallow embedding of the TypeScript sources

    - [SemanticRetriever] (semantic-retriever.ts),
    - [QueryCache] (query-cache.ts) and [SemanticEmbedder.embedText]
      (embedder.ts),
    - [validateQuery] and its helpers (query-validator.ts),
    - the schema registry (schema-registry.ts),
    - the query planner (query-planner.ts),

    followed by the properties proved about them. *)

From Stdlib Require Import NArith ZArith QArith Lia Bool Ascii String.
From Stdlib Require Import DecimalString DecimalN.
From stdpp Require Import base decidable option list strings gmap.

Local Open Scope nat_scope.

(** ** JavaScript strings

    A JavaScript string is a sequence of UTF-16 code units.  A code unit is
    modelled as a number of type [N]; string literals of the sources, which
    are ASCII apart from one arrow, are written with [str]. *)

Module JS.

Definition code_unit := N.
Definition jsstring := list N.

Definition chr (a : ascii) : N := N_of_ascii a.
Definition str (s : string) : jsstring := map N_of_ascii (list_ascii_of_string s).

Definition jseq (a b : jsstring) : bool := bool_decide (a = b).

(** [x || ""] and truthiness of a string: only the empty string is falsy. *)
Definition truthy (s : jsstring) : bool :=
  match s with [] => false | _ :: _ => true end.

Definition between (lo hi c : N) : bool := ((lo <=? c) && (c <=? hi))%N.

Definition is_upper (c : N) : bool := between 65 90 c.
Definition is_lower (c : N) : bool := between 97 122 c.
Definition is_digit (c : N) : bool := between 48 57 c.

(** [\w] is [A-Za-z0-9_]. *)
Definition is_word (c : N) : bool :=
  is_upper c || is_lower c || is_digit c || (c =? 95)%N.

(** LineTerminator: LF, CR, U+2028, U+2029. *)
Definition is_line_terminator (c : N) : bool :=
  ((c =? 10) || (c =? 13) || (c =? 8232) || (c =? 8233))%N.

(** [\s] and the characters removed by [trim]: WhiteSpace and
    LineTerminator code units. *)
Definition is_space (c : N) : bool :=
  (between 9 13 c || (c =? 32) || (c =? 160) || (c =? 5760)
   || between 8192 8202 c || (c =? 8232) || (c =? 8233) || (c =? 8239)
   || (c =? 8287) || (c =? 12288) || (c =? 65279))%N.

(** Case mapping of the ASCII letters.  Code units outside ASCII are left
    as they are: the Unicode case tables are not modelled.  On a text all
    of whose code units are ASCII, [toUpperCase] and [toLowerCase] are
    [String.prototype.toUpperCase] and [String.prototype.toLowerCase]; on
    other text they are not (the engine maps U+212A to k and U+017F to S,
    for instance).  A statement below that depends on what the case
    mapping of a text is carries the hypothesis that the text is ASCII,
    [is_ascii]. *)
Definition upper_unit (c : N) : N := if is_lower c then (c - 32)%N else c.
Definition lower_unit (c : N) : N := if is_upper c then (c + 32)%N else c.

Definition toUpperCase (s : jsstring) : jsstring := map upper_unit s.
Definition toLowerCase (s : jsstring) : jsstring := map lower_unit s.

(** The texts on which the case mapping above is that of the engine. *)
Definition is_ascii (s : jsstring) : bool := forallb (fun c => (c <? 128)%N) s.

(** [s.startsWith(p)] *)
Fixpoint starts_with (p s : jsstring) : bool :=
  match p, s with
  | [], _ => true
  | a :: p', b :: s' => (a =? b)%N && starts_with p' s'
  | _ :: _, [] => false
  end.

(** [s.includes(p)] *)
Fixpoint includes (s p : jsstring) : bool :=
  starts_with p s ||
  match s with
  | [] => false
  | _ :: s' => includes s' p
  end.

(** [xs.join(sep)] *)
Fixpoint join (sep : jsstring) (xs : list jsstring) : jsstring :=
  match xs with
  | [] => []
  | [x] => x
  | x :: rest => x ++ sep ++ join sep rest
  end.

Fixpoint trim_start (s : jsstring) : jsstring :=
  match s with
  | c :: s' => if is_space c then trim_start s' else s
  | [] => []
  end.

(** [s.trim()] *)
Definition trim (s : jsstring) : jsstring :=
  rev (trim_start (rev (trim_start s))).

(** *** Property lookup on plain objects

    The registry and every column table are plain object literals, so
    [o[k]] consults the own properties first and [Object.prototype] next.
    Own properties are kept in [Object.keys] order. *)

Definition object_prototype_keys : list jsstring :=
  map str [ "constructor"; "__defineGetter__"; "__defineSetter__";
            "hasOwnProperty"; "__lookupGetter__"; "__lookupSetter__";
            "isPrototypeOf"; "propertyIsEnumerable"; "toString"; "valueOf";
            "__proto__"; "toLocaleString" ]%string.

Inductive property (A : Type) : Type :=
  | Own (a : A)      (* an own property: the stored value *)
  | Inherited        (* a member of Object.prototype: a truthy value that
                        has none of the fields of a stored value *)
  | Missing.         (* undefined *)
Arguments Own {A} a.
Arguments Inherited {A}.
Arguments Missing {A}.

Fixpoint own_property {A} (o : list (jsstring * A)) (k : jsstring) : option A :=
  match o with
  | [] => None
  | (k', v) :: o' => if jseq k' k then Some v else own_property o' k
  end.

Definition get {A} (o : list (jsstring * A)) (k : jsstring) : property A :=
  match own_property o k with
  | Some v => Own v
  | None => if bool_decide (k ∈ object_prototype_keys) then Inherited else Missing
  end.

(** Truthiness of [o[k]]: objects and functions are truthy, [undefined] is
    not. *)
Definition defined {A} (p : property A) : bool :=
  match p with Missing => false | _ => true end.

Definition keys {A} (o : list (jsstring * A)) : list jsstring := map fst o.

End JS.

(** ** Regular expressions

    The fragment of ECMAScript regular expressions used by the validator,
    with the backtracking order of the language: alternatives left to
    right, greedy quantifiers longest first, lazy ones shortest first. *)

Module Regex.
Import JS.

Inductive cclass : Type :=
  | CWord                      (* \w *)
  | CSpace                     (* \s *)
  | CDot                       (* .  : anything but a line terminator *)
  | CNoneOf (l : list N)       (* [^...] *)
  | CUnit (c : N).             (* a single literal character, e.g. \( *)

Inductive regex : Type :=
  | REmpty
  | RLit (l : jsstring)               (* a run of literal characters *)
  | RClass (c : cclass)
  | RSeq (r1 r2 : regex)
  | RAlt (r1 r2 : regex)              (* r1|r2 *)
  | RStar (greedy : bool) (r : regex)  (* r* and r*? *)
  | RGroup (i : nat) (r : regex)      (* capturing group number i *)
  | RWordB                            (* \b *)
  | REnd                              (* $ without the m flag *)
  | RNotAhead (r : regex).            (* (?!r) *)

(** r+ , r+? and (?:r)? *)
Definition RPlus (greedy : bool) (r : regex) : regex := RSeq r (RStar greedy r).
Definition ROpt (r : regex) : regex := RAlt r REmpty.

Fixpoint RSeqs (rs : list regex) : regex :=
  match rs with
  | [] => REmpty
  | [r] => r
  | r :: rs' => RSeq r (RSeqs rs')
  end.

Definition in_class (c : cclass) (x : N) : bool :=
  match c with
  | CWord => is_word x
  | CSpace => is_space x
  | CDot => negb (is_line_terminator x)
  | CNoneOf l => negb (bool_decide (x ∈ l))
  | CUnit y => (x =? y)%N
  end.

(** The matcher state: the index reached, the character before it, the
    input that is left, and the captures made so far (latest first). *)
Record mstate : Type := MState {
  pos : nat;
  prev : option N;
  rest : jsstring;
  caps : list (nat * jsstring)
}.

Definition advance (s : mstate) (x : N) (t : jsstring) : mstate :=
  MState (S (pos s)) (Some x) t (caps s).

(** Canonicalize of the [i] flag, on the ASCII letters of the patterns. *)
Definition unit_eq (ci : bool) (a b : N) : bool :=
  if ci then (upper_unit a =? upper_unit b)%N else (a =? b)%N.

Fixpoint eat (ci : bool) (l : jsstring) (s : mstate) : option mstate :=
  match l with
  | [] => Some s
  | a :: l' =>
      match rest s with
      | x :: t => if unit_eq ci a x then eat ci l' (advance s x t) else None
      | [] => None
      end
  end.

Definition is_word_opt (o : option N) : bool :=
  match o with Some c => is_word c | None => false end.

(** [\b]: exactly one of the two neighbouring characters is a word
    character. *)
Definition word_boundary (s : mstate) : bool :=
  xorb (is_word_opt (prev s)) (is_word_opt (head (rest s))).

Definition or_else {A} (a : option A) (b : option A) : option A :=
  match a with Some x => Some x | None => b end.

(** [rmatch ci r s k]: match [r] at [s] and continue with [k]; [None] is
    failure, after which the caller backtracks. *)
Fixpoint rmatch (ci : bool) (r : regex) (s : mstate)
    (k : mstate -> option mstate) {struct r} : option mstate :=
  match r with
  | REmpty => k s
  | RLit l => match eat ci l s with Some s' => k s' | None => None end
  | RClass c =>
      match rest s with
      | x :: t => if in_class c x then k (advance s x t) else None
      | [] => None
      end
  | RSeq r1 r2 => rmatch ci r1 s (fun s' => rmatch ci r2 s' k)
  | RAlt r1 r2 =>
      match rmatch ci r1 s k with
      | Some x => Some x
      | None => rmatch ci r2 s k
      end
  | RStar greedy r1 =>
      (fix loop (n : nat) (s : mstate) {struct n} : option mstate :=
         match n with
         | 0 => k s
         | S n' =>
             let again (s' : mstate) :=
               if length (rest s') <? length (rest s) then loop n' s' else None in
             if greedy
             then match rmatch ci r1 s again with
                  | Some x => Some x
                  | None => k s
                  end
             else match k s with
                  | Some x => Some x
                  | None => rmatch ci r1 s again
                  end
         end) (length (rest s)) s
  | RGroup i r1 =>
      rmatch ci r1 s
        (fun s' => k (MState (pos s') (prev s') (rest s')
                        ((i, take (pos s' - pos s) (rest s)) :: caps s')))
  | RWordB => if word_boundary s then k s else None
  | REnd => match rest s with [] => k s | _ :: _ => None end
  | RNotAhead r1 =>
      match rmatch ci r1 s Some with
      | Some _ => None
      | None => k s
      end
  end.

(** A compiled expression: the pattern and its [i] flag. *)
Record regexp : Type := RegExp { pattern : regex; ignoreCase : bool }.

(** One match: where it starts, and the state at its end. *)
Record rmatch_result : Type := Match { m_start : nat; m_end : mstate }.

Fixpoint find_capture (i : nat) (cs : list (nat * jsstring)) : option jsstring :=
  match cs with
  | [] => None
  | (j, v) :: cs' => if Nat.eqb i j then Some v else find_capture i cs'
  end.

(** [m[i]]: [None] is [undefined], a group that took no part in the match. *)
Definition capture (i : nat) (m : rmatch_result) : option jsstring :=
  find_capture i (caps (m_end m)).

Definition match_at (re : regexp) (p : nat) (pv : option N) (input : jsstring)
  : option mstate :=
  rmatch (ignoreCase re) (pattern re) (MState p pv input []) Some.

(** The leftmost match that starts at index [p] or later. *)
Fixpoint search (re : regexp) (p : nat) (pv : option N) (input : jsstring)
    {struct input} : option rmatch_result :=
  match match_at re p pv input with
  | Some e => Some (Match p e)
  | None =>
      match input with
      | [] => None
      | x :: t => search re (S p) (Some x) t
      end
  end.

(** [re.exec(s)] for an expression without the [g] flag, and
    [re.test(s)]. *)
Definition exec (re : regexp) (s : jsstring) : option rmatch_result :=
  search re 0 None s.

Definition test (re : regexp) (s : jsstring) : bool :=
  bool_decide (is_Some (exec re s)).

(** [while ((m = re.exec(s)) !== null) ...] for an expression with the [g]
    flag: every match, each search resuming where the previous match
    ended.  None of the expressions used matches the empty string, so each
    round consumes input and [length s + 1] rounds suffice. *)
Fixpoint exec_loop (fuel : nat) (re : regexp) (p : nat) (pv : option N)
    (input : jsstring) : list rmatch_result :=
  match fuel with
  | 0 => []
  | S fuel' =>
      match search re p pv input with
      | None => []
      | Some m =>
          m :: exec_loop fuel' re (pos (m_end m)) (prev (m_end m)) (rest (m_end m))
      end
  end.

Definition exec_all (re : regexp) (s : jsstring) : list rmatch_result :=
  exec_loop (S (length s)) re 0 None s.

(** [s.split(re)] for a separator that has no capturing group: the sticky
    match at each index [q]; a match that ends where the current piece
    starts is skipped. *)
Fixpoint split_loop (fuel : nat) (re : regexp) (p : nat) (acc : jsstring)
    (q : nat) (pv : option N) (input : jsstring) : list jsstring :=
  match fuel with
  | 0 => [rev acc ++ input]
  | S fuel' =>
      match input with
      | [] => [rev acc]
      | x :: t =>
          match match_at re q pv input with
          | Some e =>
              if bool_decide (pos e = p)
              then split_loop fuel' re p (x :: acc) (S q) (Some x) t
              else rev acc :: split_loop fuel' re (pos e) [] (pos e) (prev e) (rest e)
          | None => split_loop fuel' re p (x :: acc) (S q) (Some x) t
          end
      end
  end.

Definition split (re : regexp) (s : jsstring) : list jsstring :=
  match s with
  | [] => match match_at re 0 None [] with Some _ => [] | None => [[]] end
  | _ :: _ => split_loop (2 * length s + 2) re 0 [] 0 None s
  end.

End Regex.

(** ** The schema registry (schema-registry.ts) *)

Module Schema.
Import JS.

Record ColumnInfo : Type := {
  type : jsstring;
  col_description : option jsstring;
  values : option (list jsstring);
  unit : option jsstring;
  aggregatable : option jsstring
}.

Record Relationship : Type := {
  table : jsstring;
  join_key : jsstring
}.

Record TableSchema : Type := {
  table_name : jsstring;
  description : jsstring;
  columns : list (jsstring * ColumnInfo);
  relationships : list Relationship;
  sensitive_fields : list jsstring
}.

(** [FullSchema]: the object built by [loadSchemaRegistry], one own
    property per table. *)
Definition FullSchema : Type := list (jsstring * TableSchema).

(** Constructors for the entries of the static catalog. *)
Definition column (name ty descr : string) (agg : option string)
  : jsstring * ColumnInfo :=
  (str name,
   {| type := str ty; col_description := Some (str descr); values := None;
      unit := None; aggregatable := str <$> agg |}).

Definition relationship (t k : string) : Relationship :=
  {| table := str t; join_key := str k |}.

Definition mk_table (name descr : string) (cols : list (jsstring * ColumnInfo))
    (rels : list Relationship) (sens : list string) : TableSchema :=
  {| table_name := str name; description := str descr; columns := cols;
     relationships := rels; sensitive_fields := map str sens |}.

(** [cachedSchema[table.table_name] = table] for each table of the
    catalog. *)
Definition registry_of (tables : list TableSchema) : FullSchema :=
  map (fun t => (table_name t, t)) tables.

(** The static catalog of [loadSchemaRegistry]. *)

Definition users_table : TableSchema :=
  mk_table "users" "User profiles and authentication data"
    [ column "id" "uuid" "Primary key" None;
      column "email" "text" "User email address" (Some "false");
      column "name" "text" "User full name" (Some "false");
      column "phone" "text" "User phone number" (Some "false");
      column "country" "text" "User country" (Some "false");
      column "role" "varchar" "User role" (Some "false");
      column "created_at" "timestamp" "Account creation timestamp" None;
      column "updated_at" "timestamp" "Last update timestamp" None ]
    [ relationship "accounts" "id:user_id";
      relationship "budgets" "id:user_id";
      relationship "financial_goals" "id:user_id";
      relationship "expense_categories" "id:user_id" ]
    [ "id"; "email"; "phone" ].

Definition accounts_table : TableSchema :=
  mk_table "accounts" "Bank and investment accounts"
    [ column "id" "uuid" "Primary key" None;
      column "user_id" "uuid" "Reference to user" None;
      column "account_type" "text" "Type of account (checking, savings, investment)" (Some "false");
      column "account_name" "text" "Name of the account" (Some "false");
      column "balance" "numeric" "Current account balance" (Some "SUM,AVG,MAX,MIN");
      column "currency" "text" "Currency code (USD, EUR, etc)" (Some "false");
      column "account_number" "text" "Account number" (Some "false");
      column "institution_name" "text" "Name of financial institution" (Some "false");
      column "created_at" "timestamp" "Account creation timestamp" None;
      column "updated_at" "timestamp" "Last update timestamp" None ]
    [ relationship "users" "user_id:id";
      relationship "transactions" "id:account_id";
      relationship "portfolio_holdings" "id:account_id";
      relationship "dividends" "id:account_id" ]
    [ "id"; "user_id"; "account_number" ].

Definition transactions_table : TableSchema :=
  mk_table "transactions" "Financial transactions including purchases, sales, and transfers"
    [ column "id" "uuid" "Primary key" None;
      column "account_id" "uuid" "Reference to account" None;
      column "security_id" "uuid" "Reference to security if investment transaction" None;
      column "transaction_type" "text" "Type of transaction (buy, sell, transfer, deposit, withdrawal)" (Some "false");
      column "amount" "numeric" "Transaction amount" (Some "SUM,AVG,MAX,MIN");
      column "quantity" "numeric" "Quantity for securities transactions" (Some "SUM");
      column "price_per_unit" "numeric" "Price per unit for securities" (Some "AVG");
      column "transaction_date" "date" "Date of transaction" None;
      column "description" "text" "Transaction description" (Some "false");
      column "category" "text" "Transaction category" (Some "false");
      column "merchant" "text" "Merchant name if applicable" (Some "false");
      column "status" "text" "Transaction status (pending, completed, failed)" (Some "false");
      column "created_at" "timestamp" "Record creation timestamp" None ]
    [ relationship "accounts" "account_id:id";
      relationship "securities" "security_id:id" ]
    [ "id"; "account_id" ].

Definition securities_table : TableSchema :=
  mk_table "securities" "Stocks, bonds, mutual funds, and other investment securities"
    [ column "id" "uuid" "Primary key" None;
      column "ticker" "text" "Security ticker symbol" (Some "false");
      column "name" "text" "Security name" (Some "false");
      column "security_type" "text" "Type of security (stock, bond, etf, mutual fund)" (Some "false");
      column "sector" "text" "Industry sector" (Some "false");
      column "industry" "text" "Industry classification" (Some "false");
      column "market_cap" "numeric" "Market capitalization" (Some "SUM,AVG,MAX,MIN");
      column "description" "text" "Security description" (Some "false");
      column "created_at" "timestamp" "Record creation timestamp" None ]
    [ relationship "portfolio_holdings" "id:security_id";
      relationship "transactions" "id:security_id";
      relationship "price_history" "id:security_id";
      relationship "dividends" "id:security_id" ]
    [ "id" ].

Definition portfolio_holdings_table : TableSchema :=
  mk_table "portfolio_holdings" "Current portfolio holdings of users"
    [ column "id" "uuid" "Primary key" None;
      column "account_id" "uuid" "Reference to account" None;
      column "security_id" "uuid" "Reference to security" None;
      column "quantity" "numeric" "Number of shares held" (Some "SUM");
      column "average_cost" "numeric" "Average cost basis per share" (Some "AVG");
      column "current_price" "numeric" "Current price per share" (Some "AVG");
      column "market_value" "numeric" "Total market value of holding" (Some "SUM,AVG");
      column "acquisition_date" "date" "Date of initial purchase" None;
      column "created_at" "timestamp" "Record creation timestamp" None;
      column "updated_at" "timestamp" "Last update timestamp" None ]
    [ relationship "accounts" "account_id:id";
      relationship "securities" "security_id:id" ]
    [ "id"; "account_id" ].

Definition price_history_table : TableSchema :=
  mk_table "price_history" "Historical stock price data"
    [ column "id" "uuid" "Primary key" None;
      column "security_id" "uuid" "Reference to security" None;
      column "history_date" "date" "Date of price data" None;
      column "open_price" "numeric" "Opening price" (Some "AVG");
      column "close_price" "numeric" "Closing price" (Some "AVG");
      column "high_price" "numeric" "High price for the day" (Some "MAX");
      column "low_price" "numeric" "Low price for the day" (Some "MIN");
      column "volume" "bigint" "Trading volume" (Some "SUM,AVG");
      column "created_at" "timestamp" "Record creation timestamp" None ]
    [ relationship "securities" "security_id:id" ]
    [ "id" ].

Definition dividends_table : TableSchema :=
  mk_table "dividends" "Dividend payments from securities"
    [ column "id" "uuid" "Primary key" None;
      column "security_id" "uuid" "Reference to security" None;
      column "account_id" "uuid" "Reference to account" None;
      column "ex_date" "date" "Ex-dividend date" None;
      column "record_date" "date" "Record date for dividend eligibility" None;
      column "payment_date" "date" "Date dividend was paid" None;
      column "amount_per_share" "numeric" "Dividend amount per share" (Some "AVG");
      column "total_amount" "numeric" "Total dividend amount received" (Some "SUM");
      column "created_at" "timestamp" "Record creation timestamp" None ]
    [ relationship "securities" "security_id:id";
      relationship "accounts" "account_id:id" ]
    [ "id" ].

Definition budgets_table : TableSchema :=
  mk_table "budgets" "User budgets for expense categories"
    [ column "id" "uuid" "Primary key" None;
      column "user_id" "uuid" "Reference to user" None;
      column "category" "text" "Budget category" (Some "false");
      column "limit_amount" "numeric" "Budget limit amount" (Some "SUM");
      column "spent_amount" "numeric" "Amount spent so far" (Some "SUM");
      column "budget_month" "integer" "Budget month (1-12)" (Some "false");
      column "budget_year" "integer" "Budget year" (Some "false");
      column "created_at" "timestamp" "Record creation timestamp" None;
      column "updated_at" "timestamp" "Last update timestamp" None ]
    [ relationship "users" "user_id:id" ]
    [ "id"; "user_id" ].

Definition expense_categories_table : TableSchema :=
  mk_table "expense_categories" "Custom expense categories for users"
    [ column "id" "uuid" "Primary key" None;
      column "user_id" "uuid" "Reference to user" None;
      column "category_name" "text" "Category name" (Some "false");
      column "color" "text" "Display color for category" (Some "false");
      column "icon" "text" "Icon identifier" (Some "false");
      column "description" "text" "Category description" (Some "false");
      column "created_at" "timestamp" "Record creation timestamp" None ]
    [ relationship "users" "user_id:id" ]
    [ "id"; "user_id" ].

Definition financial_goals_table : TableSchema :=
  mk_table "financial_goals" "Financial goals and targets for users"
    [ column "id" "uuid" "Primary key" None;
      column "user_id" "uuid" "Reference to user" None;
      column "goal_name" "text" "Name of the financial goal" (Some "false");
      column "goal_type" "text" "Type of goal (savings, investment, debt payoff)" (Some "false");
      column "target_amount" "numeric" "Target amount to achieve" (Some "SUM");
      column "current_amount" "numeric" "Current progress towards goal" (Some "SUM");
      column "target_date" "date" "Target date to achieve goal" None;
      column "priority" "text" "Priority level (low, medium, high)" (Some "false");
      column "status" "text" "Goal status (active, completed, paused)" (Some "false");
      column "created_at" "timestamp" "Record creation timestamp" None;
      column "updated_at" "timestamp" "Last update timestamp" None ]
    [ relationship "users" "user_id:id" ]
    [ "id"; "user_id" ].

Definition schema_registry_table : TableSchema :=
  mk_table "schema_registry" "Registry of queryable schemas and metadata"
    [ column "id" "uuid" "Primary key" None;
      column "table_name" "text" "Table name" (Some "false");
      column "description" "text" "Table description" (Some "false");
      column "col_defs" "jsonb" "Column definitions as JSON" (Some "false");
      column "rel_defs" "jsonb" "Relationship definitions as JSON" (Some "false");
      column "sens_fields" "array" "Array of sensitive field names" (Some "false");
      column "is_queryable" "boolean" "Whether table is queryable by agents" (Some "false");
      column "created_at" "timestamp" "Record creation timestamp" None;
      column "updated_at" "timestamp" "Last update timestamp" None ]
    []
    [ "id" ].

Definition finance_schema : FullSchema :=
  registry_of
    [ users_table;
      accounts_table;
      transactions_table;
      securities_table;
      portfolio_holdings_table;
      price_history_table;
      dividends_table;
      budgets_table;
      expense_categories_table;
      financial_goals_table;
      schema_registry_table ].

(** [getCoreSchemaDescription]: the fallback text used when semantic
    retrieval is not available. *)
Definition coreTables : list jsstring :=
  map str [ "users"; "accounts"; "transactions"; "securities";
            "portfolio_holdings" ]%string.

Definition describeCoreTable (schema : FullSchema) (tableName : jsstring)
  : jsstring :=
  match get schema tableName with
  | Own tableSchema =>
      str "### `" ++ tableName ++ str "` - " ++ description tableSchema ++ [10%N]
      ++ str "Key columns: "
      ++ join (str ", ") (take 10 (keys (columns tableSchema))) ++ [10%N]
      ++ (if 0 <? length (relationships tableSchema)
          then str "Joins with: "
               ++ join (str ", ") (map table (relationships tableSchema)) ++ [10%N]
          else [])
      ++ [10%N]
  | _ => []
  end.

Definition getCoreSchemaDescription (schema : FullSchema) : jsstring :=
  str "## CORE SCHEMA (Optimized for Token Usage)" ++ [10; 10]%N
  ++ str "Primary financial tables for analysis:" ++ [10; 10]%N
  ++ concat (map (describeCoreTable schema) coreTables).

End Schema.

(** ** The SQL validator (query-validator.ts) *)

Module Validator.
Import JS Regex Schema.

Record ValidationResult : Type := {
  valid : bool;
  errors : list jsstring;
  warnings : list jsstring;
  suggestions : list jsstring
}.

Record TableReference : Type := {
  name : jsstring;
  alias : option jsstring
}.

Record ColumnReference : Type := {
  cr_table : jsstring;
  cr_column : jsstring;
  aggregationFunction : option jsstring
}.

Definition spaces : regex := RStar true (RClass CSpace).
Definition spaces1 : regex := RPlus true (RClass CSpace).
Definition word1 : regex := RPlus true (RClass CWord).

(** [/FROM\s+(\w+)\s*(?:AS\s+(\w+))?/gi] and its JOIN twin *)
Definition clauseRegex (kw : string) : regexp :=
  RegExp
    (RSeqs [ RLit (str kw); spaces1; RGroup 1 word1; spaces;
             ROpt (RSeqs [ RLit (str "AS"); spaces1; RGroup 2 word1 ]) ])
    true.
Definition fromRegex : regexp := clauseRegex "FROM".
Definition joinRegex : regexp := clauseRegex "JOIN".

(** [/INTO\s+(\w+)/gi] *)
Definition intoRegex : regexp :=
  RegExp (RSeqs [ RLit (str "INTO"); spaces1; RGroup 1 word1 ]) true.

Definition first_group (m : rmatch_result) : jsstring := default [] (capture 1 m).

Definition extractTableReferences (sql : jsstring) : list TableReference :=
  map (fun m => {| name := first_group m; alias := capture 2 m |})
      (exec_all fromRegex sql)
  ++ map (fun m => {| name := first_group m; alias := capture 2 m |})
      (exec_all joinRegex sql)
  ++ map (fun m => {| name := first_group m; alias := None |})
      (exec_all intoRegex sql).

(** [/SELECT\s+(.+?)(?:\s+FROM|\s*$)/i] *)
Definition selectRegex : regexp :=
  RegExp
    (RSeqs [ RLit (str "SELECT"); spaces1; RGroup 1 (RPlus false (RClass CDot));
             RAlt (RSeq spaces1 (RLit (str "FROM"))) (RSeq spaces REnd) ])
    true.

(** [/,(?![^()]*\))/] *)
Definition commaRegex : regexp :=
  RegExp
    (RSeq (RLit (str ","))
          (RNotAhead (RSeq (RStar true (RClass (CNoneOf (str "()"))))
                           (RLit (str ")")))))
    false.

(** The aggregation call: one of COUNT, SUM, AVG, MIN, MAX (group 1),
    optional blanks, an opening parenthesis, optional blanks, an optional
    qualifier [(\w+)\.] (group 2), a word or a star (group 3), optional
    blanks and the closing parenthesis; flag [i]. *)
Definition aggRegex : regexp :=
  RegExp
    (RSeqs [ RGroup 1 (RAlt (RLit (str "COUNT")) (RAlt (RLit (str "SUM"))
               (RAlt (RLit (str "AVG")) (RAlt (RLit (str "MIN")) (RLit (str "MAX"))))));
             spaces; RLit (str "("); spaces;
             ROpt (RSeq (RGroup 2 word1) (RLit (str ".")));
             RGroup 3 (RAlt word1 (RLit (str "*")));
             spaces; RLit (str ")") ])
    true.

(** [/(?:(\w+)\.)?(\w+)/] *)
Definition colRegex : regexp :=
  RegExp (RSeq (ROpt (RSeq (RGroup 1 word1) (RLit (str ".")))) (RGroup 2 word1))
         false.

(** One entry of the select list. *)
Definition columnOfPart (part : jsstring) : list ColumnReference :=
  let trimmed := trim part in
  match exec aggRegex trimmed with
  | Some aggMatch =>
      [ {| cr_table := default [] (capture 2 aggMatch);
           cr_column := default [] (capture 3 aggMatch);
           aggregationFunction := Some (toUpperCase (first_group aggMatch)) |} ]
  | None =>
      match exec colRegex trimmed with
      | Some colMatch =>
          let table := default [] (capture 1 colMatch) in
          let column := default [] (capture 2 colMatch) in
          if truthy column && negb (jseq column (str "*"))
          then [ {| cr_table := table; cr_column := column;
                    aggregationFunction := None |} ]
          else []
      | None => []
      end
  end.

Definition extractColumnReferences (sql : jsstring) : list ColumnReference :=
  match exec selectRegex sql with
  | Some selectMatch =>
      let selectPart := first_group selectMatch in
      flat_map columnOfPart (split commaRegex selectPart)
  | None => []
  end.

(** The two arrays the checks push to. *)
Record log : Type := Log { log_errors : list jsstring; log_warnings : list jsstring }.

Definition push_error (m : jsstring) (l : log) : log :=
  Log (log_errors l ++ [m]) (log_warnings l).
Definition push_warning (m : jsstring) (l : log) : log :=
  Log (log_errors l) (log_warnings l ++ [m]).

(** A check either completes with the arrays as it left them, or throws a
    [TypeError] with the given message. *)
Inductive outcome : Type :=
  | Normal (l : log)
  | Throws (message : jsstring) (l : log).

Definition bind (o : outcome) (f : log -> outcome) : outcome :=
  match o with
  | Normal l => f l
  | Throws m l => Throws m l
  end.

(** The message of the [TypeError] raised by reading property [k] of
    [undefined], in the wording of V8. *)
Definition undefined_read (k : jsstring) : jsstring :=
  str "Cannot read properties of undefined (reading '" ++ k ++ str "')".

Definition tableMissing (schema : FullSchema) (tableName : jsstring) : jsstring :=
  str "Table '" ++ tableName ++ str "' does not exist. Available tables: "
  ++ join (str ", ") (keys schema).

Definition validateTableExists (tableName : jsstring) (schema : FullSchema)
    (l : log) : bool * log :=
  if negb (defined (get schema tableName))
  then (false, push_error (tableMissing schema tableName) l)
  else (true, l).

Definition columnMissing (tableName columnName : jsstring)
    (tableSchema : TableSchema) : jsstring :=
  str "Column '" ++ columnName ++ str "' does not exist in table '" ++ tableName
  ++ str "'. Available columns: " ++ join (str ", ") (keys (columns tableSchema)).

(** [tableSchema.columns[columnName]], for the value [schema[targetTable]]
    handed to the two column checks. *)
Definition column_of (tableSchema : property TableSchema) (columnName : jsstring)
  : jsstring + property ColumnInfo :=
  match tableSchema with
  | Own ts => inr (get (columns ts) columnName)
  | Inherited => inl (undefined_read columnName)
  | Missing => inl (undefined_read (str "columns"))
  end.

Definition validateColumnExists (tableName columnName : jsstring)
    (tableSchema : property TableSchema) (l : log) : outcome :=
  if jseq columnName (str "*") then Normal l
  else
    match tableSchema with
    | Own ts =>
        if negb (defined (get (columns ts) columnName))
        then Normal (push_error (columnMissing tableName columnName ts) l)
        else Normal l
    | Inherited => Throws (undefined_read columnName) l
    | Missing => Throws (undefined_read (str "columns")) l
    end.

Definition onStar (aggregationFunction : jsstring) : jsstring :=
  str "Cannot use " ++ aggregationFunction ++ str " on *. Only COUNT(*) is allowed.".

Definition onText (tableName columnName aggregationFunction : jsstring) : jsstring :=
  str "Cannot use " ++ aggregationFunction ++ str " on text column '" ++ tableName
  ++ str "." ++ columnName ++ str "'. Use COUNT or DISTINCT instead.".

Definition onDate (tableName columnName aggregationFunction : jsstring) : jsstring :=
  str "Cannot use " ++ aggregationFunction ++ str " on date column '" ++ tableName
  ++ str "." ++ columnName ++ str "'. Use MIN, MAX, or COUNT instead.".

Definition onUuid (tableName columnName aggregationFunction : jsstring) : jsstring :=
  str "Cannot use " ++ aggregationFunction ++ str " on UUID column '" ++ tableName
  ++ str "." ++ columnName ++ str "'. Use COUNT or DISTINCT instead.".

Definition notAggregatable (tableName columnName : jsstring) : jsstring :=
  str "Column '" ++ tableName ++ str "." ++ columnName
  ++ str "' is not typically aggregatable. Verify this is intentional.".

Definition when (b : bool) (f : log -> log) (l : log) : log :=
  if b then f l else l.

Definition is_one_of (x : jsstring) (l : list string) : bool :=
  existsb (fun y => jseq x (str y)) l.

Definition validateAggregation (tableName columnName aggregationFunction : jsstring)
    (tableSchema : property TableSchema) (l : log) : outcome :=
  if jseq columnName (str "*")
  then Normal (when (negb (jseq aggregationFunction (str "COUNT")))
                 (push_error (onStar aggregationFunction)) l)
  else
    match column_of tableSchema columnName with
    | inl message => Throws message l
    | inr Missing => Normal l
    | inr Inherited => Normal l
    | inr (Own column) =>
        let l := when (jseq (type column) (str "text")
                       && negb (is_one_of aggregationFunction ["COUNT"; "DISTINCT"]))
                   (push_error (onText tableName columnName aggregationFunction)) l in
        let l := when (jseq (type column) (str "date")
                       && negb (is_one_of aggregationFunction ["MIN"; "MAX"; "COUNT"]))
                   (push_error (onDate tableName columnName aggregationFunction)) l in
        let l := when (jseq (type column) (str "uuid")
                       && negb (jseq aggregationFunction (str "COUNT"))
                       && negb (jseq aggregationFunction (str "DISTINCT")))
                   (push_error (onUuid tableName columnName aggregationFunction)) l in
        let l := when (match aggregatable column with
                       | Some a => truthy a && jseq a (str "false")
                       | None => false
                       end
                       && negb (jseq aggregationFunction (str "COUNT"))
                       && negb (jseq aggregationFunction (str "DISTINCT")))
                   (push_warning (notAggregatable tableName columnName)) l in
        Normal l
    end.

Definition dangerousKeywords : list jsstring :=
  map str [ "DELETE"; "DROP"; "TRUNCATE"; "ALTER"; "GRANT"; "REVOKE" ]%string.

(** [new RegExp(`\\b${keyword}\\b`, "i")] *)
Definition keywordRegex (keyword : jsstring) : regexp :=
  RegExp (RSeqs [ RWordB; RLit keyword; RWordB ]) true.

Definition dangerous (keyword : jsstring) : jsstring :=
  str "Dangerous operation detected: " ++ keyword
  ++ str ". Only SELECT queries are allowed.".

Definition validateSafety (sql : jsstring) (l : log) : log :=
  fold_left
    (fun l keyword =>
       when (test (keywordRegex keyword) sql) (push_error (dangerous keyword)) l)
    dangerousKeywords l.

(** [/\b(\w+)\.\w+/g] *)
Definition schemaRegex : regexp :=
  RegExp (RSeqs [ RWordB; RGroup 1 word1; RLit (str "."); word1 ]) false.

(** [/FORM\b/i], [/SELECTE\b/i] and [/WHER\b/i] *)
Definition typoRegex (typo : string) : regexp :=
  RegExp (RSeq (RLit (str typo)) RWordB) true.

Definition verifyQualifier (possibleSchema : jsstring) : jsstring :=
  str "Verify that '" ++ possibleSchema
  ++ str "' is a valid table alias or fully qualified name.".

(** [detectHallucinations] only pushes suggestions. *)
Definition detectHallucinations (sql : jsstring) (schema : FullSchema)
  : list jsstring :=
  flat_map
    (fun m =>
       let possibleSchema := first_group m in
       if negb (jseq possibleSchema (str "public"))
          && negb (defined (get schema possibleSchema))
       then [ verifyQualifier possibleSchema ]
       else [])
    (exec_all schemaRegex sql)
  ++ (if test (typoRegex "FORM") sql
      then [ str "Did you mean 'FROM' instead of 'FORM'?" ] else [])
  ++ (if test (typoRegex "SELECTE") sql
      then [ str "Did you mean 'SELECT' instead of 'SELECTE'?" ] else [])
  ++ (if test (typoRegex "WHER") sql
      then [ str "Did you mean 'WHERE' instead of 'WHER'?" ] else []).

(** The body of the inner loop of [validateQuery], for one column
    reference under one table reference; [count] is
    [tableReferences.length]. *)
Definition checkColumn (schema : FullSchema) (count : nat)
    (tableRef : TableReference) (colRef : ColumnReference) (l : log) : outcome :=
  if negb (truthy (cr_table colRef)) && (1 <? count) then Normal l
  else
    let targetTable :=
      if truthy (cr_table colRef) then cr_table colRef else name tableRef in
    if negb (defined (get schema targetTable)) then Normal l
    else
      bind (validateColumnExists targetTable (cr_column colRef)
              (get schema targetTable) l)
        (fun l =>
           match aggregationFunction colRef with
           | Some f =>
               if truthy f
               then validateAggregation targetTable (cr_column colRef) f
                      (get schema targetTable) l
               else Normal l
           | None => Normal l
           end).

Fixpoint for_each {A} (body : A -> log -> outcome) (xs : list A) (l : log)
  : outcome :=
  match xs with
  | [] => Normal l
  | x :: xs' => bind (body x l) (for_each body xs')
  end.

(** The body of the outer loop, for one table reference. *)
Definition checkTable (schema : FullSchema) (sql : jsstring) (count : nat)
    (tableRef : TableReference) (l : log) : outcome :=
  let '(exists_, l) :=
    if truthy (name tableRef)
    then validateTableExists (name tableRef) schema l
    else (true, l) in
  if negb exists_ then Normal l
  else if negb (defined (get schema (name tableRef))) then Normal l
  else
    let columnReferences := extractColumnReferences sql in
    for_each (checkColumn schema count tableRef) columnReferences l.

Definition noTables : jsstring :=
  str "No tables found in query. Did you forget a FROM clause?".
Definition noSelect : jsstring := str "Query must include a SELECT clause".

(** The [try] block of [validateQuery] up to the end of the table loop. *)
Definition validateTables (schema : FullSchema) (sql : jsstring) : outcome :=
  let l := validateSafety sql (Log [] []) in
  let tableReferences := extractTableReferences sql in
  let l := when (length tableReferences =? 0) (push_error noTables) l in
  for_each (checkTable schema sql (length tableReferences)) tableReferences l.

(** [validateQuery]; [schema] is what [loadSchemaRegistry] returns. *)
Definition validateQuery (schema : FullSchema) (sql : jsstring) : ValidationResult :=
  match validateTables schema sql with
  | Normal l =>
      let suggestions := detectHallucinations sql schema in
      let l := when (negb (includes sql (str "SELECT"))
                     && negb (includes sql (str "select")))
                 (push_error noSelect) l in
      {| valid := length (log_errors l) =? 0;
         errors := log_errors l;
         warnings := log_warnings l;
         suggestions := suggestions |}
  | Throws message l =>
      {| valid := false;
         errors := [ str "Validation error: " ++ message ];
         warnings := log_warnings l;
         suggestions := [] |}
  end.

(** [validate(sql)] of the specification, on that catalog. *)
Definition validate (sql : string) : ValidationResult :=
  validateQuery finance_schema (str sql).

End Validator.

(** ** The display of a validation result

    [formatValidationResult] of the same file.  The five pictographs of
    its string literals (the check mark, the cross, the bullet, the
    warning sign and the light bulb) are parameters: nothing proved below
    depends on which code units they are. *)

Module Report.
Import JS Validator.

Section Format.
Context (check cross bullet warning_sign bulb : jsstring).

(** [`  (bullet) ${item}\n`] *)
Definition line (item : jsstring) : jsstring :=
  str "  " ++ bullet ++ str " " ++ item ++ [10%N].

(** [for (const item of items) output += line] *)
Definition bullets (items : list jsstring) (output : jsstring) : jsstring :=
  fold_left (fun output item => output ++ line item) items output.

Definition formatValidationResult (result : ValidationResult) : jsstring :=
  let output := [] in
  let output :=
    if valid result
    then output ++ check ++ str " Query is valid" ++ [10%N]
    else bullets (errors result)
           (output ++ cross ++ str " Query has errors:" ++ [10%N]) in
  let output :=
    if 0 <? length (warnings result)
    then bullets (warnings result)
           (output ++ [10%N] ++ warning_sign ++ str "  Warnings:" ++ [10%N])
    else output in
  let output :=
    if 0 <? length (suggestions result)
    then bullets (suggestions result)
           (output ++ [10%N] ++ bulb ++ str " Suggestions:" ++ [10%N])
    else output in
  output.

End Format.

End Report.

(** ** The accessors of the schema registry

    [backend/src/agent/schema-registry.ts], the functions that read the
    loaded registry.  A call that raises a [TypeError] returns its message
    on the left. *)

Module Registry.
Import JS Schema.

(** [schema[tableName] || null]: [Missing] stands for [null]. *)
Definition getTableSchema (schema : FullSchema) (tableName : jsstring)
  : property TableSchema :=
  get schema tableName.

(** [tableName in schema] *)
Definition validateTableName (schema : FullSchema) (tableName : jsstring) : bool :=
  match own_property schema tableName with
  | Some _ => true
  | None => bool_decide (tableName ∈ object_prototype_keys)
  end.

(** The message of [k in undefined], in the wording of V8. *)
Definition in_undefined (k : jsstring) : jsstring :=
  str "Cannot use 'in' operator to search for '" ++ k ++ str "' in undefined".

(** [table ? columnName in table.columns : false] *)
Definition validateColumn (schema : FullSchema) (tableName columnName : jsstring)
  : jsstring + bool :=
  match get schema tableName with
  | Own table =>
      inr match own_property (columns table) columnName with
          | Some _ => true
          | None => bool_decide (columnName ∈ object_prototype_keys)
          end
  | Inherited => inl (in_undefined columnName)
  | Missing => inr false
  end.

Definition getTableNames (schema : FullSchema) : list jsstring := keys schema.

(** [if (!table || !table.columns[columnName]) return false;
     return aggregatable !== "false" && !!aggregatable] *)
Definition isColumnAggregatable (schema : FullSchema)
    (tableName columnName : jsstring) : jsstring + bool :=
  match get schema tableName with
  | Missing => inr false
  | Inherited => inl (Validator.undefined_read columnName)
  | Own table =>
      match get (columns table) columnName with
      | Missing => inr false
      | Inherited => inr false
      | Own info =>
          inr match aggregatable info with
              | Some a => negb (jseq a (str "false")) && truthy a
              | None => false
              end
      end
  end.

End Registry.

(** ** The query planner

    [planQueries] and [getMockData] of
    [backend/src/agent/query-planner.ts].  The field [filters] of a
    dashboard intent is not read by the planner and is left out; the clock
    [Date.now()] is the argument [now]. *)

Module Planner.
Import JS.

Record WidgetHint : Type := {
  purpose : jsstring;
  suggested_viz_type : jsstring;
  suggested_metrics : list jsstring
}.

Record DashboardIntent : Type := {
  dashboard_type : jsstring;
  user_goal : jsstring;
  focus_areas : list jsstring;
  time_range : option jsstring;
  suggested_widgets : N;
  widget_hints : list WidgetHint
}.

(** The values of the mock rows. *)
Inductive value : Type :=
  | Text (s : jsstring)
  | Number (n : Z).

Definition row : Type := list (jsstring * value).

Record QuerySpec : Type := {
  query_id : jsstring;
  nl_query : jsstring;
  qs_purpose : jsstring;
  visualization_type : jsstring;
  qs_description : jsstring;
  expected_columns : list jsstring;
  fallback_mock_data : list row
}.

Record QueryPlan : Type := {
  dashboard_id : jsstring;
  qp_dashboard_type : jsstring;
  queries : list QuerySpec;
  estimated_execution_time_ms : N
}.

(** The decimal digits of a number, as a template literal writes it. *)
Definition decimal (n : N) : jsstring :=
  str (DecimalString.NilEmpty.string_of_uint (N.to_uint n)).

(** [s.replace(pattern, replacement)] for a string pattern: the first
    occurrence is replaced, and in the replacement text a dollar sign
    followed by a dollar sign, an ampersand, a backquote or a quote stands
    for a dollar sign, the matched text, the text before it and the text
    after it. *)
Fixpoint split_at_first (pattern s : jsstring) : option (jsstring * jsstring) :=
  if starts_with pattern s then Some ([], drop (length pattern) s)
  else match s with
       | [] => None
       | c :: s' =>
           match split_at_first pattern s' with
           | Some (before, after) => Some (c :: before, after)
           | None => None
           end
       end.

Fixpoint substitution (matched before after replacement : jsstring) : jsstring :=
  match replacement with
  | [] => []
  | c :: r =>
      if (c =? 36)%N
      then match r with
           | d :: r' =>
               if (d =? 36)%N then 36%N :: substitution matched before after r'
               else if (d =? 38)%N then matched ++ substitution matched before after r'
               else if (d =? 96)%N then before ++ substitution matched before after r'
               else if (d =? 39)%N then after ++ substitution matched before after r'
               else c :: substitution matched before after r
           | [] => [c]
           end
      else c :: substitution matched before after r
  end.

Definition replace (s pattern replacement : jsstring) : jsstring :=
  match split_at_first pattern s with
  | Some (before, after) =>
      before ++ substitution pattern before after replacement ++ after
  | None => s
  end.

(** [queryTemplates] *)
Definition top_holdings_template : jsstring :=
  str "Show me the top {limit} holdings with their ticker, quantity, average cost, current price, market value, and gains".
Definition allocation_template : jsstring :=
  str "What is my asset allocation by sector? Show sector and total value for each sector".
Definition performance_template : jsstring :=
  str "Show me portfolio performance with ticker, gains, and percentage gain for each holding".
Definition total_value_template : jsstring :=
  str "What is my total portfolio value and total gains?".
Definition trends_template : jsstring :=
  str "Show portfolio value trends over the last {time_range} with date and portfolio value for each day".
Definition by_category_template : jsstring :=
  str "How much did I spend in each category? Show category, total spent, and transaction count".
Definition by_date_template : jsstring :=
  str "Show my transaction history with date, amount, category, and merchant".
Definition by_merchant_template : jsstring :=
  str "What are my top merchants by spending? Show merchant, total spent, and transaction count".
Definition summary_template : jsstring :=
  str "Give me my total spending, average transaction, and transaction count".
Definition status_template : jsstring :=
  str "Show my budget status by category with limit, spent, and remaining amount".
Definition vs_limit_template : jsstring :=
  str "Show budget vs actual for each category with percentage used".
Definition progress_template : jsstring :=
  str "Show my financial goals with goal name, target amount, current amount, and progress percentage".

(** [mockDataFallbacks] *)
Definition field (k : string) (v : value) : jsstring * value := (str k, v).
Definition text (s : string) : value := Text (str s).

Definition holding (ticker : string) (quantity average_cost current_price
    market_value gains : Z) : row :=
  [ field "ticker" (text ticker); field "quantity" (Number quantity);
    field "average_cost" (Number average_cost);
    field "current_price" (Number current_price);
    field "market_value" (Number market_value); field "gains" (Number gains) ].

Definition top_holdings_mock : list row :=
  [ holding "AAPL" 100 150 180 18000 3000;
    holding "MSFT" 50 300 350 17500 2500;
    holding "GOOGL" 75 140 160 12000 1500 ].

Definition allocation_mock : list row :=
  map (fun sv : string * Z =>
         [ field "sector" (text (fst sv)); field "value" (Number (snd sv)) ])
    [ ("Technology", 35000%Z); ("Healthcare", 15000%Z); ("Finance", 12000%Z) ]%string.

Definition by_category_mock : list row :=
  map (fun r : string * Z * Z =>
         [ field "category" (text (fst (fst r)));
           field "total_spent" (Number (snd (fst r)));
           field "transaction_count" (Number (snd r)) ])
    [ ("Groceries", 1200%Z, 45%Z); ("Transport", 800%Z, 32%Z);
      ("Entertainment", 400%Z, 15%Z) ]%string.

Definition summary_mock : list row :=
  map (fun r : string * Z =>
         [ field "metric" (text (fst r)); field "value" (Number (snd r)) ])
    [ ("total_spending", 2400%Z); ("average_transaction", 75%Z);
      ("transaction_count", 92%Z) ]%string.

Definition status_mock : list row :=
  map (fun r : string * Z * Z * Z =>
         [ field "category" (text (fst (fst (fst r))));
           field "limit" (Number (snd (fst (fst r))));
           field "spent" (Number (snd (fst r)));
           field "remaining" (Number (snd r)) ])
    [ ("Housing", 2000%Z, 1800%Z, 200%Z); ("Food", 800%Z, 650%Z, 150%Z);
      ("Transport", 500%Z, 480%Z, 20%Z) ]%string.

Definition progress_mock : list row :=
  map (fun r : string * Z * Z * Z =>
         [ field "goal_name" (text (fst (fst (fst r))));
           field "target_amount" (Number (snd (fst (fst r))));
           field "current_amount" (Number (snd (fst r)));
           field "progress_percentage" (Number (snd r)) ])
    [ ("Emergency Fund", 10000%Z, 6500%Z, 65%Z); ("Vacation", 5000%Z, 2300%Z, 46%Z);
      ("Retirement", 500000%Z, 125000%Z, 25%Z) ]%string.

Definition mockDataFallbacks : list (jsstring * list (jsstring * list row)) :=
  [ (str "PORTFOLIO",
     [ (str "top_holdings", top_holdings_mock); (str "allocation", allocation_mock) ]);
    (str "TRANSACTIONS",
     [ (str "by_category", by_category_mock); (str "summary", summary_mock) ]);
    (str "BUDGETS", [ (str "status", status_mock) ]);
    (str "FINANCIAL_GOALS", [ (str "progress", progress_mock) ]) ].

(** [metrics.includes(m)] on an array of strings. *)
Definition has (metrics : list jsstring) (m : string) : bool :=
  existsb (fun x => jseq x (str m)) metrics.

(** [typeData.name || []]; a member of [Object.prototype] found in place
    of [typeData] has none of the four fields. *)
Definition dataset (typeData : property (list (jsstring * list row))) (name : string)
  : list row :=
  match typeData with
  | Own data => match own_property data (str name) with Some rows => rows | None => [] end
  | _ => []
  end.

Definition getMockData (dashboardType : jsstring) (metrics : list jsstring)
  : list row :=
  let typeData := get mockDataFallbacks dashboardType in
  if negb (defined typeData) then []
  else if has metrics "ticker" && has metrics "market_value"
       then dataset typeData "top_holdings"
  else if has metrics "sector" then dataset typeData "allocation"
  else if has metrics "category" then dataset typeData "by_category"
  else if has metrics "goal_name" then dataset typeData "progress"
  else [].

(** [x || y] on strings. *)
Definition or_else (x y : jsstring) : jsstring := if truthy x then x else y.

Definition opt_or_else (x : option jsstring) (y : jsstring) : jsstring :=
  match x with Some s => or_else s y | None => y end.

(** The text chosen for one widget hint. *)
Definition nlQuery (dashboardType : jsstring) (timeRange : option jsstring)
    (metrics : list jsstring) : jsstring :=
  if jseq dashboardType (str "PORTFOLIO") then
    if has metrics "ticker" && has metrics "market_value"
    then or_else (replace top_holdings_template (str "{limit}") (str "5")) []
    else if has metrics "sector" then or_else allocation_template []
    else if has metrics "gains" then or_else performance_template []
    else if has metrics "portfolio_value"
    then or_else (replace trends_template (str "{time_range}")
                    (opt_or_else timeRange (str "30_days"))) []
    else or_else total_value_template []
  else if jseq dashboardType (str "TRANSACTIONS") then
    if has metrics "category" then or_else by_category_template []
    else if has metrics "date" then or_else by_date_template []
    else if has metrics "merchant" then or_else by_merchant_template []
    else or_else summary_template []
  else if jseq dashboardType (str "BUDGETS") then
    if has metrics "spent" then or_else vs_limit_template []
    else or_else status_template []
  else if jseq dashboardType (str "FINANCIAL_GOALS") then or_else progress_template []
  else [].

Definition purposeOf (viz : jsstring) : jsstring :=
  if jseq viz (str "kpi") then str "kpi"
  else if jseq viz (str "table") then str "table_data"
  else str "chart_data".

(** The body of the loop over [intent.widget_hints], for the index [i]. *)
Definition querySpec (intent : DashboardIntent) (i : nat) (hint : WidgetHint)
  : QuerySpec :=
  {| query_id := str "query_" ++ decimal (N.of_nat (i + 1));
     nl_query := nlQuery (dashboard_type intent) (time_range intent)
                   (suggested_metrics hint);
     qs_purpose := purposeOf (suggested_viz_type hint);
     visualization_type := suggested_viz_type hint;
     qs_description := purpose hint;
     expected_columns := suggested_metrics hint;
     fallback_mock_data :=
       getMockData (dashboard_type intent) (suggested_metrics hint) |}.

Definition planQueries (now : N) (intent : DashboardIntent) : QueryPlan :=
  let queries := imap (querySpec intent) (widget_hints intent) in
  {| dashboard_id := str "dashboard_" ++ decimal now;
     qp_dashboard_type := dashboard_type intent;
     queries := queries;
     estimated_execution_time_ms := N.of_nat (length queries) * 800 |}.

End Planner.


(** ** The query cache (query-cache.ts) and the embedder (embedder.ts)

    [QueryCache] holds two private maps, both keyed by the MD5 digest of
    the text.  The digest [hashQuery] and the clock reading [now]
    ([Date.now()], in milliseconds) are parameters. *)

Module Cache.
Import JS.

Record CachedResult (A : Type) : Type := {
  data : A;
  timestamp : Z;
  ttl : Z
}.
Arguments data {A} _.
Arguments timestamp {A} _.
Arguments ttl {A} _.

Record CachedEmbedding (V : Type) : Type := {
  vector : V;
  embedded_at : Z
}.
Arguments vector {V} _.
Arguments embedded_at {V} _.

(** [5 * 60 * 1000]: five minutes *)
Definition DEFAULT_TTL : Z := 5 * 60 * 1000.
(** [60 * 60 * 1000]: the life time of an embedding, one hour *)
Definition EMBEDDING_TTL : Z := 60 * 60 * 1000.

Section QueryCache.
Context (hashQuery : jsstring -> jsstring).
Context {A V : Type}.

Definition cacheResult (now : Z) (query : jsstring) (d : A) (life : Z)
    (resultCache : gmap jsstring (CachedResult A)) : gmap jsstring (CachedResult A) :=
  <[ hashQuery query := {| data := d; timestamp := now; ttl := life |} ]> resultCache.

(** [getResult]: the value read ([None] is [null]) and the map afterwards. *)
Definition getResult (now : Z) (query : jsstring)
    (resultCache : gmap jsstring (CachedResult A))
  : option A * gmap jsstring (CachedResult A) :=
  let hash := hashQuery query in
  match resultCache !! hash with
  | None => (None, resultCache)
  | Some cached =>
      let age := (now - timestamp cached)%Z in
      if (ttl cached <? age)%Z
      then (None, delete hash resultCache)
      else (Some (data cached), resultCache)
  end.

Definition cacheEmbedding (now : Z) (text : jsstring) (v : V)
    (embeddingCache : gmap jsstring (CachedEmbedding V))
  : gmap jsstring (CachedEmbedding V) :=
  <[ hashQuery text := {| vector := v; embedded_at := now |} ]> embeddingCache.

Definition getEmbedding (now : Z) (text : jsstring)
    (embeddingCache : gmap jsstring (CachedEmbedding V))
  : option V * gmap jsstring (CachedEmbedding V) :=
  let hash := hashQuery text in
  match embeddingCache !! hash with
  | None => (None, embeddingCache)
  | Some cached =>
      let age := (now - embedded_at cached)%Z in
      if (EMBEDDING_TTL <? age)%Z
      then (None, delete hash embeddingCache)
      else (Some (vector cached), embeddingCache)
  end.

(** [clearExpired] and [clearAll], on each of the two maps. *)
Definition clearExpiredResults (now : Z)
    (resultCache : gmap jsstring (CachedResult A)) : gmap jsstring (CachedResult A) :=
  filter (fun kv => negb (ttl (snd kv) <? now - timestamp (snd kv))%Z = true) resultCache.

Definition clearExpiredEmbeddings (now : Z)
    (embeddingCache : gmap jsstring (CachedEmbedding V))
  : gmap jsstring (CachedEmbedding V) :=
  filter (fun kv => negb (EMBEDDING_TTL <? now - embedded_at (snd kv))%Z = true)
    embeddingCache.

(** [SemanticEmbedder.embedText] once the model is loaded: [extractor] is
    the model, [calls] counts its invocations, [now] is the clock at the
    cache read and [now'] the clock when the new vector is stored. *)
Definition embedText (extractor : jsstring -> V) (now now' : Z) (text : jsstring)
    (st : nat * gmap jsstring (CachedEmbedding V))
  : V * (nat * gmap jsstring (CachedEmbedding V)) :=
  let '(calls, embeddingCache) := st in
  match getEmbedding now text embeddingCache with
  | (Some cached, embeddingCache) => (cached, (calls, embeddingCache))
  | (None, embeddingCache) =>
      let embedding := extractor text in
      (embedding, (S calls, cacheEmbedding now' text embedding embeddingCache))
  end.

End QueryCache.

End Cache.

(** ** The semantic retriever (semantic-retriever.ts) *)

Module Retriever.
Import JS Schema Cache.

Record RetrievedModel : Type := {
  id : jsstring;
  name : jsstring;
  model_description : jsstring;
  sql : jsstring;
  model_score : Q
}.

Record RetrievedColumn : Type := {
  rc_table : jsstring;
  column : jsstring;
  rc_type : jsstring;
  rc_description : option jsstring;
  rc_unit : option jsstring;
  rc_score : Q
}.

Record RetrievedRelationship : Type := {
  from_table : jsstring;
  to_table : jsstring;
  join_condition : jsstring
}.

Record SemanticContext : Type := {
  models : list RetrievedModel;
  columns : list RetrievedColumn;
  relationships : list RetrievedRelationship;
  tables_involved : list jsstring;
  context_text : jsstring;
  token_estimate : nat
}.

Inductive QueryIntent : Type :=
  | COUNT | JOIN | AGGREGATE | TIME_BASED | RANK | FILTER | UNKNOWN.

Definition includes_any (s : jsstring) (ps : list string) : bool :=
  existsb (fun p => includes s (str p)) ps.

(** [detectQueryIntent]; it reads [query.toLowerCase()], so it is the
    classification of the code for ASCII queries (see [is_ascii]). *)
Definition detectQueryIntent (query : jsstring) : QueryIntent :=
  let lowerQuery := toLowerCase query in
  if includes_any lowerQuery ["how many"; "count"; "total number"] then COUNT
  else if includes_any lowerQuery ["join"; "relate"; "associate"]
          || (includes lowerQuery (str "with") && includes lowerQuery (str "their"))
  then JOIN
  else if includes_any lowerQuery
            ["month"; "year"; "date"; "timeline"; "trend"; "over time"]
  then TIME_BASED
  else if includes_any lowerQuery
            ["top"; "bottom"; "rank"; "highest"; "lowest"; "best"; "worst"]
  then RANK
  else if includes_any lowerQuery
            ["average"; "sum"; "total"; "breakdown"; "distribution"; "analysis by"]
  then AGGREGATE
  else if includes_any lowerQuery
            ["where"; "filter"; "specific"; "over budget"; "exceeds"]
  then FILTER
  else UNKNOWN.

Definition intentOperations (intent : QueryIntent) : list string :=
  match intent with
  | COUNT => ["COUNT"]
  | JOIN => ["JOIN"; "LEFT JOIN"]
  | AGGREGATE => ["GROUP BY"; "SUM"; "AVG"]
  | TIME_BASED => ["DATE"; "DATE_TRUNC"; "INTERVAL"]
  | RANK => ["ORDER BY"; "LIMIT"]
  | FILTER => ["WHERE"]
  | UNKNOWN => []
  end%string.

(** The callback of [models.filter]; it reads [model.sql.toUpperCase()],
    so it is the test of the code for patterns with ASCII SQL. *)
Definition hasRelevantOperation (intent : QueryIntent) (model : RetrievedModel)
  : bool :=
  existsb (fun op => includes (toUpperCase (sql model)) (str op))
    (intentOperations intent).

Definition filterModelsByIntent (ms : list RetrievedModel) (intent : QueryIntent)
  : list RetrievedModel :=
  if length (intentOperations intent) =? 0 then ms
  else List.filter (hasRelevantOperation intent) ms.

(** The result of a call that may throw. *)
Inductive run (A : Type) : Type :=
  | Done (a : A)
  | Thrown (message : jsstring)
  | NoFuel.
Arguments Done {A} a.
Arguments Thrown {A} message.
Arguments NoFuel {A}.

Definition edge (tableName : jsstring) (rel : Relationship)
  : RetrievedRelationship :=
  {| from_table := tableName; to_table := table rel;
     join_condition := join_key rel |}.

(** The state of one expansion: the edges pushed so far and the visited
    set. *)
Record expansion : Type := Expansion {
  pushed : list RetrievedRelationship;
  visited : gset jsstring
}.

Definition notIterable : jsstring := str "tableSchema.relationships is not iterable".

(** The [for (const rel of tableSchema.relationships)] loop of [traverse]:
    [visit] is the recursive call and [deeper] the test [depth < 2]. *)
Fixpoint for_relationships (visit : jsstring -> expansion -> run expansion)
    (tableName : jsstring) (deeper : bool) (rels : list Relationship)
    (st : expansion) : run expansion :=
  match rels with
  | [] => Done st
  | rel :: rels' =>
      let st := Expansion (pushed st ++ [edge tableName rel]) (visited st) in
      if deeper
      then match visit (table rel) st with
           | Done st => for_relationships visit tableName deeper rels' st
           | Thrown m => Thrown m
           | NoFuel => NoFuel
           end
      else for_relationships visit tableName deeper rels' st
  end.

(** [traverse(tableName, depth)].  [fuel] bounds the nesting of the calls;
    calls nest at most three deep, as [depth] starts at 0 and a call is
    made only below depth 2. *)
Fixpoint traverse (schema : FullSchema) (fuel : nat) (tableName : jsstring)
    (depth : nat) (st : expansion) {struct fuel} : run expansion :=
  match fuel with
  | 0 => NoFuel
  | S fuel' =>
      if (2 <? depth) || bool_decide (tableName ∈ visited st) then Done st
      else
        let st := Expansion (pushed st) ({[ tableName ]} ∪ visited st) in
        match get schema tableName with
        | Missing => Done st
        | Inherited => Thrown notIterable
        | Own tableSchema =>
            for_relationships
              (fun t st => traverse schema fuel' t (S depth) st)
              tableName (depth <? 2) (Schema.relationships tableSchema) st
        end
  end.

Fixpoint traverse_all (schema : FullSchema) (tableNames : list jsstring)
    (st : expansion) : run expansion :=
  match tableNames with
  | [] => Done st
  | tableName :: rest =>
      match traverse schema 3 tableName 0 st with
      | Done st => traverse_all schema rest st
      | Thrown m => Thrown m
      | NoFuel => NoFuel
      end
  end.

(** [map.set(k, v)] on a [Map] kept in insertion order. *)
Fixpoint map_set {B} (k : jsstring) (v : B) (m : list (jsstring * B))
  : list (jsstring * B) :=
  match m with
  | [] => [(k, v)]
  | (k', v') :: m' => if jseq k' k then (k', v) :: m' else (k', v') :: map_set k v m'
  end.

(** The key of the final [Map]: the two names, one after the other. *)
Definition pairKey (r : RetrievedRelationship) : jsstring :=
  from_table r ++ to_table r.

(** [Array.from(new Map(rs.map((r) => [key, r])).values())] *)
Definition dedupe (rs : list RetrievedRelationship) : list RetrievedRelationship :=
  map snd (fold_left (fun m r => map_set (pairKey r) r m) rs []).

Definition expandRelationships (schema : option FullSchema)
    (tableNames : list jsstring) : run (list RetrievedRelationship) :=
  match schema with
  | None => Done []
  | Some schema =>
      match traverse_all schema tableNames (Expansion [] ∅) with
      | Done st => Done (dedupe (pushed st))
      | Thrown m => Thrown m
      | NoFuel => NoFuel
      end
  end.

(** [Array.from(new Set(xs))]: first occurrences, in order. *)
Fixpoint unique (xs : list jsstring) : list jsstring :=
  match xs with
  | [] => []
  | x :: xs' => x :: List.filter (fun y => negb (jseq x y)) (unique xs')
  end.

Definition header : jsstring := str "## Relevant SQL Patterns" ++ [10; 10]%N.

Definition nl : jsstring := [10%N].
Definition tick : jsstring := [96%N].
(** U+2192, the arrow of the relationship lines *)
Definition arrow : jsstring := [8594%N].

Definition renderModel (model : RetrievedModel) : jsstring :=
  str "**" ++ name model ++ str "** - " ++ model_description model ++ nl
  ++ str "```sql" ++ nl ++ sql model ++ nl ++ str "```" ++ nl ++ nl.

Definition truthy_opt (o : option jsstring) : bool :=
  match o with Some s => truthy s | None => false end.

Definition renderColumn (col : RetrievedColumn) : jsstring :=
  str "  - " ++ tick ++ column col ++ tick ++ str " (" ++ rc_type col ++ str ")"
  ++ (if truthy_opt (rc_description col)
      then str " - " ++ default [] (rc_description col) else [])
  ++ (if truthy_opt (rc_unit col)
      then str " [" ++ default [] (rc_unit col) ++ str "]" else [])
  ++ nl.

(** [${tableSchema.description}]: a value inherited from
    [Object.prototype] has no such field and prints as [undefined]. *)
Definition descriptionOf (tableSchema : property TableSchema) : jsstring :=
  match tableSchema with
  | Own ts => description ts
  | _ => str "undefined"
  end.

Definition renderTable (schema : option FullSchema) (cols : list RetrievedColumn)
    (tableName : jsstring) : jsstring :=
  match schema with
  | None => []
  | Some schema =>
      if negb (defined (get schema tableName)) then []
      else
        let tableColumns :=
          List.filter (fun c => jseq (rc_table c) tableName) cols in
        str "**" ++ tableName ++ str "** - "
        ++ descriptionOf (get schema tableName) ++ nl
        ++ str "Columns:" ++ nl
        ++ concat (map renderColumn tableColumns)
        ++ nl
  end.

Definition renderRelationship (rel : RetrievedRelationship) : jsstring :=
  str "- " ++ tick ++ from_table rel ++ tick ++ str " " ++ arrow ++ str " "
  ++ tick ++ to_table rel ++ tick ++ str " on " ++ join_condition rel ++ nl.

Definition buildContextText (schema : option FullSchema)
    (ms : list RetrievedModel) (cols : list RetrievedColumn)
    (rels : list RetrievedRelationship) : jsstring :=
  let context := header in
  let context :=
    if 0 <? length ms
    then context ++ str "### Examples of Similar Queries:" ++ nl ++ nl
         ++ concat (map renderModel ms)
    else context in
  let uniqueTables := unique (map rc_table cols) in
  let context :=
    if 0 <? length uniqueTables
    then context ++ str "### Relevant Schema Tables:" ++ nl ++ nl
         ++ concat (map (renderTable schema cols) uniqueTables)
    else context in
  let context :=
    if 0 <? length rels
    then context ++ str "### Table Relationships:" ++ nl ++ nl
         ++ concat (map renderRelationship rels) ++ nl
    else context in
  context.

(** [Math.ceil(text.length / 4)] *)
Definition estimateTokens (text : jsstring) : nat := (length text + 3) / 4.

(** What [buildContext] depends on besides the cache: the registry that
    [initialize] loads (or the failure of [initialize]), the schema field of
    the retriever, and the two retrieval calls, which go to the embedder
    and the vector index and return their lists sorted by score. *)
Record environment : Type := {
  schema_field : option FullSchema;
  initialize : run FullSchema;
  retrieveSemanticModels : jsstring -> nat -> list RetrievedModel;
  retrieveSchemaMetadata : jsstring -> nat -> list RetrievedColumn
}.

Section BuildContext.
Context (hashQuery : jsstring -> jsstring).

(** The part of [buildContext] after a cache miss, up to the context
    object. *)
Definition assemble (env : environment) (query : jsstring) (maxTokens : nat)
  : run SemanticContext :=
  let loaded :=
    match schema_field env with
    | Some schema => Done schema
    | None => initialize env
    end in
  match loaded with
  | Thrown m => Thrown m
  | NoFuel => NoFuel
  | Done schema =>
      let intent := detectQueryIntent query in
      let ms := retrieveSemanticModels env query 5 in
      let ms := filterModelsByIntent ms intent in
      let cols := retrieveSchemaMetadata env query 10 in
      let tableNames := unique (map rc_table cols) in
      match expandRelationships (Some schema) tableNames with
      | Thrown m => Thrown m
      | NoFuel => NoFuel
      | Done rels =>
          let contextText := buildContextText (Some schema) ms cols rels in
          let tokenEstimate := estimateTokens contextText in
          Done {| models := ms; columns := cols; relationships := rels;
                  tables_involved := tableNames; context_text := contextText;
                  token_estimate := tokenEstimate |}
      end
  end.

(** [buildContext(query, maxTokens)]: [now] is the clock at the cache
    read, [now'] the clock when the new context is stored.  The result is
    what the call returns or throws, and the result cache afterwards. *)
Definition buildContext (env : environment) (now now' : Z) (query : jsstring)
    (maxTokens : nat) (resultCache : gmap jsstring (CachedResult SemanticContext))
  : run SemanticContext * gmap jsstring (CachedResult SemanticContext) :=
  match getResult hashQuery now query resultCache with
  | (Some cachedContext, resultCache) => (Done cachedContext, resultCache)
  | (None, resultCache) =>
      match assemble env query maxTokens with
      | Done context =>
          (Done context,
           cacheResult hashQuery now' query context DEFAULT_TTL resultCache)
      | Thrown m => (Thrown m, resultCache)
      | NoFuel => (NoFuel, resultCache)
      end
  end.

(** The result caches that arise from the empty one: only [buildContext]
    stores contexts; [getResult], [clearExpired] and [clearAll] remove
    entries. *)
Inductive reachable : gmap jsstring (CachedResult SemanticContext) -> Prop :=
  | reachable_empty : reachable ∅
  | reachable_buildContext env now now' query maxTokens c :
      reachable c ->
      reachable (snd (buildContext env now now' query maxTokens c))
  | reachable_getResult now query c :
      reachable c -> reachable (snd (getResult hashQuery now query c))
  | reachable_clearExpired now c :
      reachable c -> reachable (clearExpiredResults now c).

End BuildContext.

End Retriever.

(** ** Notions used to state the properties *)

Module Notions.
Import JS Regex Schema Retriever.

(** [neighbours schema t]: the targets of the relationships of table [t]. *)
Definition neighbours (schema : FullSchema) (t : jsstring) : list jsstring :=
  match get schema t with
  | Own tableSchema => map table (Schema.relationships tableSchema)
  | _ => []
  end.

(** [within schema seeds d t]: table [t] is reached from a seed by a chain
    of [d] relationships. *)
Inductive within (schema : FullSchema) (seeds : list jsstring)
  : nat -> jsstring -> Prop :=
  | within_seed t : t ∈ seeds -> within schema seeds 0 t
  | within_step d t u :
      within schema seeds d t -> u ∈ neighbours schema t ->
      within schema seeds (S d) u.

(** The edges of the registry: [r] is a relationship of the own table
    [from_table r]. *)
Definition registry_edge (schema : FullSchema) (r : RetrievedRelationship) : Prop :=
  exists tableSchema rel,
    get schema (from_table r) = Own tableSchema
    /\ rel ∈ Schema.relationships tableSchema
    /\ r = edge (from_table r) rel.

(** Two texts that differ at most in the case of ASCII letters. *)
Definition same_word (a b : jsstring) : Prop := toUpperCase a = toUpperCase b.

(** [keyword] occurs in [sql] as a whole word, in any letter case: it is
    neither preceded nor followed by a letter, a digit or an underscore. *)
Definition whole_word (keyword sql : jsstring) : Prop :=
  exists before w after,
    sql = before ++ w ++ after
    /\ same_word w keyword
    /\ is_word_opt (last before) = false
    /\ is_word_opt (head after) = false.

(** An error message names a keyword when the keyword occurs in it. *)
Definition mentions (message word : jsstring) : Prop := includes message word = true.

(** [occurs item text]: the text holds [item] whole. *)
Definition occurs (item text : jsstring) : Prop :=
  exists before after, text = before ++ item ++ after.

(** A context whose text is the rendering of its three lists and whose
    token estimate is that of its text, and a cache that holds only such
    contexts. *)
Definition rendered (ctx : SemanticContext) : Prop :=
  (exists schema,
      context_text ctx
      = buildContextText (Some schema) (models ctx) (columns ctx) (relationships ctx))
  /\ token_estimate ctx = estimateTokens (context_text ctx).

Definition all_rendered (c : gmap jsstring (Cache.CachedResult SemanticContext)) : Prop :=
  forall k entry, c !! k = Some entry -> rendered (Cache.data entry).

End Notions.

(** ** Scenarios: concrete registries, retrieval results and queries *)

Module Scenarios.
Import JS Schema Cache Retriever.

Definition model_user_accounts : RetrievedModel :=
  {| id := str "model_user_accounts";
     name := str "User Accounts Overview";
     model_description := str "Get all accounts for a user with balances";
     sql := str "SELECT u.email, u.name, a.account_name, a.account_type, a.balance, a.currency FROM users u LEFT JOIN accounts a ON u.id = a.user_id ORDER BY u.created_at DESC";
     model_score := 91 # 100 |}.

Definition model_accounts_by_type : RetrievedModel :=
  {| id := str "model_accounts_by_type";
     name := str "Accounts by Type";
     model_description := str "Group accounts by type with count and total balance";
     sql := str "SELECT account_type, COUNT(*) as account_count, SUM(balance) as total_balance FROM accounts GROUP BY account_type ORDER BY account_count DESC";
     model_score := 88 # 100 |}.

Definition model_portfolio_holdings : RetrievedModel :=
  {| id := str "model_portfolio_holdings";
     name := str "Portfolio Holdings";
     model_description := str "Get portfolio holdings with security and market values";
     sql := str "SELECT ph.account_id, s.name, s.ticker, ph.quantity, ph.current_price, ph.market_value FROM portfolio_holdings ph LEFT JOIN securities s ON ph.security_id = s.id ORDER BY ph.market_value DESC LIMIT 100";
     model_score := 86 # 100 |}.

Definition model_top_holdings : RetrievedModel :=
  {| id := str "model_top_holdings";
     name := str "Top Portfolio Holdings";
     model_description := str "Get top holdings by market value";
     sql := str "SELECT ph.account_id, s.name, s.ticker, ph.market_value FROM portfolio_holdings ph LEFT JOIN securities s ON ph.security_id = s.id ORDER BY ph.market_value DESC LIMIT 10";
     model_score := 85 # 100 |}.

Definition model_portfolio_total_value : RetrievedModel :=
  {| id := str "model_portfolio_total_value";
     name := str "Total Portfolio Value by Account";
     model_description := str "Calculate total portfolio value for each account";
     sql := str "SELECT account_id, SUM(market_value) as total_portfolio_value, COUNT(*) as holding_count FROM portfolio_holdings GROUP BY account_id ORDER BY total_portfolio_value DESC";
     model_score := 83 # 100 |}.

(** The column descriptor stored in the index for [t.c], as
    [embedSchemaMetadata] builds it from the registry. *)
Definition columnHit (t c : string) (score : Q) : list RetrievedColumn :=
  match get finance_schema (str t) with
  | Own tableSchema =>
      match get (Schema.columns tableSchema) (str c) with
      | Own info =>
          [ {| rc_table := str t; column := str c; rc_type := type info;
               rc_description := col_description info; rc_unit := unit info;
               rc_score := score |} ]
      | _ => []
      end
  | _ => []
  end.

(** A search that returns five patterns and ten column descriptors of the
    finance catalog. *)
Definition portfolio_env : environment :=
  {| schema_field := Some finance_schema;
     initialize := Done finance_schema;
     retrieveSemanticModels := fun _ _ =>
       [ model_user_accounts; model_accounts_by_type; model_portfolio_holdings;
         model_top_holdings; model_portfolio_total_value ];
     retrieveSchemaMetadata := fun _ _ =>
       columnHit "portfolio_holdings" "market_value" (90 # 100)
       ++ columnHit "portfolio_holdings" "quantity" (88 # 100)
       ++ columnHit "securities" "ticker" (87 # 100)
       ++ columnHit "portfolio_holdings" "current_price" (85 # 100)
       ++ columnHit "accounts" "balance" (84 # 100)
       ++ columnHit "securities" "name" (82 # 100)
       ++ columnHit "portfolio_holdings" "average_cost" (80 # 100)
       ++ columnHit "accounts" "account_name" (79 # 100)
       ++ columnHit "securities" "market_cap" (77 # 100)
       ++ columnHit "portfolio_holdings" "account_id" (75 # 100) |}.

Definition portfolio_query : jsstring := str "show my portfolio holdings".

Definition model_securities : RetrievedModel :=
  {| id := str "model_securities";
     name := str "Securities Catalog";
     model_description := str "Get list of all securities with types and sectors";
     sql := str "SELECT id, ticker, name, security_type, sector, industry, market_cap FROM securities ORDER BY market_cap DESC LIMIT 100";
     model_score := 81 # 100 |}.

(** A search that returns one pattern, which has no COUNT in its SQL. *)
Definition single_env : environment :=
  {| schema_field := Some finance_schema;
     initialize := Done finance_schema;
     retrieveSemanticModels := fun _ _ => [ model_securities ];
     retrieveSchemaMetadata := fun _ _ => columnHit "securities" "ticker" (80 # 100) |}.


(** A search that returns nothing. *)
Definition empty_env : environment :=
  {| schema_field := Some finance_schema;
     initialize := Done finance_schema;
     retrieveSemanticModels := fun _ _ => [];
     retrieveSchemaMetadata := fun _ _ => [] |}.

(** The context returned for a query that retrieves nothing. *)
Definition degraded : SemanticContext :=
  {| models := []; columns := []; relationships := []; tables_involved := [];
     context_text := header; token_estimate := 7 |}.

(** The context of the question "list everything" when the search returns
    the single pattern of [single_env]. *)
Definition listing_query : jsstring := str "list everything".

Definition listing_context : SemanticContext :=
  match assemble single_env listing_query 600 with
  | Done ctx => ctx
  | _ => degraded
  end.

(** A registry with one chain of foreign keys t0 -> t1 -> ... -> t5. *)
Definition link (a b : string) : TableSchema :=
  mk_table a "link" [] [ relationship b "id:id" ] [].

Definition chain_schema : FullSchema :=
  registry_of [ link "t0" "t1"; link "t1" "t2"; link "t2" "t3";
                link "t3" "t4"; link "t4" "t5" ].

(** A registry in which two different pairs of tables have the same
    concatenation: ab + c and a + bc. *)
Definition clash_schema : FullSchema :=
  registry_of [ mk_table "ab" "first" [] [ relationship "c" "x:y" ] [];
                mk_table "a" "second" [] [ relationship "bc" "u:v" ] [] ].

(** A registry in which table "v" is two relationships away from the seed
    "B" (B -> u -> v) and four away from the seed "A"
    (A -> x -> u -> v -> w). *)
Definition detour_schema : FullSchema :=
  registry_of [ link "A" "x"; link "x" "u"; link "u" "v"; link "v" "w";
                link "B" "u" ].

End Scenarios.

(** * Properties *)

(** ** The query cache *)

Module CacheProperties.
Import JS Cache.

Section Expiry.
Context (hashQuery : jsstring -> jsstring) {A V : Type}.
Implicit Types (c : gmap jsstring (CachedResult A)).
Implicit Types (e : gmap jsstring (CachedEmbedding V)).

Lemma getResult_expired c now query entry :
  c !! hashQuery query = Some entry ->
  (ttl entry < now - timestamp entry)%Z ->
  getResult hashQuery now query c = (None, delete (hashQuery query) c).
Proof.
  intros Hin Hold. unfold getResult. rewrite Hin.
  destruct (Z.ltb_spec (ttl entry) (now - timestamp entry)); [reflexivity | lia].
Qed.

Lemma getResult_live c now query entry :
  c !! hashQuery query = Some entry ->
  (now - timestamp entry <= ttl entry)%Z ->
  getResult hashQuery now query c = (Some (data entry), c).
Proof.
  intros Hin Hlive. unfold getResult. rewrite Hin.
  destruct (Z.ltb_spec (ttl entry) (now - timestamp entry)); [lia | reflexivity].
Qed.

Lemma getResult_absent c now query :
  c !! hashQuery query = None ->
  getResult hashQuery now query c = (None, c).
Proof. intros Hout. unfold getResult. now rewrite Hout. Qed.

Lemma getEmbedding_expired e now text entry :
  e !! hashQuery text = Some entry ->
  (EMBEDDING_TTL < now - embedded_at entry)%Z ->
  getEmbedding hashQuery now text e = (None, delete (hashQuery text) e).
Proof.
  intros Hin Hold. unfold getEmbedding. rewrite Hin.
  destruct (Z.ltb_spec EMBEDDING_TTL (now - embedded_at entry)); [reflexivity | lia].
Qed.

Lemma getEmbedding_live e now text entry :
  e !! hashQuery text = Some entry ->
  (now - embedded_at entry <= EMBEDDING_TTL)%Z ->
  getEmbedding hashQuery now text e = (Some (vector entry), e).
Proof.
  intros Hin Hlive. unfold getEmbedding. rewrite Hin.
  destruct (Z.ltb_spec EMBEDDING_TTL (now - embedded_at entry)); [lia | reflexivity].
Qed.

(** An embedding stored at time [t] and asked for again later than
    [t + EMBEDDING_TTL] is computed anew: the model is invoked once more. *)
Lemma embedText_recomputes (extractor : jsstring -> V) e v t now now' text calls :
  (EMBEDDING_TTL < now - t)%Z ->
  embedText hashQuery extractor now now' text
    (calls, cacheEmbedding hashQuery t text v e)
  = (extractor text,
     (S calls,
      cacheEmbedding hashQuery now' text (extractor text)
        (delete (hashQuery text) (cacheEmbedding hashQuery t text v e)))).
Proof.
  intros Hold. unfold embedText.
  rewrite (getEmbedding_expired _ now text {| vector := v; embedded_at := t |}).
  - reflexivity.
  - unfold cacheEmbedding. apply lookup_insert_eq.
  - exact Hold.
Qed.

Lemma embedText_reuses (extractor : jsstring -> V) e v t now now' text calls :
  (now - t <= EMBEDDING_TTL)%Z ->
  embedText hashQuery extractor now now' text
    (calls, cacheEmbedding hashQuery t text v e)
  = (v, (calls, cacheEmbedding hashQuery t text v e)).
Proof.
  intros Hlive. unfold embedText.
  rewrite (getEmbedding_live _ now text {| vector := v; embedded_at := t |}).
  - reflexivity.
  - unfold cacheEmbedding. apply lookup_insert_eq.
  - exact Hlive.
Qed.

End Expiry.

(** C9.  In both namespaces of the cache a read of an entry whose age
    exceeds its ttl is a miss and removes the entry, and a read within the
    ttl returns the stored value of that key text, leaving the cache as it
    is.  In particular an embedding stored at time [t] and read later than
    [t] plus one hour is a miss, so that [embedText] invokes the model
    again, whereas a read within the hour does not. *)
Theorem C9_expired_entries_miss_and_are_removed :
  forall (hashQuery : jsstring -> jsstring) (A V : Type),
    (forall (c : gmap jsstring (CachedResult A)) now query entry,
        c !! hashQuery query = Some entry ->
        ((ttl entry < now - timestamp entry)%Z ->
           fst (getResult hashQuery now query c) = None
           /\ snd (getResult hashQuery now query c) !! hashQuery query = None)
        /\ ((now - timestamp entry <= ttl entry)%Z ->
           getResult hashQuery now query c = (Some (data entry), c)))
    /\ (forall (c : gmap jsstring (CachedResult A)) t life now query d,
        ((life < now - t)%Z ->
           fst (getResult hashQuery now query (cacheResult hashQuery t query d life c))
           = None)
        /\ ((now - t <= life)%Z ->
           fst (getResult hashQuery now query (cacheResult hashQuery t query d life c))
           = Some d))
    /\ (forall (e : gmap jsstring (CachedEmbedding V)) now text entry,
        e !! hashQuery text = Some entry ->
        ((EMBEDDING_TTL < now - embedded_at entry)%Z ->
           fst (getEmbedding hashQuery now text e) = None
           /\ snd (getEmbedding hashQuery now text e) !! hashQuery text = None)
        /\ ((now - embedded_at entry <= EMBEDDING_TTL)%Z ->
           getEmbedding hashQuery now text e = (Some (vector entry), e)))
    /\ (forall (extractor : jsstring -> V) (e : gmap jsstring (CachedEmbedding V))
               v t now now' text calls,
        ((EMBEDDING_TTL < now - t)%Z ->
           let r := embedText hashQuery extractor now now' text
                      (calls, cacheEmbedding hashQuery t text v e) in
           fst r = extractor text /\ fst (snd r) = S calls)
        /\ ((now - t <= EMBEDDING_TTL)%Z ->
           let r := embedText hashQuery extractor now now' text
                      (calls, cacheEmbedding hashQuery t text v e) in
           fst r = v /\ fst (snd r) = calls)).
Proof.
  intros hashQuery A V. repeat split.
  - rewrite (getResult_expired hashQuery c now query entry); auto.
  - rewrite (getResult_expired hashQuery c now query entry); auto.
    apply lookup_delete_eq.
  - intros. now apply getResult_live.
  - intros Hold.
    rewrite (getResult_expired hashQuery _ now query
               {| data := d; timestamp := t; ttl := life |}); auto.
    unfold cacheResult. apply lookup_insert_eq.
  - intros Hlive.
    rewrite (getResult_live hashQuery _ now query
               {| data := d; timestamp := t; ttl := life |}); auto.
    unfold cacheResult. apply lookup_insert_eq.
  - rewrite (getEmbedding_expired hashQuery e now text entry); auto.
  - rewrite (getEmbedding_expired hashQuery e now text entry); auto.
    apply lookup_delete_eq.
  - intros. now apply getEmbedding_live.
  - rewrite embedText_recomputes; auto.
  - rewrite embedText_recomputes; auto.
  - rewrite embedText_reuses; auto.
  - rewrite embedText_reuses; auto.
Qed.

(** The embedding of a text stored at time 0 is computed again one
    millisecond after the hour. *)
Lemma C9_recomputed_after_one_hour :
  let r := embedText (fun text => text) (fun _ => 2%nat) 3600001 3600002 (str "total balance")
             (1, cacheEmbedding (fun text => text) 0 (str "total balance") 1%nat ∅) in
  fst r = 2 /\ fst (snd r) = 2.
Proof.
  apply (proj1 (proj2 (proj2 (proj2
           (C9_expired_entries_miss_and_are_removed (fun text => text) nat nat)))
           (fun _ => 2%nat) ∅ 1%nat 0%Z 3600001%Z 3600002%Z (str "total balance") 1)).
  reflexivity.
Defined.

End CacheProperties.

(** ** Rendering and [buildContext] *)

Module ContextProperties.
Import JS Schema Cache Retriever Notions Scenarios.

Lemma starts_with_app (p s : jsstring) : starts_with p (p ++ s) = true.
Proof.
  induction p as [|a p IH]; simpl; [reflexivity|].
  now rewrite N.eqb_refl, IH.
Qed.

Lemma buildContextText_header schema ms cols rels :
  exists rest, buildContextText schema ms cols rels = header ++ rest.
Proof.
  unfold buildContextText.
  destruct (0 <? length ms), (0 <? length (unique (map rc_table cols))),
    (0 <? length rels);
    rewrite <- ?List.app_assoc; eexists; reflexivity.
Qed.

Lemma buildContextText_empty schema : buildContextText schema [] [] [] = header.
Proof. reflexivity. Qed.

Lemma header_length : length header = 26.
Proof. reflexivity. Qed.

Lemma estimateTokens_header rest : 7 <= estimateTokens (header ++ rest).
Proof.
  unfold estimateTokens. rewrite length_app, header_length.
  apply Nat.div_le_lower_bound; lia.
Qed.


Lemma assemble_rendered env query maxTokens ctx :
  assemble env query maxTokens = Done ctx -> rendered ctx.
Proof.
  unfold assemble.
  destruct (match schema_field env with Some s => Done s | None => initialize env end)
    as [schema| |]; try discriminate.
  destruct (expandRelationships _ _) as [rels| |]; try discriminate.
  intros [= <-]. split; [exists schema|]; reflexivity.
Qed.

Lemma assemble_budget env query b b' : assemble env query b = assemble env query b'.
Proof. reflexivity. Qed.

Lemma rendered_header ctx :
  rendered ctx ->
  starts_with header (context_text ctx) = true
  /\ context_text ctx <> []
  /\ 1 <= token_estimate ctx
  /\ (models ctx = [] -> columns ctx = [] -> relationships ctx = [] ->
      context_text ctx = header).
Proof.
  intros [[schema Htext] Htok].
  destruct (buildContextText_header (Some schema) (models ctx) (columns ctx)
              (relationships ctx)) as [rest Hrest].
  rewrite Hrest in Htext. repeat split.
  - rewrite Htext. apply starts_with_app.
  - rewrite Htext. discriminate.
  - rewrite Htok, Htext. pose proof (estimateTokens_header rest). lia.
  - intros Hm Hc Hr. rewrite Htext, <- Hrest, Hm, Hc, Hr. reflexivity.
Qed.

Section Reachable.
Context (hashQuery : jsstring -> jsstring).

Lemma getResult_keeps now query c :
  all_rendered c -> all_rendered (snd (getResult hashQuery now query c)).
Proof.
  intros Hc. unfold getResult.
  destruct (c !! hashQuery query) as [cached|]; [|exact Hc].
  destruct (_ <? _)%Z; [|exact Hc].
  intros k entry Hk. simpl in Hk.
  apply lookup_delete_Some in Hk as [_ Hk]. eauto.
Qed.

Lemma getResult_hit now query c ctx :
  all_rendered c -> fst (getResult hashQuery now query c) = Some ctx -> rendered ctx.
Proof.
  intros Hc. unfold getResult.
  destruct (c !! hashQuery query) as [cached|] eqn:E; [|discriminate].
  destruct (_ <? _)%Z; [discriminate|].
  intros [= <-]. eauto.
Qed.

Lemma buildContext_keeps env now now' query maxTokens c :
  all_rendered c ->
  all_rendered (snd (buildContext hashQuery env now now' query maxTokens c)).
Proof.
  intros Hc. unfold buildContext.
  pose proof (getResult_keeps now query c Hc) as Hc'.
  destruct (getResult hashQuery now query c) as [[cached|] c']; simpl in *;
    [exact Hc'|].
  destruct (assemble env query maxTokens) as [ctx| |] eqn:E; simpl; try exact Hc'.
  intros k entry Hk. unfold cacheResult in Hk.
  apply lookup_insert_Some in Hk as [[_ <-]|[_ Hk]].
  - simpl. eapply assemble_rendered; eauto.
  - eauto.
Qed.

Lemma reachable_rendered c : reachable hashQuery c -> all_rendered c.
Proof.
  induction 1 as [|env now now' query maxTokens c _ IH|now query c _ IH|now c _ IH].
  - intros k entry Hk. now rewrite lookup_empty in Hk.
  - now apply buildContext_keeps.
  - now apply getResult_keeps.
  - intros k entry Hk. unfold clearExpiredResults in Hk.
    apply map_lookup_filter_Some in Hk as [Hk _]. eauto.
Qed.

Lemma buildContext_rendered env now now' query maxTokens c ctx :
  all_rendered c ->
  fst (buildContext hashQuery env now now' query maxTokens c) = Done ctx ->
  rendered ctx.
Proof.
  intros Hc. unfold buildContext.
  pose proof (getResult_hit now query c) as Hhit.
  destruct (getResult hashQuery now query c) as [[cached|] c']; simpl in *.
  - intros [= <-]. now apply Hhit.
  - destruct (assemble env query maxTokens) as [ctx'| |] eqn:E; simpl; try discriminate.
    intros [= <-]. eapply assemble_rendered; eauto.
Qed.

Lemma buildContext_miss env now now' query maxTokens c :
  fst (getResult hashQuery now query c) = None ->
  buildContext hashQuery env now now' query maxTokens c
  = match assemble env query maxTokens with
    | Done context =>
        (Done context,
         cacheResult hashQuery now' query context DEFAULT_TTL
           (snd (getResult hashQuery now query c)))
    | Thrown m => (Thrown m, snd (getResult hashQuery now query c))
    | NoFuel => (NoFuel, snd (getResult hashQuery now query c))
    end.
Proof.
  unfold buildContext.
  destruct (getResult hashQuery now query c) as [[cached|] c']; simpl;
    [discriminate | reflexivity].
Qed.

Lemma buildContext_empty_cache env now now' query maxTokens :
  buildContext hashQuery env now now' query maxTokens ∅
  = match assemble env query maxTokens with
    | Done context =>
        (Done context, cacheResult hashQuery now' query context DEFAULT_TTL ∅)
    | Thrown m => (Thrown m, ∅)
    | NoFuel => (NoFuel, ∅)
    end.
Proof.
  rewrite buildContext_miss; unfold getResult; rewrite lookup_empty; reflexivity.
Qed.

End Reachable.

Lemma occurs_refl item : occurs item item.
Proof. exists [], []. now rewrite List.app_nil_r. Qed.

Lemma occurs_app_l item a b : occurs item a -> occurs item (a ++ b).
Proof.
  intros (x & y & ->). exists x, (y ++ b). now rewrite <- !List.app_assoc.
Qed.

Lemma occurs_app_r item a b : occurs item b -> occurs item (a ++ b).
Proof.
  intros (x & y & ->). exists (a ++ x), y. now rewrite <- !List.app_assoc.
Qed.

Lemma occurs_concat {A} (f : A -> jsstring) xs x :
  x ∈ xs -> occurs (f x) (concat (map f xs)).
Proof.
  induction xs as [|y xs IH]; intros Hin; [inversion Hin|].
  cbn [map concat]. apply elem_of_cons in Hin as [->|Hin].
  - apply occurs_app_l, occurs_refl.
  - apply occurs_app_r, IH, Hin.
Qed.

Lemma nonempty_test {A} (xs : list A) x : x ∈ xs -> (0 <? length xs) = true.
Proof. destruct xs; [intros H; inversion H|reflexivity]. Qed.

Lemma unique_mem xs x : x ∈ xs -> x ∈ unique xs.
Proof.
  induction xs as [|y xs IH]; intros Hin; [inversion Hin|]. cbn [unique].
  destruct (bool_decide_reflect (y = x)) as [->|Hne]; [left|]. right.
  apply elem_of_cons in Hin as [->|Hin]; [congruence|].
  apply list_elem_of_In, List.filter_In. split; [apply list_elem_of_In; auto|].
  unfold jseq. now rewrite bool_decide_eq_false_2.
Qed.

(** The three parts that [buildContextText] appends to the header. *)
Definition patterns_part (ms : list RetrievedModel) : jsstring :=
  if 0 <? length ms
  then str "### Examples of Similar Queries:" ++ nl ++ nl
       ++ concat (map renderModel ms)
  else [].

Definition tables_part (schema : option FullSchema) (cols : list RetrievedColumn)
  : jsstring :=
  if 0 <? length (unique (map rc_table cols))
  then str "### Relevant Schema Tables:" ++ nl ++ nl
       ++ concat (map (renderTable schema cols) (unique (map rc_table cols)))
  else [].

Definition relationships_part (rels : list RetrievedRelationship) : jsstring :=
  if 0 <? length rels
  then str "### Table Relationships:" ++ nl ++ nl
       ++ concat (map renderRelationship rels) ++ nl
  else [].

Lemma buildContextText_parts schema ms cols rels :
  buildContextText schema ms cols rels
  = header ++ patterns_part ms ++ tables_part schema cols ++ relationships_part rels.
Proof.
  unfold buildContextText, patterns_part, tables_part, relationships_part.
  generalize (str "### Examples of Similar Queries:" ++ nl ++ nl
              ++ concat (map renderModel ms)) as patterns.
  generalize (str "### Relevant Schema Tables:" ++ nl ++ nl
              ++ concat (map (renderTable schema cols) (unique (map rc_table cols))))
    as tables.
  generalize (str "### Table Relationships:" ++ nl ++ nl
              ++ concat (map renderRelationship rels) ++ nl) as edges.
  generalize header as top. intros top edges tables patterns. cbv zeta.
  destruct (0 <? length ms), (0 <? length (unique (map rc_table cols))),
    (0 <? length rels);
    rewrite ?List.app_nil_r, <- ?List.app_assoc; reflexivity.
Qed.

(** Every pattern, every column whose table the registry answers for, and
    every relationship handed to [buildContextText] is rendered whole. *)
Lemma buildContextText_pattern schema ms cols rels m :
  m ∈ ms -> occurs (renderModel m) (buildContextText schema ms cols rels).
Proof.
  intros Hin. rewrite buildContextText_parts. unfold patterns_part.
  rewrite (nonempty_test _ _ Hin).
  apply occurs_app_r, occurs_app_l.
  do 3 apply occurs_app_r. now apply occurs_concat.
Qed.

Lemma renderTable_column schema cols col :
  col ∈ cols ->
  defined (get schema (rc_table col)) = true ->
  occurs (renderColumn col) (renderTable (Some schema) cols (rc_table col)).
Proof.
  intros Hin Hdef. unfold renderTable. rewrite Hdef. cbn [negb].
  do 7 apply occurs_app_r. apply occurs_app_l.
  apply (occurs_concat renderColumn).
  apply list_elem_of_In, List.filter_In. split; [now apply list_elem_of_In|].
  unfold jseq. now rewrite bool_decide_eq_true_2.
Qed.

Lemma buildContextText_column schema ms cols rels col :
  col ∈ cols ->
  defined (get schema (rc_table col)) = true ->
  occurs (renderColumn col) (buildContextText (Some schema) ms cols rels).
Proof.
  intros Hin Hdef. rewrite buildContextText_parts. unfold tables_part.
  assert (Ht : rc_table col ∈ unique (map rc_table cols)).
  { apply unique_mem, list_elem_of_In, List.in_map, list_elem_of_In, Hin. }
  rewrite (nonempty_test _ _ Ht).
  do 2 apply occurs_app_r. apply occurs_app_l. do 3 apply occurs_app_r.
  destruct (occurs_concat (renderTable (Some schema) cols) _ _ Ht) as (a & b & ->).
  apply occurs_app_r, occurs_app_l. now apply renderTable_column.
Qed.

Lemma buildContextText_relationship schema ms cols rels rel :
  rel ∈ rels ->
  occurs (renderRelationship rel) (buildContextText schema ms cols rels).
Proof.
  intros Hin. rewrite buildContextText_parts. unfold relationships_part.
  rewrite (nonempty_test _ _ Hin).
  do 6 apply occurs_app_r. apply occurs_app_l. now apply occurs_concat.
Qed.

End ContextProperties.

(** ** [buildContext]: header, budget, intent filter, empty query *)

Module ContextClaims.
Import JS Schema Cache Retriever Notions Scenarios ContextProperties.

(** C10.  Whatever the query, the context that [buildContext] returns,
    fresh or from a cache filled by earlier calls, has a text that begins
    with the header "## Relevant SQL Patterns": the text is not empty, the
    token estimate is at least 1, and when the three lists are empty the
    text is the header alone.  The cache after the call is again one that
    arises from calls of [buildContext]. *)
Theorem C10_context_text_begins_with_header :
  forall hashQuery c,
    reachable hashQuery c ->
    forall env now now' query maxTokens ctx,
      fst (buildContext hashQuery env now now' query maxTokens c) = Done ctx ->
      starts_with header (context_text ctx) = true
      /\ context_text ctx <> []
      /\ 1 <= token_estimate ctx
      /\ (models ctx = [] -> columns ctx = [] -> relationships ctx = [] ->
          context_text ctx = header)
      /\ reachable hashQuery (snd (buildContext hashQuery env now now' query maxTokens c)).
Proof.
  intros hashQuery c Hc env now now' query maxTokens ctx Hctx.
  pose proof (buildContext_rendered hashQuery env now now' query maxTokens c ctx
                (reachable_rendered hashQuery c Hc) Hctx) as Hr.
  destruct (rendered_header ctx Hr) as (H1 & H2 & H3 & H4).
  repeat split; auto. now constructor.
Qed.

Lemma C10_degraded_context_has_header :
  starts_with header (context_text degraded) = true
  /\ context_text degraded <> []
  /\ 1 <= token_estimate degraded
  /\ (models degraded = [] -> columns degraded = [] -> relationships degraded = [] ->
      context_text degraded = header)
  /\ reachable (fun text => text)
       (snd (buildContext (fun text => text) empty_env 0 0 (str "anything") 600 ∅)).
Proof.
  apply (C10_context_text_begins_with_header (fun text => text) ∅
           (reachable_empty _) empty_env 0%Z 0%Z (str "anything") 600 degraded).
  rewrite buildContext_empty_cache. reflexivity.
Defined.

(** A query whose retrieval is empty is answered, with the header as its
    whole text. *)
Lemma degraded_context_is_returned hashQuery env schema now now' query maxTokens c :
  schema_field env = Some schema ->
  retrieveSemanticModels env query 5 = [] ->
  retrieveSchemaMetadata env query 10 = [] ->
  fst (getResult hashQuery now query c) = None ->
  fst (buildContext hashQuery env now now' query maxTokens c) = Done degraded.
Proof.
  intros Hs Hm Hc Hmiss. rewrite buildContext_miss by exact Hmiss.
  unfold assemble. rewrite Hs, Hm, Hc.
  unfold filterModelsByIntent.
  destruct (length (intentOperations (detectQueryIntent query)) =? 0); reflexivity.
Qed.


(** What a cache miss returns, field by field. *)
Lemma assembled_on_a_miss hashQuery env now now' query c b ctx :
  fst (getResult hashQuery now query c) = None ->
  fst (buildContext hashQuery env now now' query b c) = Done ctx ->
  exists schema,
    match schema_field env with Some s => Done s | None => initialize env end
    = Done schema
    /\ models ctx
       = filterModelsByIntent (retrieveSemanticModels env query 5)
           (detectQueryIntent query)
    /\ columns ctx = retrieveSchemaMetadata env query 10
    /\ context_text ctx
       = buildContextText (Some schema) (models ctx) (columns ctx) (relationships ctx)
    /\ token_estimate ctx = estimateTokens (context_text ctx).
Proof.
  intros Hmiss. rewrite buildContext_miss by exact Hmiss.
  destruct (assemble env query b) as [ctx'| |] eqn:E; simpl; try discriminate.
  intros [= ->]. unfold assemble in E.
  destruct (match schema_field env with Some s => Done s | None => initialize env end)
    as [schema| |]; try discriminate.
  destruct (expandRelationships _ _) as [rels| |]; try discriminate.
  injection E as <-. exists schema. repeat split.
Qed.

Lemma filterModelsByIntent_sublist ms intent :
  sublist (filterModelsByIntent ms intent) ms.
Proof.
  unfold filterModelsByIntent.
  destruct (length (intentOperations intent) =? 0); [reflexivity|].
  induction ms as [|m ms IH]; simpl; [constructor|].
  destruct (hasRelevantOperation intent m); now constructor.
Qed.

(** C1, as the code has it.  [buildContext] does not look at the token
    budget: the call gives the same result for every budget.  On a cache
    miss nothing is dropped and nothing is cut short.  The patterns of
    the context are retrieved patterns, in the order of the search, and
    for a query and pattern SQL in ASCII they are exactly those that pass
    the intent filter; the columns are all the retrieved columns.  The
    text holds, whole, the entry of every pattern of the context (name,
    description and SQL between its fences), the line of every column of
    the context whose table the registry answers for (name, type, and the
    description and unit it has), and the line of every relationship of
    the context.  The token estimate is the length of that text divided
    by 4, rounded up. *)
Theorem C1_token_budget_is_ignored :
  forall hashQuery env now now' query c,
    (forall b b',
        buildContext hashQuery env now now' query b c
        = buildContext hashQuery env now now' query b' c)
    /\ (forall b ctx,
        fst (getResult hashQuery now query c) = None ->
        fst (buildContext hashQuery env now now' query b c) = Done ctx ->
        (is_ascii query = true ->
         (forall m, m ∈ retrieveSemanticModels env query 5 -> is_ascii (sql m) = true) ->
         models ctx
         = filterModelsByIntent (retrieveSemanticModels env query 5)
             (detectQueryIntent query))
        /\ sublist (models ctx) (retrieveSemanticModels env query 5)
        /\ columns ctx = retrieveSchemaMetadata env query 10
        /\ (forall m,
              m ∈ models ctx ->
              occurs (str "**" ++ name m ++ str "** - " ++ model_description m
                      ++ [10%N] ++ str "```sql" ++ [10%N] ++ sql m ++ [10%N]
                      ++ str "```" ++ [10%N; 10%N])
                (context_text ctx))
        /\ (forall schema col,
              match schema_field env with Some s => Done s | None => initialize env end
              = Done schema ->
              col ∈ columns ctx ->
              defined (get schema (rc_table col)) = true ->
              occurs (str "  - " ++ [96%N] ++ column col ++ [96%N] ++ str " ("
                      ++ rc_type col ++ str ")"
                      ++ (if truthy_opt (rc_description col)
                          then str " - " ++ default [] (rc_description col) else [])
                      ++ (if truthy_opt (rc_unit col)
                          then str " [" ++ default [] (rc_unit col) ++ str "]" else [])
                      ++ [10%N])
                (context_text ctx))
        /\ (forall rel,
              rel ∈ relationships ctx ->
              occurs (str "- " ++ [96%N] ++ from_table rel ++ [96%N] ++ str " "
                      ++ [8594%N] ++ str " " ++ [96%N] ++ to_table rel ++ [96%N]
                      ++ str " on " ++ join_condition rel ++ [10%N])
                (context_text ctx))
        /\ token_estimate ctx = (length (context_text ctx) + 3) / 4).
Proof.
  intros hashQuery env now now' query c. split; [reflexivity|].
  intros b ctx Hmiss Hctx.
  destruct (assembled_on_a_miss hashQuery env now now' query c b ctx Hmiss Hctx)
    as (schema & Hs & Hm & Hc & Ht & Hk).
  split; [intros _ _; exact Hm|]. split; [rewrite Hm; apply filterModelsByIntent_sublist|].
  split; [exact Hc|]. split; [|split; [|split]].
  - intros m Hin. rewrite Ht.
    exact (buildContextText_pattern (Some schema) _ _ _ m Hin).
  - intros schema' col Hs' Hin Hdef. rewrite Hs in Hs'. injection Hs' as <-.
    rewrite Ht. exact (buildContextText_column schema _ _ _ col Hin Hdef).
  - intros rel Hin. rewrite Ht.
    exact (buildContextText_relationship (Some schema) _ _ _ rel Hin).
  - exact Hk.
Qed.

(** C1 fails as stated: with the default budget of 600 tokens, which both
    the header alone and the core-schema fallback text fit, a search that
    returns five patterns and ten columns of the catalog yields a context
    estimated at 752 tokens, with nothing dropped. *)
Lemma C1_budget_of_600_is_exceeded :
  estimateTokens (buildContextText (Some finance_schema) [] [] []) <= 600
  /\ estimateTokens (getCoreSchemaDescription finance_schema) <= 600
  /\ exists ctx,
      (forall hashQuery,
          fst (buildContext hashQuery portfolio_env 0 0 portfolio_query 600 ∅)
          = Done ctx)
      /\ token_estimate ctx = 752
      /\ length (models ctx) = 5
      /\ length (columns ctx) = 10.
Proof.
  split; [vm_compute; lia|]. split; [vm_compute; lia|].
  destruct (assemble portfolio_env portfolio_query 600) as [ctx| |] eqn:E;
    [|vm_compute in E; discriminate..].
  exists ctx. split.
  - intros hashQuery. rewrite buildContext_empty_cache, E. reflexivity.
  - vm_compute in E. injection E as <-. repeat split.
Qed.




(** C6, as the code has it.  The empty query is treated like any other
    text.  The cache is consulted first: a live entry stored under the
    empty text is returned as it is.  On a miss the intent is UNKNOWN,
    both retrievals run on the empty text, and, unless loading the
    registry or the expansion throws, a context is returned and stored in
    the cache under the empty text. *)
Theorem C6_empty_query_is_answered :
  forall hashQuery env now now' maxTokens c,
    detectQueryIntent [] = UNKNOWN
    /\ (forall entry,
        c !! hashQuery [] = Some entry ->
        (now - timestamp entry <= ttl entry)%Z ->
        buildContext hashQuery env now now' [] maxTokens c = (Done (data entry), c))
    /\ (fst (getResult hashQuery now [] c) = None ->
        forall schema rels,
          match schema_field env with
          | Some s => Done s
          | None => initialize env
          end = Done schema ->
          expandRelationships (Some schema)
            (unique (map rc_table (retrieveSchemaMetadata env [] 10))) = Done rels ->
          exists ctx,
            fst (buildContext hashQuery env now now' [] maxTokens c) = Done ctx
            /\ models ctx = retrieveSemanticModels env [] 5
            /\ columns ctx = retrieveSchemaMetadata env [] 10
            /\ relationships ctx = rels
            /\ snd (buildContext hashQuery env now now' [] maxTokens c) !! hashQuery []
               = Some {| data := ctx; timestamp := now'; ttl := DEFAULT_TTL |}).
Proof.
  intros hashQuery env now now' maxTokens c. split; [reflexivity|]. split.
  - intros entry Hin Hlive. unfold buildContext.
    now rewrite (CacheProperties.getResult_live hashQuery c now [] entry Hin Hlive).
  - intros Hmiss schema rels Hs Hr. rewrite buildContext_miss by exact Hmiss.
    unfold assemble. rewrite Hs, Hr. eexists. simpl.
    split; [reflexivity|]. split; [reflexivity|]. split; [reflexivity|].
    split; [reflexivity|]. unfold cacheResult. apply lookup_insert_eq.
Qed.

(** C6 fails as stated: on an empty cache the empty query is not rejected;
    the call returns the header-only context. *)
Lemma C6_empty_query_is_not_rejected :
  exists ctx,
    (forall hashQuery,
        fst (buildContext hashQuery empty_env 0 0 [] 600 ∅) = Done ctx)
    /\ context_text ctx = header.
Proof.
  exists degraded. split; [|reflexivity].
  intros hashQuery. rewrite buildContext_empty_cache. reflexivity.
Qed.

End ContextClaims.

(** ** Relationship expansion *)

Module ExpansionProperties.
Import JS Schema Retriever Notions Scenarios.

Section Bound.
Context (schema : FullSchema) (seeds : list jsstring).

(** What holds of every edge that the traversal pushes. *)
Definition near (r : RetrievedRelationship) : Prop :=
  (exists d, d <= 2 /\ within schema seeds d (from_table r))
  /\ registry_edge schema r.

Lemma for_relationships_near visit tableName deeper rels st st' :
  (forall rel, rel ∈ rels -> near (edge tableName rel)) ->
  (forall rel s s',
      deeper = true -> rel ∈ rels -> Forall near (pushed s) ->
      visit (table rel) s = Done s' -> Forall near (pushed s')) ->
  Forall near (pushed st) ->
  for_relationships visit tableName deeper rels st = Done st' ->
  Forall near (pushed st').
Proof.
  revert st. induction rels as [|rel rels IH]; intros st Hedge Hvisit Hst; simpl.
  - now intros [= <-].
  - assert (Hst1 : Forall near (pushed st ++ [edge tableName rel])).
    { apply Forall_app. split; [exact Hst|]. constructor; [|constructor].
      apply Hedge. left. }
    assert (Hedge' : forall rel', rel' ∈ rels -> near (edge tableName rel')).
    { intros rel' Hin. apply Hedge. now right. }
    assert (Hvisit' : forall rel' s s',
               deeper = true -> rel' ∈ rels -> Forall near (pushed s) ->
               visit (table rel') s = Done s' -> Forall near (pushed s')).
    { intros rel' s s' Hd Hin. apply Hvisit; [exact Hd | now right]. }
    destruct deeper eqn:Hdeep.
    + destruct (visit (table rel) _) as [st1| |] eqn:Hv; try discriminate.
      intros Hrest. eapply IH; [exact Hedge' | exact Hvisit' | | exact Hrest].
      eapply (Hvisit rel); [reflexivity | left | | exact Hv]. exact Hst1.
    + intros Hrest. eapply IH; [exact Hedge' | exact Hvisit' | | exact Hrest].
      exact Hst1.
Qed.

Lemma traverse_near fuel : forall t d st st',
  (d <= 2 -> within schema seeds d t) ->
  Forall near (pushed st) ->
  traverse schema fuel t d st = Done st' ->
  Forall near (pushed st').
Proof.
  induction fuel as [|fuel IH]; intros t d st st' Hw Hst; simpl; [discriminate|].
  destruct (2 <? d) eqn:Hd; simpl; [now intros [= <-]|].
  destruct (bool_decide (t ∈ visited st)); simpl; [now intros [= <-]|].
  apply Nat.ltb_ge in Hd. specialize (Hw Hd).
  destruct (get schema t) as [tableSchema| |] eqn:Hg;
    [|discriminate|now intros [= <-]].
  apply for_relationships_near; [| |exact Hst].
  - intros rel Hin. split.
    + exists d. split; [exact Hd | exact Hw].
    + exists tableSchema, rel. simpl. auto.
  - intros rel s s' Hdeep Hin Hs Hv. apply Nat.ltb_lt in Hdeep.
    apply (IH (table rel) (S d) s s'); [|exact Hs|exact Hv].
    intros _. apply (within_step schema seeds d t); [exact Hw|].
    unfold neighbours. rewrite Hg. now apply list_elem_of_fmap_2.
Qed.

Lemma traverse_all_cons t rest st :
  traverse_all schema (t :: rest) st
  = match traverse schema 3 t 0 st with
    | Done st => traverse_all schema rest st
    | Thrown m => Thrown m
    | NoFuel => NoFuel
    end.
Proof. reflexivity. Qed.

Lemma traverse_all_near tableNames : forall st st',
  (forall t, t ∈ tableNames -> t ∈ seeds) ->
  Forall near (pushed st) ->
  traverse_all schema tableNames st = Done st' ->
  Forall near (pushed st').
Proof.
  induction tableNames as [|t rest IH]; intros st st' Hsub Hst.
  - simpl. now intros [= <-].
  - rewrite traverse_all_cons.
    destruct (traverse schema 3 t 0 st) as [st1| |] eqn:Ht; try discriminate.
    apply IH; [intros u Hu; apply Hsub; now right|].
    apply (traverse_near 3 t 0 st st1); [|exact Hst|exact Ht].
    intros _. constructor. apply Hsub. left.
Qed.

End Bound.

(** The fuel given to [traverse] is never used up. *)
Lemma for_relationships_fuel visit tableName deeper rels : forall st,
  (forall t s, deeper = true -> visit t s <> NoFuel) ->
  for_relationships visit tableName deeper rels st <> NoFuel.
Proof.
  induction rels as [|rel rels IH]; intros st Hvisit; simpl; [discriminate|].
  destruct deeper eqn:Hdeep; [|now apply IH].
  destruct (visit (table rel) _) as [st1| |] eqn:Hv; [now apply IH|discriminate|].
  exfalso. eapply Hvisit; [reflexivity | exact Hv].
Qed.

Lemma traverse_fuel schema fuel : forall t d st,
  d <= 2 -> 3 <= fuel + d -> traverse schema fuel t d st <> NoFuel.
Proof.
  induction fuel as [|fuel IH]; intros t d st Hd Hfuel; [lia|]. simpl.
  destruct ((2 <? d) || bool_decide (t ∈ visited st)); [discriminate|].
  destruct (get schema t); try discriminate.
  apply for_relationships_fuel. intros u s Hdeep. apply Nat.ltb_lt in Hdeep.
  apply IH; lia.
Qed.

Lemma traverse_all_fuel schema tableNames : forall st,
  traverse_all schema tableNames st <> NoFuel.
Proof.
  induction tableNames as [|t rest IH]; intros st; [discriminate|].
  rewrite traverse_all_cons.
  destruct (traverse schema 3 t 0 st) as [st1| |] eqn:Ht;
    [apply IH|discriminate|].
  exfalso. apply (traverse_fuel schema 3 t 0 st); [lia|lia|exact Ht].
Qed.

(** The final [Map]: what it holds was pushed, and no key occurs twice. *)
Lemma map_set_elem {B} k (v : B) m kv :
  kv ∈ map_set k v m -> kv = (k, v) \/ kv ∈ m.
Proof.
  induction m as [|[k' v'] m IH]; simpl.
  - intros Hin. apply list_elem_of_singleton in Hin. now left.
  - unfold jseq. destruct (bool_decide_reflect (k' = k)) as [->|Hne].
    + intros Hin. apply elem_of_cons in Hin as [->|Hin]; [now left|].
      right. now right.
    + intros Hin. apply elem_of_cons in Hin as [->|Hin]; [right; left|].
      destruct (IH Hin) as [->|Hm]; [now left|right; now right].
Qed.

Lemma map_set_keys {B} k (v : B) m :
  NoDup (map fst m) -> NoDup (map fst (map_set k v m)).
Proof.
  induction m as [|[k' v'] m IH]; simpl; intros Hnd.
  - constructor; [intros Hin; inversion Hin | constructor].
  - unfold jseq. destruct (bool_decide_reflect (k' = k)) as [->|Hne]; [exact Hnd|].
    apply NoDup_cons in Hnd as [Hk' Hnd]. simpl. apply NoDup_cons. split; [|auto].
    intros Hin. apply list_elem_of_fmap in Hin as ([k2 v2] & E & Hin). simpl in E.
    subst k2. apply map_set_elem in Hin as [[= E _]|Hin]; [congruence|].
    apply Hk'. apply list_elem_of_fmap. now exists (k', v2).
Qed.

Lemma dedupe_fold rs : forall m,
  NoDup (map fst m) ->
  (forall kv, kv ∈ m -> fst kv = pairKey (snd kv)) ->
  let m' := fold_left (fun m r => map_set (pairKey r) r m) rs m in
  NoDup (map fst m')
  /\ (forall kv, kv ∈ m' -> fst kv = pairKey (snd kv))
  /\ (forall kv, kv ∈ m' -> kv ∈ m \/ snd kv ∈ rs).
Proof.
  induction rs as [|r rs IH]; intros m Hnd Hkey; simpl.
  - repeat split; auto.
  - destruct (IH (map_set (pairKey r) r m)) as (H1 & H2 & H3).
    + now apply map_set_keys.
    + intros kv Hin. apply map_set_elem in Hin as [->|Hin]; [reflexivity|auto].
    + repeat split; auto.
      intros kv Hin. destruct (H3 kv Hin) as [Hm|Hrs].
      * apply map_set_elem in Hm as [->|Hm]; [right; left|now left].
      * right. now right.
Qed.

Lemma dedupe_subset rs r : r ∈ dedupe rs -> r ∈ rs.
Proof.
  unfold dedupe. intros Hin.
  apply list_elem_of_fmap in Hin as (kv & -> & Hin).
  destruct (dedupe_fold rs []) as (_ & _ & H3); [constructor| |].
  - intros kv' Hin'. inversion Hin'.
  - destruct (H3 kv Hin) as [Hnil|Hrs]; [inversion Hnil|exact Hrs].
Qed.

(** The edges returned have pairwise different keys, hence pairwise
    different (from, to) pairs. *)
Lemma dedupe_keys rs : NoDup (map pairKey (dedupe rs)).
Proof.
  unfold dedupe.
  destruct (dedupe_fold rs []) as (H1 & H2 & _); [constructor| |].
  - intros kv' Hin'. inversion Hin'.
  - simpl in H1, H2.
    set (m := fold_left _ rs []) in *. clearbody m.
    replace (map pairKey (map snd m)) with (map fst m); [exact H1|].
    rewrite List.map_map. apply List.map_ext_in. intros kv Hin.
    apply H2. now apply list_elem_of_In.
Qed.

(** C7.  Whatever the registry and the seed tables, every edge that the
    expansion returns starts at a table that a chain of at most 2
    relationships reaches from a seed, and is a relationship of that
    table; a table that no such chain reaches contributes no edge.  The
    expansion always comes to an end. *)
Theorem C7_edges_start_within_depth_2 :
  forall (schema : FullSchema) (seeds : list jsstring) rels,
    expandRelationships (Some schema) seeds = Done rels ->
    (forall r, r ∈ rels ->
       (exists d, d <= 2 /\ within schema seeds d (from_table r))
       /\ registry_edge schema r)
    /\ (forall t,
        (forall d, d <= 2 -> ~ within schema seeds d t) ->
        forall r, r ∈ rels -> from_table r <> t)
    /\ (forall tableNames, expandRelationships (Some schema) tableNames <> NoFuel)
    /\ expandRelationships None seeds = Done [].
Proof.
  intros schema seeds rels Hrun.
  assert (Hnear : forall r, r ∈ rels -> near schema seeds r).
  { unfold expandRelationships in Hrun.
    destruct (traverse_all schema seeds _) as [st| |] eqn:Ht; try discriminate.
    injection Hrun as <-. intros r Hin. apply dedupe_subset in Hin.
    pose proof (traverse_all_near schema seeds seeds (Expansion [] ∅) st
                  (fun t H => H) (Forall_nil_2 _) Ht) as Hall.
    rewrite Forall_forall in Hall. now apply Hall. }
  split; [exact Hnear|]. split; [|split].
  - intros t Hfar r Hin Heq. destruct (Hnear r Hin) as [(d & Hd & Hw) _].
    rewrite Heq in Hw. exact (Hfar d Hd Hw).
  - intros tableNames. unfold expandRelationships.
    pose proof (traverse_all_fuel schema tableNames (Expansion [] ∅)) as Hf.
    destruct (traverse_all schema tableNames _); congruence.
  - reflexivity.
Qed.

(** On a chain t0 -> t1 -> ... -> t5 the expansion from t0 returns the
    edges that start at t0, t1 and t2 only. *)
Lemma C7_chain_stops_at_depth_2 :
  expandRelationships (Some chain_schema) [str "t0"]
  = Done [ edge (str "t0") (relationship "t1" "id:id");
           edge (str "t1") (relationship "t2" "id:id");
           edge (str "t2") (relationship "t3" "id:id") ]
  /\ forall r,
      r ∈ [ edge (str "t0") (relationship "t1" "id:id");
            edge (str "t1") (relationship "t2" "id:id");
            edge (str "t2") (relationship "t3" "id:id") ] ->
      (exists d, d <= 2 /\ within chain_schema [str "t0"] d (from_table r))
      /\ registry_edge chain_schema r.
Proof.
  split; [vm_compute; reflexivity|].
  apply (proj1 (C7_edges_start_within_depth_2 chain_schema [str "t0"] _
                  ltac:(vm_compute; reflexivity))).
Defined.

(** The expansion returns a list whenever no seed and no relationship
    target is the name of a member of [Object.prototype] (for such a name
    the loop over [relationships] throws). *)
Lemma for_relationships_returns visit tableName deeper rels : forall st,
  (forall rel s, rel ∈ rels -> exists s', visit (table rel) s = Done s') ->
  exists st', for_relationships visit tableName deeper rels st = Done st'.
Proof.
  induction rels as [|rel rels IH]; intros st Hvisit; simpl; [eauto|].
  assert (Hrest : forall rel' s, rel' ∈ rels -> exists s', visit (table rel') s = Done s').
  { intros rel' s Hin. apply Hvisit. now right. }
  destruct deeper; [|now apply IH].
  destruct (Hvisit rel (Expansion (pushed st ++ [edge tableName rel]) (visited st)))
    as [s' ->]; [left|]. now apply IH.
Qed.

Lemma traverse_returns schema fuel : forall t d st,
  d <= 2 -> 3 <= fuel + d ->
  get schema t <> Inherited ->
  (forall u tableSchema rel,
      get schema u = Own tableSchema -> rel ∈ Schema.relationships tableSchema ->
      get schema (table rel) <> Inherited) ->
  exists st', traverse schema fuel t d st = Done st'.
Proof.
  induction fuel as [|fuel IH]; intros t d st Hd Hfuel Ht Hrel; [lia|]. simpl.
  destruct ((2 <? d) || bool_decide (t ∈ visited st)); [eauto|].
  destruct (get schema t) as [tableSchema| |] eqn:Hg; [|congruence|eauto].
  destruct (d <? 2) eqn:Hdeep.
  - apply Nat.ltb_lt in Hdeep.
    apply for_relationships_returns. intros rel s Hin.
    apply IH; [lia|lia| |exact Hrel]. now apply (Hrel t tableSchema).
  - clear IH. generalize (Expansion (pushed st) ({[t]} ∪ visited st)).
    induction (Schema.relationships tableSchema) as [|rel rels IHr]; intros s;
      simpl; eauto.
Qed.

Lemma expandRelationships_returns schema seeds :
  (forall t, t ∈ seeds -> get schema t <> Inherited) ->
  (forall u tableSchema rel,
      get schema u = Own tableSchema -> rel ∈ Schema.relationships tableSchema ->
      get schema (table rel) <> Inherited) ->
  exists rels, expandRelationships (Some schema) seeds = Done rels.
Proof.
  intros Hseeds Hrel. unfold expandRelationships.
  assert (H : forall st, exists st', traverse_all schema seeds st = Done st').
  { induction seeds as [|t rest IH]; intros st; [simpl; eauto|].
    rewrite traverse_all_cons.
    destruct (traverse_returns schema 3 t 0 st) as [st1 ->];
      [lia|lia|apply Hseeds; left|exact Hrel|].
    apply IH. intros u Hu. apply Hseeds. now right. }
  destruct (H (Expansion [] ∅)) as [st' ->]. eauto.
Qed.

(** The key of the final map is the two names written one after the
    other, with nothing between them.  In a registry with the tables "ab"
    (related to "c") and "a" (related to "bc"), which is not the catalog
    of [loadSchemaRegistry], the expansion from both pushes two edges with
    different (from, to) pairs and the same key "abc", and only the edge
    pushed last is returned: what is proved below of the pairs needs the
    names of the registry to keep the keys of different pairs apart. *)
Lemma pairs_with_one_key_are_merged :
  let first := edge (str "ab") (relationship "c" "x:y") in
  let second := edge (str "a") (relationship "bc" "u:v") in
  (from_table first, to_table first) <> (from_table second, to_table second)
  /\ match traverse_all clash_schema [str "ab"; str "a"] (Expansion [] ∅) with
     | Done st => pushed st
     | _ => []
     end = [first; second]
  /\ pairKey first = pairKey second
  /\ expandRelationships (Some clash_schema) [str "ab"; str "a"] = Done [second].
Proof.
  cbv zeta. split; [discriminate|]. repeat split; vm_compute; reflexivity.
Qed.

End ExpansionProperties.

(** ** The safety scan of the validator *)

Module SafetyProperties.
Import JS Regex Schema Validator Notions.

(** The character seen just before a position that follows [w], when
    [pv] is the character before [w]. *)
Definition last_or (pv : option N) (w : jsstring) : option N :=
  match last w with Some c => Some c | None => pv end.

(** A keyword that begins and ends with a word character. *)
Definition bordered (kw : jsstring) : bool :=
  is_word_opt (head kw) && is_word_opt (last kw).

Lemma dangerousKeywords_bordered kw :
  kw ∈ dangerousKeywords -> bordered kw = true.
Proof.
  intros Hin. unfold dangerousKeywords in Hin.
  repeat (apply elem_of_cons in Hin as [->|Hin]; [reflexivity|]).
  inversion Hin.
Qed.

Lemma is_word_upper c : is_word (upper_unit c) = is_word c.
Proof.
  unfold upper_unit. destruct (is_lower c) eqn:El; [|reflexivity].
  unfold is_word. rewrite El.
  assert (Hu : is_upper (c - 32) = true).
  { unfold is_lower, between in El. apply andb_prop in El as [H1 H2].
    apply N.leb_le in H1, H2. unfold is_upper, between.
    apply andb_true_intro. split; apply N.leb_le; lia. }
  rewrite Hu. simpl. now rewrite orb_true_r.
Qed.

Lemma is_word_opt_upper o : is_word_opt (upper_unit <$> o) = is_word_opt o.
Proof. destruct o; simpl; [apply is_word_upper | reflexivity]. Qed.

Lemma last_cons_some (y : N) w : exists c, last (y :: w) = Some c.
Proof.
  revert y. induction w as [|a w IH]; intros y; [now exists y|].
  destruct (IH a) as [c Hc]. exists c. exact Hc.
Qed.

Lemma last_or_cons pv x w : last_or pv (x :: w) = last_or (Some x) w.
Proof.
  unfold last_or. destruct w as [|y w]; [reflexivity|].
  destruct (last_cons_some y w) as [c Hc].
  change (last (x :: y :: w)) with (last (y :: w)). now rewrite Hc.
Qed.

Lemma last_or_none before : last_or None before = last before.
Proof. unfold last_or. now destruct (last before). Qed.

Lemma head_map_unit (f : N -> N) w : head (map f w) = f <$> head w.
Proof. now destruct w. Qed.

Lemma last_map_unit (f : N -> N) w : last (map f w) = f <$> last w.
Proof.
  induction w as [|x w IH]; [reflexivity|].
  destruct w as [|y w]; [reflexivity|]. exact IH.
Qed.

Lemma same_word_borders w kw :
  same_word w kw ->
  length w = length kw
  /\ is_word_opt (head w) = is_word_opt (head kw)
  /\ is_word_opt (last w) = is_word_opt (last kw).
Proof.
  unfold same_word, toUpperCase. intros E. split; [|split].
  - apply (f_equal length) in E. now rewrite !length_map in E.
  - rewrite <- (is_word_opt_upper (head w)), <- (is_word_opt_upper (head kw)).
    now rewrite <- !head_map_unit, E.
  - rewrite <- (is_word_opt_upper (last w)), <- (is_word_opt_upper (last kw)).
    now rewrite <- !last_map_unit, E.
Qed.

Lemma eat_same kw : forall w p pv after cs,
  same_word w kw ->
  eat true kw (MState p pv (w ++ after) cs)
  = Some (MState (p + length kw) (last_or pv w) after cs).
Proof.
  induction kw as [|a kw IH]; intros [|x w] p pv after cs E; try discriminate.
  - simpl. now rewrite Nat.add_0_r.
  - injection E as Eh Et. simpl. unfold unit_eq. rewrite Eh, N.eqb_refl.
    unfold advance. simpl. rewrite (IH w (S p) (Some x) after cs Et).
    now rewrite last_or_cons, Nat.add_succ_r.
Qed.

Lemma eat_inv kw : forall s s',
  eat true kw s = Some s' ->
  exists w, rest s = w ++ rest s' /\ same_word w kw /\ prev s' = last_or (prev s) w.
Proof.
  induction kw as [|a kw IH]; intros s s'; simpl.
  - intros [= <-]. now exists [].
  - destruct (rest s) as [|x t] eqn:Er; [discriminate|].
    unfold unit_eq. destruct (N.eqb_spec (upper_unit a) (upper_unit x)) as [Ea|];
      [|discriminate].
    intros Heat. destruct (IH _ _ Heat) as (w & Hr & Hw & Hp). simpl in Hr, Hp.
    exists (x :: w). split; [now rewrite Hr|]. split.
    + unfold same_word, toUpperCase in *. simpl. now rewrite Ea, Hw.
    + now rewrite last_or_cons.
Qed.

Lemma keyword_match_at kw p pv input :
  match_at (keywordRegex kw) p pv input
  = if word_boundary (MState p pv input [])
    then match eat true kw (MState p pv input []) with
         | Some s' => if word_boundary s' then Some s' else None
         | None => None
         end
    else None.
Proof. reflexivity. Qed.

Lemma search_unfold re p pv input :
  search re p pv input
  = match match_at re p pv input with
    | Some e => Some (Match p e)
    | None =>
        match input with
        | [] => None
        | x :: t => search re (S p) (Some x) t
        end
    end.
Proof. destruct input; reflexivity. Qed.

Lemma keyword_found kw w after before :
  bordered kw = true -> same_word w kw ->
  is_word_opt (head after) = false ->
  forall p pv,
    is_word_opt (last_or pv before) = false ->
    is_Some (search (keywordRegex kw) p pv (before ++ w ++ after)).
Proof.
  intros Hb Hw Ha. apply andb_prop in Hb as [Hh Hl].
  destruct (same_word_borders w kw Hw) as (Hlen & Hwh & Hwl).
  rewrite Hh in Hwh. rewrite Hl in Hwl.
  induction before as [|x before IH]; intros p pv Hpv; rewrite search_unfold.
  - simpl app. rewrite keyword_match_at, (eat_same kw w p pv after [] Hw).
    unfold word_boundary at 1. simpl prev. simpl rest.
    assert (Hhead : head (w ++ after) = head w).
    { destruct w; [discriminate|reflexivity]. }
    unfold last_or in Hpv. simpl in Hpv.
    rewrite Hhead, Hwh, Hpv. simpl.
    unfold word_boundary. simpl. unfold last_or.
    destruct (last w) as [c|]; [|discriminate].
    rewrite Hwl, Ha. simpl. eauto.
  - destruct (match_at _ _ _ _); [eauto|]. simpl app.
    apply IH. now rewrite <- last_or_cons with (pv := pv).
Qed.

Lemma keyword_search_inv kw :
  bordered kw = true ->
  forall input p pv,
    is_Some (search (keywordRegex kw) p pv input) ->
    exists before w after,
      input = before ++ w ++ after
      /\ same_word w kw
      /\ is_word_opt (last_or pv before) = false
      /\ is_word_opt (head after) = false.
Proof.
  intros Hb. apply andb_prop in Hb as [Hh Hl].
  assert (Hstep : forall input p pv e,
             match_at (keywordRegex kw) p pv input = Some e ->
             exists w after,
               input = w ++ after /\ same_word w kw
               /\ is_word_opt pv = false /\ is_word_opt (head after) = false).
  { intros input p pv e. rewrite keyword_match_at.
    destruct (word_boundary _) eqn:Hb1; [|discriminate].
    destruct (eat true kw _) as [s'|] eqn:He; [|discriminate].
    destruct (word_boundary s') eqn:Hb2; [|discriminate]. intros _.
    destruct (eat_inv _ _ _ He) as (w & Hr & Hw & Hp). simpl in Hr, Hp.
    destruct (same_word_borders w kw Hw) as (Hlen & Hwh & Hwl).
    rewrite Hh in Hwh. rewrite Hl in Hwl.
    exists w, (rest s'). split; [exact Hr|]. split; [exact Hw|].
    unfold word_boundary in Hb1, Hb2. simpl in Hb1.
    assert (Hhead : head input = head w).
    { rewrite Hr. destruct w; [discriminate|reflexivity]. }
    rewrite Hhead, Hwh in Hb1. rewrite Hp in Hb2. unfold last_or in Hb2.
    destruct (last w) as [c|]; [|discriminate]. simpl in Hwl, Hb2.
    rewrite Hwl in Hb2. split.
    - now destruct (is_word_opt pv).
    - now destruct (is_word_opt (head (rest s'))). }
  induction input as [|x input IH]; intros p pv; rewrite search_unfold.
  - destruct (match_at _ _ _ _) eqn:Hm; [|intros [? [=]]]. intros _.
    destruct (Hstep _ _ _ _ Hm) as (w & after & E & Hw & Hpv & Ha).
    now exists [], w, after.
  - destruct (match_at _ _ _ _) eqn:Hm.
    + intros _. destruct (Hstep _ _ _ _ Hm) as (w & after & E & Hw & Hpv & Ha).
      now exists [], w, after.
    + intros Hs. destruct (IH _ _ Hs) as (before & w & after & E & Hw & Hpv & Ha).
      exists (x :: before), w, after. split; [now rewrite E|]. split; [exact Hw|].
      split; [now rewrite last_or_cons|exact Ha].
Qed.

(** The test [\bKEYWORD\b] with the [i] flag succeeds exactly on the texts
    that hold the keyword as a whole word, in any letter case. *)
Lemma keyword_test kw sql :
  bordered kw = true ->
  test (keywordRegex kw) sql = true <-> whole_word kw sql.
Proof.
  intros Hb. unfold test, exec. rewrite bool_decide_eq_true. split.
  - intros Hs. destruct (keyword_search_inv kw Hb sql 0 None Hs)
      as (before & w & after & E & Hw & Hpv & Ha).
    exists before, w, after. now rewrite <- last_or_none.
  - intros (before & w & after & -> & Hw & Hpv & Ha).
    apply keyword_found; auto. now rewrite last_or_none.
Qed.

End SafetyProperties.

(** ** The checks of [validateQuery] *)

Module ValidatorProperties.
Import JS Regex Schema Validator Notions SafetyProperties.

(** [extends l l']: the arrays of [l'] are those of [l] with messages
    pushed at the end. *)
Definition extends (l l' : log) : Prop :=
  (exists es, log_errors l' = log_errors l ++ es)
  /\ (exists ws, log_warnings l' = log_warnings l ++ ws).

(** How a column reference of the select list finds its table: by its
    qualifier, taken as a table name, when some table reference of the
    query passes the table check; or, without qualifier, by the only table
    reference of the query. *)
Definition resolves (schema : FullSchema) (sql : jsstring) (cr : ColumnReference)
    (target : jsstring) : Prop :=
  (truthy (cr_table cr) = true /\ target = cr_table cr
   /\ exists tr, tr ∈ extractTableReferences sql
                 /\ defined (get schema (name tr)) = true)
  \/ (cr_table cr = [] /\ exists tr, extractTableReferences sql = [tr]
                                     /\ target = name tr).

(** The aggregation functions that the specification allows on a column
    of type [ty]. *)
Definition accepts (ty f : jsstring) : Prop :=
  (ty = str "text" -> f = str "COUNT" \/ f = str "DISTINCT")
  /\ (ty = str "date" -> f = str "MIN" \/ f = str "MAX" \/ f = str "COUNT")
  /\ (ty = str "uuid" -> f = str "COUNT" \/ f = str "DISTINCT").

Lemma extends_refl l : extends l l.
Proof. split; exists []; now rewrite List.app_nil_r. Qed.

Lemma extends_trans l1 l2 l3 : extends l1 l2 -> extends l2 l3 -> extends l1 l3.
Proof.
  intros [[e1 H1] [w1 H2]] [[e2 H3] [w2 H4]]. split.
  - exists (e1 ++ e2). now rewrite H3, H1, List.app_assoc.
  - exists (w1 ++ w2). now rewrite H4, H2, List.app_assoc.
Qed.

Lemma push_error_extends m l : extends l (push_error m l).
Proof. split; [now exists [m]|exists []; simpl; now rewrite List.app_nil_r]. Qed.

Lemma push_warning_extends m l : extends l (push_warning m l).
Proof. split; [exists []; simpl; now rewrite List.app_nil_r|now exists [m]]. Qed.

Lemma when_extends b f l : (forall l, extends l (f l)) -> extends l (when b f l).
Proof. intros Hf. destruct b; simpl; [apply Hf|apply extends_refl]. Qed.

Lemma extends_error l l' e : extends l l' -> e ∈ log_errors l -> e ∈ log_errors l'.
Proof. intros [[es ->] _] Hin. apply elem_of_app. now left. Qed.

Lemma extends_warning l l' w :
  extends l l' -> w ∈ log_warnings l -> w ∈ log_warnings l'.
Proof. intros [_ [ws ->]] Hin. apply elem_of_app. now left. Qed.

Lemma push_error_in m l : m ∈ log_errors (push_error m l).
Proof. simpl. apply elem_of_app. right. left. Qed.

Lemma push_warning_in m l : m ∈ log_warnings (push_warning m l).
Proof. simpl. apply elem_of_app. right. left. Qed.

Lemma jseq_true a b : jseq a b = true <-> a = b.
Proof. unfold jseq. apply bool_decide_eq_true. Qed.

Lemma jseq_false a b : jseq a b = false <-> a <> b.
Proof. unfold jseq. apply bool_decide_eq_false. Qed.

Lemma validateColumnExists_extends t c ts l l' :
  validateColumnExists t c ts l = Normal l' -> extends l l'.
Proof.
  unfold validateColumnExists. destruct (jseq c (str "*")).
  - intros [= <-]. apply extends_refl.
  - destruct ts as [tableSchema| |]; try discriminate.
    destruct (negb _); intros [= <-];
      [apply push_error_extends|apply extends_refl].
Qed.

Lemma validateAggregation_extends t c f ts l l' :
  validateAggregation t c f ts l = Normal l' -> extends l l'.
Proof.
  unfold validateAggregation. destruct (jseq c (str "*")).
  - intros [= <-]. apply when_extends, push_error_extends.
  - destruct (column_of ts c) as [m|[info| |]]; try discriminate;
      intros [= <-]; try apply extends_refl.
    repeat (eapply extends_trans;
            [|apply when_extends;
              first [apply push_error_extends|apply push_warning_extends]]).
    apply extends_refl.
Qed.

Lemma checkColumn_extends schema n tr cr l l' :
  checkColumn schema n tr cr l = Normal l' -> extends l l'.
Proof.
  unfold checkColumn. destruct (_ && _).
  - intros [= <-]. apply extends_refl.
  - destruct (negb (defined _)).
    + intros [= <-]. apply extends_refl.
    + destruct (validateColumnExists _ _ _ l) as [l1|m l1] eqn:E1; [|discriminate].
      simpl. apply validateColumnExists_extends in E1.
      destruct (aggregationFunction cr) as [f|].
      * destruct (truthy f).
        -- intros E2. apply validateAggregation_extends in E2.
           eapply extends_trans; eauto.
        -- now intros [= <-].
      * now intros [= <-].
Qed.

Lemma for_each_extends {A} (body : A -> log -> outcome) xs :
  (forall x l l', body x l = Normal l' -> extends l l') ->
  forall l l', for_each body xs l = Normal l' -> extends l l'.
Proof.
  intros Hbody. induction xs as [|x xs IH]; intros l l'; simpl.
  - intros [= <-]. apply extends_refl.
  - destruct (body x l) as [l1|m l1] eqn:E; [|discriminate]. simpl.
    intros Hrest. eapply extends_trans; [eapply Hbody; eauto|eauto].
Qed.

(** A loop that completes has run its body on every element. *)
Lemma for_each_mem {A} (body : A -> log -> outcome) xs x :
  (forall x l l', body x l = Normal l' -> extends l l') ->
  x ∈ xs ->
  forall l l', for_each body xs l = Normal l' ->
    exists l0 l1, extends l l0 /\ body x l0 = Normal l1 /\ extends l1 l'.
Proof.
  intros Hbody Hin. induction Hin as [x xs|x y xs _ IH]; intros l l'; simpl.
  - destruct (body x l) as [l1|m l1] eqn:E; [|discriminate]. simpl.
    intros Hrest. exists l, l1. split; [apply extends_refl|]. split; [exact E|].
    eapply for_each_extends; eauto.
  - destruct (body y l) as [l1|m l1] eqn:E; [|discriminate]. simpl.
    intros Hrest. destruct (IH _ _ Hrest) as (l0 & l2 & H0 & H1 & H2).
    exists l0, l2. split; [|auto]. eapply extends_trans; [eapply Hbody; eauto|eauto].
Qed.

Lemma checkTable_extends schema sql n tr l l' :
  checkTable schema sql n tr l = Normal l' -> extends l l'.
Proof.
  unfold checkTable.
  destruct (if truthy (name tr) then validateTableExists (name tr) schema l else (true, l))
    as [ok l1] eqn:E1.
  assert (H1 : extends l l1).
  { destruct (truthy (name tr)); [|injection E1 as _ <-; apply extends_refl].
    unfold validateTableExists in E1. destruct (negb _); injection E1 as _ <-;
      [apply push_error_extends|apply extends_refl]. }
  destruct (negb ok); [intros [= <-]; exact H1|].
  destruct (negb (defined _)); [intros [= <-]; exact H1|].
  intros H2. eapply extends_trans; [exact H1|].
  eapply for_each_extends; [|exact H2]. intros x l2 l3. apply checkColumn_extends.
Qed.

(** The safety scan pushes one error for each keyword that the text
    holds, in the order of the keyword list, and no warning. *)
Lemma safety_fold sql kws : forall l,
  let l' := fold_left
              (fun l keyword =>
                 when (test (keywordRegex keyword) sql) (push_error (dangerous keyword)) l)
              kws l in
  log_errors l'
  = log_errors l
    ++ map dangerous (List.filter (fun kw => test (keywordRegex kw) sql) kws)
  /\ log_warnings l' = log_warnings l.
Proof.
  induction kws as [|kw kws IH]; intros l; simpl.
  - now rewrite List.app_nil_r.
  - destruct (IH (when (test (keywordRegex kw) sql) (push_error (dangerous kw)) l))
      as [He Hw]. rewrite He, Hw.
    destruct (test (keywordRegex kw) sql); simpl; [|auto].
    now rewrite <- List.app_assoc.
Qed.

Lemma dangerous_inj kw kw' : dangerous kw = dangerous kw' -> kw = kw'.
Proof.
  unfold dangerous. intros E. apply app_inv_head in E. now apply app_inv_tail in E.
Qed.

Lemma validateTables_extends schema sql l :
  validateTables schema sql = Normal l ->
  extends (when (length (extractTableReferences sql) =? 0) (push_error noTables)
             (validateSafety sql (Log [] []))) l.
Proof.
  unfold validateTables. intros H. eapply for_each_extends; [|exact H].
  intros x l1 l2. apply checkTable_extends.
Qed.

(** The result of [validateQuery] in terms of the table loop. *)
Lemma validateQuery_normal schema sql l :
  validateTables schema sql = Normal l ->
  errors (validateQuery schema sql)
  = log_errors l
    ++ (if negb (includes sql (str "SELECT")) && negb (includes sql (str "select"))
        then [noSelect] else [])
  /\ warnings (validateQuery schema sql) = log_warnings l
  /\ valid (validateQuery schema sql)
     = (length (errors (validateQuery schema sql)) =? 0).
Proof.
  intros H. unfold validateQuery. rewrite H.
  destruct (negb _ && negb _); simpl; [auto|]. now rewrite List.app_nil_r.
Qed.

Lemma validateQuery_reports schema sql l e :
  validateTables schema sql = Normal l ->
  e ∈ log_errors l ->
  e ∈ errors (validateQuery schema sql) /\ valid (validateQuery schema sql) = false.
Proof.
  intros H Hin. destruct (validateQuery_normal schema sql l H) as (He & _ & Hv).
  assert (Hin' : e ∈ errors (validateQuery schema sql)).
  { rewrite He. apply elem_of_app. now left. }
  split; [exact Hin'|]. rewrite Hv.
  destruct (errors (validateQuery schema sql)); [inversion Hin'|reflexivity].
Qed.

Lemma validateQuery_warns schema sql l w :
  validateTables schema sql = Normal l ->
  w ∈ log_warnings l -> w ∈ warnings (validateQuery schema sql).
Proof.
  intros H Hin. destruct (validateQuery_normal schema sql l H) as (_ & Hw & _).
  now rewrite Hw.
Qed.

End ValidatorProperties.

(** ** What [validateQuery] reports *)

Module ValidatorTheorems.
Import JS Regex Schema Validator Notions SafetyProperties ValidatorProperties.

(** The safety scan reports a keyword of its list exactly when the text
    holds it as a whole word, in any letter case; it reports nothing else
    and pushes no warning. *)
Theorem safety_scan_reports_whole_words :
  forall sql kw,
    kw ∈ dangerousKeywords ->
    (dangerous kw ∈ log_errors (validateSafety sql (Log [] [])) <-> whole_word kw sql)
    /\ log_warnings (validateSafety sql (Log [] [])) = []
    /\ (forall e, e ∈ log_errors (validateSafety sql (Log [] [])) ->
        exists kw', kw' ∈ dangerousKeywords /\ whole_word kw' sql /\ e = dangerous kw').
Proof.
  intros sql kw Hkw. unfold validateSafety.
  destruct (safety_fold sql dangerousKeywords (Log [] [])) as [He Hw].
  cbv zeta in He, Hw. rewrite He, Hw. simpl log_errors. simpl log_warnings.
  rewrite List.app_nil_l.
  assert (Hmem : forall e,
             e ∈ map dangerous
                   (List.filter (fun kw => test (keywordRegex kw) sql) dangerousKeywords)
             <-> exists kw', kw' ∈ dangerousKeywords /\ whole_word kw' sql
                             /\ e = dangerous kw').
  { intros e. rewrite list_elem_of_In, List.in_map_iff. split.
    - intros (kw' & <- & Hin). apply List.filter_In in Hin as [Hin Ht].
      apply list_elem_of_In in Hin. exists kw'. split; [exact Hin|]. split; [|reflexivity].
      apply keyword_test; [now apply dangerousKeywords_bordered|exact Ht].
    - intros (kw' & Hin & Hww & ->). exists kw'. split; [reflexivity|].
      apply List.filter_In. split; [now apply list_elem_of_In|].
      apply keyword_test; [now apply dangerousKeywords_bordered|exact Hww]. }
  split; [|split; [reflexivity|]].
  - rewrite Hmem. split.
    + intros (kw' & _ & Hww & E). apply dangerous_inj in E. now subst kw'.
    + intros Hww. now exists kw.
  - intros e He'. now apply Hmem.
Qed.

Lemma safety_scan_reports_lower_case_drop :
  dangerous (str "DROP")
  ∈ log_errors (validateSafety (str "select 1; drop table users") (Log [] [])).
Proof.
  apply (proj2 (proj1 (safety_scan_reports_whole_words
                         (str "select 1; drop table users") (str "DROP")
                         ltac:(vm_compute; set_solver)))).
  exists (str "select 1; "), (str "drop"), (str " table users").
  repeat split; reflexivity.
Defined.

(** A text that holds a keyword of the deny list as a whole word is never
    valid; when the checks run to their end the error that names the
    keyword is in the error list. *)
Theorem dangerous_query_is_invalid :
  forall schema sql kw,
    kw ∈ dangerousKeywords ->
    whole_word kw sql ->
    valid (validateQuery schema sql) = false
    /\ (forall l, validateTables schema sql = Normal l ->
        dangerous kw ∈ errors (validateQuery schema sql)).
Proof.
  intros schema sql kw Hkw Hww.
  assert (Hsafe : dangerous kw ∈ log_errors (validateSafety sql (Log [] []))).
  { now apply (safety_scan_reports_whole_words sql kw Hkw). }
  assert (Hrun : forall l, validateTables schema sql = Normal l ->
                           dangerous kw ∈ log_errors l).
  { intros l Hl. eapply extends_error; [apply (validateTables_extends schema); exact Hl|].
    eapply extends_error; [apply when_extends, push_error_extends|exact Hsafe]. }
  split.
  - destruct (validateTables schema sql) as [l|m l] eqn:E.
    + now apply (validateQuery_reports schema sql l (dangerous kw) E), Hrun.
    + unfold validateQuery. now rewrite E.
  - intros l Hl. now apply (validateQuery_reports schema sql l (dangerous kw) Hl), Hrun.
Qed.

Lemma delete_from_accounts_is_invalid :
  valid (validate "DELETE FROM accounts") = false
  /\ (forall l, validateTables finance_schema (str "DELETE FROM accounts") = Normal l ->
      dangerous (str "DELETE") ∈ errors (validate "DELETE FROM accounts")).
Proof.
  apply (dangerous_query_is_invalid finance_schema (str "DELETE FROM accounts")
           (str "DELETE") ltac:(vm_compute; set_solver)).
  exists [], (str "DELETE"), (str " FROM accounts"). repeat split; reflexivity.
Defined.

Lemma checkTable_defined schema sql n tr l :
  defined (get schema (name tr)) = true ->
  checkTable schema sql n tr l
  = for_each (checkColumn schema n tr) (extractColumnReferences sql) l.
Proof.
  intros Hd. unfold checkTable, validateTableExists. rewrite Hd. simpl.
  now destruct (truthy (name tr)).
Qed.

(** A query whose only table reference is the name of a member of
    [Object.prototype] (constructor, toString, ...) and whose first
    select-list column is unqualified makes the column check read a field
    of [undefined]: [validateQuery] returns the message of that exception
    as its only error, and the errors of the safety scan are lost. *)
Theorem inherited_table_name_aborts_validation :
  forall schema sql tr cr crs,
    extractTableReferences sql = [tr] ->
    get schema (name tr) = Inherited ->
    extractColumnReferences sql = cr :: crs ->
    cr_table cr = [] ->
    cr_column cr <> str "*" ->
    validateQuery schema sql
    = {| valid := false;
         errors := [ str "Validation error: " ++ undefined_read (cr_column cr) ];
         warnings := [];
         suggestions := [] |}
    /\ forall kw, dangerous kw ∉ errors (validateQuery schema sql).
Proof.
  intros schema sql tr cr crs Hrefs Hget Hcols Hq Hstar.
  assert (Hthrow : exists l,
             validateTables schema sql = Throws (undefined_read (cr_column cr)) l
             /\ log_warnings l = []).
  { unfold validateTables. rewrite Hrefs. simpl length. simpl for_each.
    rewrite checkTable_defined by now rewrite Hget. rewrite Hcols. simpl for_each.
    unfold checkColumn. rewrite Hq. simpl. rewrite Hget. simpl.
    unfold validateColumnExists.
    apply jseq_false in Hstar. rewrite Hstar. simpl.
    eexists. split; [reflexivity|].
    unfold validateSafety.
    now destruct (safety_fold sql dangerousKeywords (Log [] [])) as [_ ->]. }
  destruct Hthrow as (l & Ht & Hw).
  assert (E : validateQuery schema sql
              = {| valid := false;
                   errors := [ str "Validation error: " ++ undefined_read (cr_column cr) ];
                   warnings := []; suggestions := [] |}).
  { unfold validateQuery. now rewrite Ht, Hw. }
  split; [exact E|]. intros kw Hin. rewrite E in Hin. simpl in Hin.
  apply list_elem_of_singleton in Hin. apply (f_equal head) in Hin.
  vm_compute in Hin. discriminate.
Qed.

Lemma drop_after_constructor_is_not_named :
  validate "SELECT x FROM constructor; DROP TABLE users"
  = {| valid := false;
       errors := [ str "Validation error: Cannot read properties of undefined (reading 'x')" ];
       warnings := [];
       suggestions := [] |}
  /\ forall kw,
      dangerous kw ∉ errors (validate "SELECT x FROM constructor; DROP TABLE users").
Proof.
  apply (inherited_table_name_aborts_validation finance_schema
           (str "SELECT x FROM constructor; DROP TABLE users")
           {| name := str "constructor"; alias := None |}
           {| cr_table := []; cr_column := str "x"; aggregationFunction := None |} []);
    try (vm_compute; reflexivity).
  vm_compute. discriminate.
Defined.

(** [valid] is true exactly when the error list is empty; warnings and
    suggestions play no part. *)
Theorem valid_iff_no_errors :
  forall schema sql,
    valid (validateQuery schema sql) = true <-> errors (validateQuery schema sql) = [].
Proof.
  intros schema sql. destruct (validateTables schema sql) as [l|m l] eqn:E.
  - destruct (validateQuery_normal schema sql l E) as (_ & _ & ->).
    destruct (errors (validateQuery schema sql)); simpl; split; congruence.
  - unfold validateQuery. rewrite E. simpl. split; discriminate.
Qed.

(** The SELECT test is case sensitive: a text with neither "SELECT" nor
    "select" in it is invalid, though the extraction of tables and columns
    ignores the letter case. *)
Theorem select_keyword_is_case_sensitive :
  forall schema sql,
    includes sql (str "SELECT") = false ->
    includes sql (str "select") = false ->
    valid (validateQuery schema sql) = false
    /\ (forall l, validateTables schema sql = Normal l ->
        noSelect ∈ errors (validateQuery schema sql)).
Proof.
  intros schema sql H1 H2.
  assert (Hrun : forall l, validateTables schema sql = Normal l ->
                           noSelect ∈ errors (validateQuery schema sql)).
  { intros l Hl. destruct (validateQuery_normal schema sql l Hl) as (-> & _ & _).
    rewrite H1, H2. simpl. apply elem_of_app. right. left. }
  split; [|exact Hrun].
  destruct (validateTables schema sql) as [l|m l] eqn:E.
  - destruct (validateQuery_normal schema sql l E) as (_ & _ & ->).
    specialize (Hrun l eq_refl).
    destruct (errors (validateQuery schema sql)); [inversion Hrun|reflexivity].
  - unfold validateQuery. now rewrite E.
Qed.

Lemma mixed_case_select_is_invalid :
  valid (validate "Select ticker From securities") = false
  /\ (forall l,
        validateTables finance_schema (str "Select ticker From securities") = Normal l ->
        noSelect ∈ errors (validate "Select ticker From securities")).
Proof.
  apply (select_keyword_is_case_sensitive finance_schema
           (str "Select ticker From securities")); vm_compute; reflexivity.
Defined.

(** When the checks run to their end, every table reference whose name
    is not in the registry is reported as a hard error that lists the
    tables of the registry, and a query without any table reference is
    reported as well; either way the query is invalid. *)
Theorem missing_tables_are_reported :
  forall schema sql l,
    validateTables schema sql = Normal l ->
    (forall tr,
        tr ∈ extractTableReferences sql ->
        truthy (name tr) = true ->
        get schema (name tr) = Missing ->
        tableMissing schema (name tr) ∈ errors (validateQuery schema sql)
        /\ valid (validateQuery schema sql) = false)
    /\ (extractTableReferences sql = [] ->
        noTables ∈ errors (validateQuery schema sql)
        /\ valid (validateQuery schema sql) = false).
Proof.
  intros schema sql l Hl. split.
  - intros tr Hin Hname Hget. apply (validateQuery_reports schema sql l _ Hl).
    unfold validateTables in Hl.
    destruct (for_each_mem _ _ tr
                (fun x l1 l2 => checkTable_extends schema sql _ x l1 l2) Hin _ _ Hl)
      as (l0 & l1 & _ & Hrun & Hext).
    eapply extends_error; [exact Hext|].
    unfold checkTable, validateTableExists in Hrun.
    rewrite Hname, Hget in Hrun. simpl in Hrun. injection Hrun as <-.
    apply elem_of_app. right. left.
  - intros Hrefs. apply (validateQuery_reports schema sql l _ Hl).
    unfold validateTables in Hl. rewrite Hrefs in Hl. simpl in Hl.
    injection Hl as <-. apply elem_of_app. right. left.
Qed.

Lemma table_nowhere_is_reported :
  (forall tr,
      tr ∈ extractTableReferences (str "SELECT a FROM nowhere") ->
      truthy (name tr) = true ->
      get finance_schema (name tr) = Missing ->
      tableMissing finance_schema (name tr) ∈ errors (validate "SELECT a FROM nowhere")
      /\ valid (validate "SELECT a FROM nowhere") = false)
  /\ (extractTableReferences (str "SELECT a FROM nowhere") = [] ->
      noTables ∈ errors (validate "SELECT a FROM nowhere")
      /\ valid (validate "SELECT a FROM nowhere") = false).
Proof.
  refine (missing_tables_are_reported finance_schema (str "SELECT a FROM nowhere")
            _ _).
  vm_compute. reflexivity.
Defined.

(** Where the column loop meets a column reference that finds its table. *)
Lemma checkColumn_reached schema sql l cr target :
  validateTables schema sql = Normal l ->
  cr ∈ extractColumnReferences sql ->
  resolves schema sql cr target ->
  defined (get schema target) = true ->
  exists tr l0 l1,
    checkColumn schema (length (extractTableReferences sql)) tr cr l0 = Normal l1
    /\ extends l1 l
    /\ negb (truthy (cr_table cr)) && (1 <? length (extractTableReferences sql)) = false
    /\ (if truthy (cr_table cr) then cr_table cr else name tr) = target.
Proof.
  intros Hl Hcr Hres Hdef. unfold validateTables in Hl.
  assert (Hreach : forall tr,
             tr ∈ extractTableReferences sql ->
             defined (get schema (name tr)) = true ->
             exists l0 l1,
               checkColumn schema (length (extractTableReferences sql)) tr cr l0
               = Normal l1 /\ extends l1 l).
  { intros tr Hin Hd.
    destruct (for_each_mem _ _ tr
                (fun x l1 l2 => checkTable_extends schema sql _ x l1 l2) Hin _ _ Hl)
      as (l0 & l1 & _ & Hrun & Hext).
    rewrite checkTable_defined in Hrun by exact Hd.
    destruct (for_each_mem _ _ cr
                (fun x l1 l2 => checkColumn_extends schema _ tr x l1 l2) Hcr _ _ Hrun)
      as (l2 & l3 & _ & Hrun' & Hext').
    exists l2, l3. split; [exact Hrun'|]. eapply extends_trans; eauto. }
  destruct Hres as [(Hq & -> & tr & Hin & Hd)|(Hq & tr & Hrefs & ->)].
  - destruct (Hreach tr Hin Hd) as (l0 & l1 & Hrun & Hext).
    exists tr, l0, l1. rewrite Hq. auto.
  - destruct (Hreach tr) as (l0 & l1 & Hrun & Hext); [rewrite Hrefs; left|exact Hdef|].
    exists tr, l0, l1. rewrite Hq. split; [exact Hrun|]. split; [exact Hext|].
    rewrite Hrefs. split; reflexivity.
Qed.

Lemma checkColumn_own schema n tr cr l0 target ts :
  negb (truthy (cr_table cr)) && (1 <? n) = false ->
  (if truthy (cr_table cr) then cr_table cr else name tr) = target ->
  get schema target = Own ts ->
  checkColumn schema n tr cr l0
  = bind (validateColumnExists target (cr_column cr) (Own ts) l0)
      (fun l =>
         match aggregationFunction cr with
         | Some f =>
             if truthy f
             then validateAggregation target (cr_column cr) f (Own ts) l
             else Normal l
         | None => Normal l
         end).
Proof.
  intros Hb Ht Hg. unfold checkColumn. rewrite Hb. cbv zeta. rewrite Ht, Hg.
  reflexivity.
Qed.

(** In a query none of whose table references passes the table check no
    column is looked at: the checks end with the findings of the safety
    scan and the table errors. *)
Lemma columns_are_skipped_without_a_table schema sql :
  (forall tr, tr ∈ extractTableReferences sql ->
              defined (get schema (name tr)) = false) ->
  validateTables schema sql
  = Normal
      (fold_left
         (fun l tr =>
            if truthy (name tr) then push_error (tableMissing schema (name tr)) l
            else l)
         (extractTableReferences sql)
         (when (length (extractTableReferences sql) =? 0) (push_error noTables)
            (validateSafety sql (Log [] [])))).
Proof.
  unfold validateTables.
  generalize (when (length (extractTableReferences sql) =? 0) (push_error noTables)
                (validateSafety sql (Log [] []))) as l.
  generalize (length (extractTableReferences sql)) as count.
  induction (extractTableReferences sql) as [|tr refs IH]; intros count l Hall;
    [reflexivity|].
  cbn [for_each fold_left].
  assert (Hhere : checkTable schema sql count tr l
                  = Normal (if truthy (name tr)
                            then push_error (tableMissing schema (name tr)) l
                            else l)).
  { unfold checkTable, validateTableExists.
    rewrite (Hall tr) by left. now destruct (truthy (name tr)). }
  rewrite Hhere. cbn [bind]. apply IH. intros tr' Hin. apply Hall. now right.
Qed.



(** Aliases are never resolved.  When every table reference passes the
    table check and every select-list column is qualified by a name for
    which the registry has no value, own or inherited (a declared alias,
    for one), the column
    and aggregation checks push nothing: the checks end with the findings
    of the safety scan alone. *)
Theorem alias_qualified_columns_are_not_checked :
  forall schema sql,
    extractTableReferences sql <> [] ->
    (forall tr, tr ∈ extractTableReferences sql ->
                defined (get schema (name tr)) = true) ->
    (forall cr, cr ∈ extractColumnReferences sql ->
                truthy (cr_table cr) = true /\ get schema (cr_table cr) = Missing) ->
    validateTables schema sql = Normal (validateSafety sql (Log [] [])).
Proof.
  intros schema sql Hne Hrefs Hcols. unfold validateTables.
  assert (Hlen : (length (extractTableReferences sql) =? 0) = false).
  { apply Nat.eqb_neq. destruct (extractTableReferences sql); [congruence|discriminate]. }
  rewrite Hlen. simpl when.
  generalize (validateSafety sql (Log [] [])) as l.
  generalize (length (extractTableReferences sql)) as n.
  assert (Hcolumns : forall n tr l,
             for_each (checkColumn schema n tr) (extractColumnReferences sql) l
             = Normal l).
  { intros n tr. induction (extractColumnReferences sql) as [|cr crs IH]; intros l;
      [reflexivity|]. simpl.
    destruct (Hcols cr) as [Hq Hmiss]; [left|].
    unfold checkColumn at 1. rewrite Hq, Hmiss. simpl.
    apply IH. intros cr' Hin. apply Hcols. now right. }
  assert (Htables : forall (trs : list TableReference) n l,
             (forall tr, tr ∈ trs -> defined (get schema (name tr)) = true) ->
             for_each (checkTable schema sql n) trs l = Normal l).
  { induction trs as [|tr trs IH]; intros n l Hd; [reflexivity|]. simpl.
    rewrite checkTable_defined by (apply Hd; left).
    rewrite Hcolumns. simpl. apply IH. intros tr' Hin. apply Hd. now right. }
  intros n l. now apply Htables.
Qed.

Lemma aliased_column_passes :
  validateTables finance_schema (str "SELECT s.nope FROM securities AS s")
  = Normal (validateSafety (str "SELECT s.nope FROM securities AS s") (Log [] [])).
Proof.
  apply alias_qualified_columns_are_not_checked.
  - vm_compute. discriminate.
  - intros tr Hin. vm_compute in Hin.
    apply list_elem_of_singleton in Hin. subst tr. reflexivity.
  - intros cr Hin. vm_compute in Hin.
    apply list_elem_of_singleton in Hin. subst cr. split; reflexivity.
Defined.

Lemma jseq_spec a b : reflect (a = b) (jseq a b).
Proof. unfold jseq. apply bool_decide_reflect. Qed.

(** What [validateAggregation] pushes for a column of the table. *)
Lemma validateAggregation_own t c f ts info l :
  c <> str "*" ->
  get (columns ts) c = Own info ->
  validateAggregation t c f (Own ts) l
  = Normal
      (Log (log_errors l
            ++ (if jseq (type info) (str "text")
                   && negb (jseq f (str "COUNT") || jseq f (str "DISTINCT"))
                then [onText t c f] else [])
            ++ (if jseq (type info) (str "date")
                   && negb (jseq f (str "MIN") || jseq f (str "MAX")
                            || jseq f (str "COUNT"))
                then [onDate t c f] else [])
            ++ (if jseq (type info) (str "uuid")
                   && negb (jseq f (str "COUNT")) && negb (jseq f (str "DISTINCT"))
                then [onUuid t c f] else []))
           (log_warnings l
            ++ (if match aggregatable info with
                   | Some a => truthy a && jseq a (str "false")
                   | None => false
                   end
                   && negb (jseq f (str "COUNT")) && negb (jseq f (str "DISTINCT"))
                then [notAggregatable t c] else []))).
Proof.
  intros Hstar Hget. unfold validateAggregation, column_of.
  apply jseq_false in Hstar. rewrite Hstar, Hget.
  unfold is_one_of. simpl existsb. rewrite !orb_false_r.
  replace (jseq f (str "MIN") || (jseq f (str "MAX") || jseq f (str "COUNT")))
    with (jseq f (str "MIN") || jseq f (str "MAX") || jseq f (str "COUNT"))
    by now rewrite orb_assoc.
  generalize (jseq (type info) (str "text")
              && negb (jseq f (str "COUNT") || jseq f (str "DISTINCT"))) as b1.
  generalize (jseq (type info) (str "date")
              && negb (jseq f (str "MIN") || jseq f (str "MAX")
                       || jseq f (str "COUNT"))) as b2.
  generalize (jseq (type info) (str "uuid")
              && negb (jseq f (str "COUNT")) && negb (jseq f (str "DISTINCT"))) as b3.
  generalize (match aggregatable info with
              | Some a => truthy a && jseq a (str "false")
              | None => false
              end && negb (jseq f (str "COUNT")) && negb (jseq f (str "DISTINCT")))
    as b4.
  destruct l as [es ws]. intros [] [] [] []; simpl; unfold push_error, push_warning;
    simpl; rewrite <- ?List.app_assoc, ?List.app_nil_r; reflexivity.
Qed.

(** The typing of aggregation calls.  For a column of the table, the
    errors pushed are none exactly when the specification allows the
    function on the type of the column (text: COUNT, DISTINCT; date: MIN,
    MAX, COUNT; uuid: COUNT, DISTINCT; any function on the other types),
    and otherwise the one error of that type.  A warning, never an error,
    is pushed when the column is marked with aggregatable "false" and the
    function is neither COUNT nor DISTINCT.  On a star only COUNT is
    allowed. *)
Theorem aggregation_typing :
  (forall t c f ts info l,
      c <> str "*" ->
      get (columns ts) c = Own info ->
      exists es ws,
        validateAggregation t c f (Own ts) l
        = Normal (Log (log_errors l ++ es) (log_warnings l ++ ws))
        /\ (accepts (type info) f <-> es = [])
        /\ (type info = str "text" -> ~ (f = str "COUNT" \/ f = str "DISTINCT") ->
            es = [onText t c f])
        /\ (type info = str "date" ->
            ~ (f = str "MIN" \/ f = str "MAX" \/ f = str "COUNT") ->
            es = [onDate t c f])
        /\ (type info = str "uuid" -> ~ (f = str "COUNT" \/ f = str "DISTINCT") ->
            es = [onUuid t c f])
        /\ (aggregatable info = Some (str "false") ->
            f <> str "COUNT" -> f <> str "DISTINCT" ->
            ws = [notAggregatable t c])
        /\ (~ (aggregatable info = Some (str "false")
               /\ f <> str "COUNT" /\ f <> str "DISTINCT") ->
            ws = []))
  /\ (forall t f ts l,
        validateAggregation t (str "*") f ts l
        = Normal (if jseq f (str "COUNT") then l else push_error (onStar f) l)).
Proof.
  split.
  - intros t c f ts info l Hstar Hget.
    rewrite (validateAggregation_own t c f ts info l Hstar Hget).
    eexists. eexists. split; [reflexivity|].
    assert (Dtd : str "text" <> str "date") by (vm_compute; discriminate).
    assert (Dtu : str "text" <> str "uuid") by (vm_compute; discriminate).
    assert (Ddu : str "date" <> str "uuid") by (vm_compute; discriminate).
    split; [|split; [|split; [|split]]].
    + unfold accepts.
      destruct (jseq_spec (type info) (str "text")),
        (jseq_spec (type info) (str "date")),
        (jseq_spec (type info) (str "uuid")),
        (jseq_spec f (str "COUNT")), (jseq_spec f (str "DISTINCT")),
        (jseq_spec f (str "MIN")), (jseq_spec f (str "MAX"));
        simpl; split; intros H; try reflexivity; try discriminate;
        try (exfalso; congruence); try (exfalso; intuition congruence);
        try (repeat split; intros; try congruence; auto; fail).
    + intros Hty Hf.
      destruct (jseq_spec (type info) (str "text")); [|contradiction].
      destruct (jseq_spec (type info) (str "date")); [congruence|].
      destruct (jseq_spec (type info) (str "uuid")); [congruence|].
      destruct (jseq_spec f (str "COUNT")); [tauto|].
      destruct (jseq_spec f (str "DISTINCT")); [tauto|]. reflexivity.
    + intros Hty Hf.
      destruct (jseq_spec (type info) (str "text")); [congruence|].
      destruct (jseq_spec (type info) (str "date")); [|contradiction].
      destruct (jseq_spec (type info) (str "uuid")); [congruence|].
      destruct (jseq_spec f (str "MIN")); [tauto|].
      destruct (jseq_spec f (str "MAX")); [tauto|].
      destruct (jseq_spec f (str "COUNT")); [tauto|]. reflexivity.
    + intros Hty Hf.
      destruct (jseq_spec (type info) (str "text")); [congruence|].
      destruct (jseq_spec (type info) (str "date")); [congruence|].
      destruct (jseq_spec (type info) (str "uuid")); [|contradiction].
      destruct (jseq_spec f (str "COUNT")); [tauto|].
      destruct (jseq_spec f (str "DISTINCT")); [tauto|]. reflexivity.
    + split.
      * intros -> Hc Hd. simpl.
        destruct (jseq_spec f (str "COUNT")); [contradiction|].
        destruct (jseq_spec f (str "DISTINCT")); [contradiction|]. reflexivity.
      * intros Hno.
        destruct (aggregatable info) as [a|]; [|reflexivity].
        destruct (jseq_spec a (str "false")) as [->|];
          [|now rewrite andb_false_r].
        destruct (jseq_spec f (str "COUNT")); [now rewrite andb_false_r|].
        destruct (jseq_spec f (str "DISTINCT")); [now rewrite andb_false_r|].
        exfalso. apply Hno. auto.
  - intros t f ts l. unfold validateAggregation. simpl.
    now destruct (jseq f (str "COUNT")).
Qed.

(** Where the column loop runs the aggregation check. *)
Lemma aggregation_reached schema sql l cr target ts f :
  validateTables schema sql = Normal l ->
  cr ∈ extractColumnReferences sql ->
  resolves schema sql cr target ->
  get schema target = Own ts ->
  aggregationFunction cr = Some f ->
  truthy f = true ->
  exists l0 l1,
    validateAggregation target (cr_column cr) f (Own ts) l0 = Normal l1
    /\ extends l1 l.
Proof.
  intros Hl Hcr Hres Hget Hagg Hf.
  destruct (checkColumn_reached schema sql l cr target Hl Hcr Hres)
    as (tr & l0 & l1 & Hrun & Hext & Hb & Ht); [now rewrite Hget|].
  rewrite (checkColumn_own schema _ tr cr l0 target ts Hb Ht Hget) in Hrun.
  rewrite Hagg, Hf in Hrun.
  destruct (validateColumnExists target (cr_column cr) (Own ts) l0) as [l2|m l2];
    [|discriminate].
  simpl in Hrun. eauto.
Qed.

(** When the checks run to their end, the findings of the aggregation
    check on a select-list entry that finds its table (by its qualifier
    while some table reference of the query passes the table check, or,
    unqualified, by the only table reference of the query) are in the
    result: a function that the type of the column does not allow is a hard error
    and makes the query invalid, a function other than COUNT on a star is
    a hard error, and a function other than COUNT and DISTINCT on a column
    marked with aggregatable "false" is a warning. *)
Theorem aggregation_findings_are_reported :
  forall schema sql l,
    validateTables schema sql = Normal l ->
    forall cr target ts f,
      cr ∈ extractColumnReferences sql ->
      resolves schema sql cr target ->
      get schema target = Own ts ->
      aggregationFunction cr = Some f ->
      truthy f = true ->
      (cr_column cr = str "*" -> f <> str "COUNT" ->
       onStar f ∈ errors (validateQuery schema sql)
       /\ valid (validateQuery schema sql) = false)
      /\ (forall info,
          cr_column cr <> str "*" ->
          get (columns ts) (cr_column cr) = Own info ->
          (type info = str "text" -> ~ (f = str "COUNT" \/ f = str "DISTINCT") ->
           onText target (cr_column cr) f ∈ errors (validateQuery schema sql)
           /\ valid (validateQuery schema sql) = false)
          /\ (type info = str "date" ->
              ~ (f = str "MIN" \/ f = str "MAX" \/ f = str "COUNT") ->
              onDate target (cr_column cr) f ∈ errors (validateQuery schema sql)
              /\ valid (validateQuery schema sql) = false)
          /\ (type info = str "uuid" -> ~ (f = str "COUNT" \/ f = str "DISTINCT") ->
              onUuid target (cr_column cr) f ∈ errors (validateQuery schema sql)
              /\ valid (validateQuery schema sql) = false)
          /\ (aggregatable info = Some (str "false") ->
              f <> str "COUNT" -> f <> str "DISTINCT" ->
              notAggregatable target (cr_column cr)
              ∈ warnings (validateQuery schema sql))).
Proof.
  intros schema sql l Hl cr target ts f Hcr Hres Hget Hagg Hf.
  destruct (aggregation_reached schema sql l cr target ts f Hl Hcr Hres Hget Hagg Hf)
    as (l0 & l1 & Hrun & Hext).
  destruct aggregation_typing as [Htyping Hstar].
  split.
  - intros Hc Hcount. apply (validateQuery_reports schema sql l _ Hl).
    eapply extends_error; [exact Hext|].
    rewrite Hc, Hstar in Hrun. apply jseq_false in Hcount. rewrite Hcount in Hrun.
    injection Hrun as <-. apply push_error_in.
  - intros info Hc Hinfo.
    destruct (Htyping target (cr_column cr) f ts info l0 Hc Hinfo)
      as (es & ws & Hrun' & _ & Htext & Hdate & Huuid & Hwarn & _).
    rewrite Hrun' in Hrun. injection Hrun as <-.
    assert (Herr : forall e, e ∈ es ->
                     e ∈ errors (validateQuery schema sql)
                     /\ valid (validateQuery schema sql) = false).
    { intros e He. apply (validateQuery_reports schema sql l _ Hl).
      eapply extends_error; [exact Hext|]. simpl. apply elem_of_app. now right. }
    split; [|split; [|split]].
    + intros Hty Hno. apply Herr. rewrite (Htext Hty Hno). left.
    + intros Hty Hno. apply Herr. rewrite (Hdate Hty Hno). left.
    + intros Hty Hno. apply Herr. rewrite (Huuid Hty Hno). left.
    + intros Ha Hc1 Hd1. apply (validateQuery_warns schema sql l _ Hl).
      eapply extends_warning; [exact Hext|]. simpl. apply elem_of_app. right.
      rewrite (Hwarn Ha Hc1 Hd1). left.
Qed.

Lemma sum_of_ticker_is_reported :
  onText (str "securities") (str "ticker") (str "SUM")
  ∈ errors (validate "SELECT SUM(ticker) FROM securities")
  /\ valid (validate "SELECT SUM(ticker) FROM securities") = false.
Proof.
  assert (Hinfo : exists info,
             get (columns securities_table) (str "ticker") = Own info
             /\ type info = str "text").
  { eexists. split; vm_compute; reflexivity. }
  destruct Hinfo as (info & Hinfo & Hty).
  refine (proj1 (proj2 (aggregation_findings_are_reported finance_schema
                          (str "SELECT SUM(ticker) FROM securities") _ _
                          {| cr_table := []; cr_column := str "ticker";
                             aggregationFunction := Some (str "SUM") |}
                          (str "securities") securities_table (str "SUM")
                          _ _ _ _ _) info _ Hinfo) Hty _).
  - vm_compute. reflexivity.
  - vm_compute. left.
  - right. split; [reflexivity|]. eexists. split; vm_compute; reflexivity.
  - vm_compute. reflexivity.
  - reflexivity.
  - reflexivity.
  - vm_compute. discriminate.
  - vm_compute. intros [H|H]; discriminate.
Defined.

End ValidatorTheorems.

(** ** More on the query cache *)

Module CacheTheorems.
Import JS Cache CacheProperties.

(** The sweep [clearExpired] keeps exactly the entries that a read at the
    same time would serve: afterwards every read answers as it would have
    before the sweep, and removes nothing. *)
Theorem sweep_agrees_with_lazy_eviction :
  forall (hashQuery : jsstring -> jsstring) (A : Type)
         (c : gmap jsstring (CachedResult A)) (now : Z),
    (forall k entry,
        clearExpiredResults now c !! k = Some entry
        <-> c !! k = Some entry /\ (now - timestamp entry <= ttl entry)%Z)
    /\ (forall query,
        fst (getResult hashQuery now query (clearExpiredResults now c))
        = fst (getResult hashQuery now query c))
    /\ (forall query,
        snd (getResult hashQuery now query (clearExpiredResults now c))
        = clearExpiredResults now c).
Proof.
  intros hashQuery A c now.
  assert (Hkeep : forall k entry,
             clearExpiredResults now c !! k = Some entry
             <-> c !! k = Some entry /\ (now - timestamp entry <= ttl entry)%Z).
  { intros k entry. unfold clearExpiredResults.
    rewrite map_lookup_filter_Some. simpl.
    destruct (Z.ltb_spec (ttl entry) (now - timestamp entry)); simpl;
      intuition (try lia; try discriminate). }
  split; [exact Hkeep|]. split.
  - intros query. unfold getResult.
    destruct (c !! hashQuery query) as [entry|] eqn:E.
    + destruct (Z.ltb_spec (ttl entry) (now - timestamp entry)) as [Hold|Hlive].
      * destruct (clearExpiredResults now c !! hashQuery query) as [entry'|] eqn:E';
          [|reflexivity].
        apply Hkeep in E' as [E' Hl]. rewrite E in E'. injection E' as <-. lia.
      * rewrite (proj2 (Hkeep _ entry) (conj E Hlive)).
        now destruct (Z.ltb_spec (ttl entry) (now - timestamp entry)); [lia|].
    + destruct (clearExpiredResults now c !! hashQuery query) as [entry'|] eqn:E';
        [|reflexivity].
      apply Hkeep in E' as [E' _]. congruence.
  - intros query. unfold getResult.
    destruct (clearExpiredResults now c !! hashQuery query) as [entry|] eqn:E;
      [|reflexivity].
    apply Hkeep in E as [_ Hlive].
    now destruct (Z.ltb_spec (ttl entry) (now - timestamp entry)); [lia|].
Qed.

(** Entries are addressed by the digest of the text alone.  A value
    stored for one text is served, while it lives, for every text with
    the same digest; a text with another digest is not affected by the
    store; and of two stores under one text the later one is served. *)
Theorem entries_are_addressed_by_digest :
  forall (hashQuery : jsstring -> jsstring) (A : Type)
         (c : gmap jsstring (CachedResult A)) t life now query query' (d : A),
    (hashQuery query' = hashQuery query -> (now - t <= life)%Z ->
     fst (getResult hashQuery now query' (cacheResult hashQuery t query d life c))
     = Some d)
    /\ (hashQuery query' <> hashQuery query ->
        fst (getResult hashQuery now query' (cacheResult hashQuery t query d life c))
        = fst (getResult hashQuery now query' c))
    /\ (forall t2 life2 (d2 : A),
        (now - t2 <= life2)%Z ->
        fst (getResult hashQuery now query
               (cacheResult hashQuery t2 query d2 life2
                  (cacheResult hashQuery t query d life c)))
        = Some d2).
Proof.
  intros hashQuery A c t life now query query' d. split; [|split].
  - intros Hh Hlive.
    rewrite (getResult_live hashQuery _ now query'
               {| data := d; timestamp := t; ttl := life |}); auto.
    unfold cacheResult. rewrite Hh. apply lookup_insert_eq.
  - intros Hne. unfold getResult, cacheResult.
    rewrite lookup_insert_ne by congruence.
    destruct (c !! hashQuery query') as [entry|]; [|reflexivity].
    now destruct (_ <? _)%Z.
  - intros t2 life2 d2 Hlive.
    rewrite (getResult_live hashQuery _ now query
               {| data := d2; timestamp := t2; ttl := life2 |}); auto.
    unfold cacheResult. apply lookup_insert_eq.
Qed.

(** [embedText] memoizes: when a text misses the embedding cache the
    model is invoked once, and a second request made within the hour that
    follows the store returns the same vector without invoking the model. *)
Theorem embedding_is_memoized :
  forall (hashQuery : jsstring -> jsstring) (V : Type) (extractor : jsstring -> V)
         (e : gmap jsstring (CachedEmbedding V)) now now' now2 now2' text calls,
    fst (getEmbedding hashQuery now text e) = None ->
    (now2 - now' <= EMBEDDING_TTL)%Z ->
    let first := embedText hashQuery extractor now now' text (calls, e) in
    let second := embedText hashQuery extractor now2 now2' text (snd first) in
    fst first = extractor text
    /\ fst second = extractor text
    /\ fst (snd second) = S calls.
Proof.
  intros hashQuery V extractor e now now' now2 now2' text calls Hmiss Hlive.
  cbv zeta.
  assert (Hfirst : exists e',
             embedText hashQuery extractor now now' text (calls, e)
             = (extractor text,
                (S calls, cacheEmbedding hashQuery now' text (extractor text) e'))).
  { unfold embedText.
    destruct (getEmbedding hashQuery now text e) as [[v|] e'] eqn:E;
      [discriminate|]. now exists e'. }
  destruct Hfirst as [e' ->]. cbn [snd].
  rewrite (embedText_reuses hashQuery extractor e' (extractor text) now' now2 now2'
             text (S calls) Hlive).
  repeat split.
Qed.

Lemma second_embedding_is_served_from_the_cache :
  let first := embedText (fun text => text) (fun text => length text) 0 5
                 (str "total balance") (0, ∅) in
  let second := embedText (fun text => text) (fun text => length text) 1000 1005
                  (str "total balance") (snd first) in
  fst first = 13 /\ fst second = 13 /\ fst (snd second) = 1.
Proof.
  apply (embedding_is_memoized (fun text => text) nat (fun text => length text) ∅
           0%Z 5%Z 1000%Z 1005%Z (str "total balance") 0);
    [reflexivity | unfold EMBEDDING_TTL; lia].
Defined.

End CacheTheorems.

(** ** More on the retriever *)

Module RetrieverTheorems.
Import JS Schema Cache Retriever Notions Scenarios ContextProperties
  ExpansionProperties.

Lemma starts_with_prefix (p s : jsstring) : starts_with p (p ++ s) = true.
Proof. apply starts_with_app. Qed.

Lemma includes_middle (a p b : jsstring) : includes (a ++ p ++ b) p = true.
Proof.
  induction a as [|x a IH]; simpl app.
  - destruct (p ++ b) eqn:E; simpl; rewrite <- ?E, starts_with_prefix; reflexivity.
  - simpl. rewrite IH. apply orb_true_r.
Qed.

(** Intent detection matches substrings of the lower-cased text, and the
    COUNT phrases are tried first: a query in which the letters "count"
    occur anywhere, in any letter case and also inside a longer word such
    as "accounts" or "country", is classified COUNT whatever else it
    says. *)
Theorem any_count_substring_means_COUNT :
  forall before w after,
    toLowerCase w = str "count" ->
    detectQueryIntent (before ++ w ++ after) = COUNT.
Proof.
  intros before w after Hw. unfold detectQueryIntent.
  assert (H : includes_any (toLowerCase (before ++ w ++ after))
                ["how many"; "count"; "total number"]%string = true).
  { unfold includes_any. simpl existsb. unfold toLowerCase in *.
    rewrite !List.map_app, Hw, includes_middle. now rewrite orb_true_r. }
  now rewrite H.
Qed.

Lemma top_accounts_is_a_COUNT_query :
  detectQueryIntent (str "Top 5 " ++ str "Accounts by balance") = COUNT.
Proof.
  apply (any_count_substring_means_COUNT (str "Top 5 Ac") (str "count")
           (str "s by balance")).
  reflexivity.
Defined.

Lemma filter_sublist {A} (f : A -> bool) (l : list A) : sublist (List.filter f l) l.
Proof.
  induction l as [|x l IH]; simpl; [constructor|].
  destruct (f x); now constructor.
Qed.

Lemma filter_twice {A} (f : A -> bool) (l : list A) :
  List.filter f (List.filter f l) = List.filter f l.
Proof.
  induction l as [|x l IH]; simpl; [reflexivity|].
  destruct (f x) eqn:E; simpl; [rewrite E; now f_equal|exact IH].
Qed.

(** The intent filter only removes patterns: what it keeps is in the
    order of the search (the ranking by score is not disturbed), and
    filtering again by the same intent changes nothing. *)
Theorem intent_filter_keeps_the_ranking :
  forall ms intent,
    sublist (filterModelsByIntent ms intent) ms
    /\ filterModelsByIntent (filterModelsByIntent ms intent) intent
       = filterModelsByIntent ms intent
    /\ length (filterModelsByIntent ms intent) <= length ms.
Proof.
  intros ms intent. unfold filterModelsByIntent.
  destruct (length (intentOperations intent) =? 0).
  - repeat split; [reflexivity|lia].
  - split; [apply filter_sublist|]. split; [apply filter_twice|].
    apply sublist_length, filter_sublist.
Qed.

Lemma unique_elem xs x : x ∈ unique xs <-> x ∈ xs.
Proof.
  induction xs as [|y xs IH]; simpl; [reflexivity|].
  rewrite !elem_of_cons, list_elem_of_In, List.filter_In, <- list_elem_of_In, IH.
  unfold jseq. destruct (bool_decide_reflect (y = x)) as [->|Hne]; simpl;
    intuition congruence.
Qed.

Lemma unique_NoDup xs : NoDup (unique xs).
Proof.
  induction xs as [|y xs IH]; simpl; constructor.
  - rewrite list_elem_of_In, List.filter_In. intros [_ H].
    unfold jseq in H. now rewrite bool_decide_eq_true_2 in H.
  - clear -IH. induction IH as [|z l Hz _ IH']; simpl; [constructor|].
    destruct (negb (jseq y z)); [|exact IH']. constructor; [|exact IH'].
    rewrite list_elem_of_In, List.filter_In, <- list_elem_of_In. tauto.
Qed.

(** On a cache miss [tables_involved] lists, without repetition, exactly
    the tables of the retrieved columns. *)
Theorem tables_involved_are_the_tables_of_the_columns :
  forall hashQuery env now now' query maxTokens c ctx,
    fst (getResult hashQuery now query c) = None ->
    fst (buildContext hashQuery env now now' query maxTokens c) = Done ctx ->
    NoDup (tables_involved ctx)
    /\ (forall t, t ∈ tables_involved ctx <->
                  exists col, col ∈ columns ctx /\ rc_table col = t).
Proof.
  intros hashQuery env now now' query maxTokens c ctx Hmiss.
  rewrite buildContext_miss by exact Hmiss. unfold assemble.
  destruct (match schema_field env with Some s => Done s | None => initialize env end)
    as [schema| |]; try discriminate.
  destruct (expandRelationships _ _) as [rels| |]; try discriminate.
  simpl. intros [= <-]. simpl. split; [apply unique_NoDup|].
  intros t. rewrite unique_elem, list_elem_of_In, List.in_map_iff.
  split; intros (col & H1 & H2); exists col; rewrite ?list_elem_of_In in *; auto.
Qed.

Lemma tables_of_the_portfolio_search :
  NoDup (tables_involved listing_context)
  /\ (forall t, t ∈ tables_involved listing_context <->
                exists col, col ∈ columns listing_context /\ rc_table col = t).
Proof.
  apply (tables_involved_are_the_tables_of_the_columns (fun text => text) single_env
           0%Z 0%Z listing_query 600 ∅ listing_context).
  - reflexivity.
  - rewrite buildContext_empty_cache. reflexivity.
Defined.

(** A query asked again while its context is at most five minutes old is
    answered from the cache with the very same context, whatever the
    search would return by then, and the cache is left as it is; asked
    later than that, the context is assembled anew. *)
Theorem repeated_query_is_served_from_the_cache :
  forall hashQuery env env' now now' now2 now2' query maxTokens maxTokens' c ctx,
    fst (getResult hashQuery now query c) = None ->
    fst (buildContext hashQuery env now now' query maxTokens c) = Done ctx ->
    let c' := snd (buildContext hashQuery env now now' query maxTokens c) in
    ((now2 - now' <= DEFAULT_TTL)%Z ->
     buildContext hashQuery env' now2 now2' query maxTokens' c' = (Done ctx, c'))
    /\ ((DEFAULT_TTL < now2 - now')%Z ->
        fst (buildContext hashQuery env' now2 now2' query maxTokens' c')
        = assemble env' query maxTokens').
Proof.
  intros hashQuery env env' now now' now2 now2' query maxTokens maxTokens' c ctx
    Hmiss Hctx.
  rewrite buildContext_miss in * by exact Hmiss.
  destruct (assemble env query maxTokens) as [ctx'| |] eqn:E; try discriminate.
  simpl in Hctx. injection Hctx as ->. simpl.
  set (c0 := snd (getResult hashQuery now query c)).
  assert (Hin : cacheResult hashQuery now' query ctx DEFAULT_TTL c0 !! hashQuery query
                = Some {| data := ctx; timestamp := now'; ttl := DEFAULT_TTL |}).
  { unfold cacheResult. apply lookup_insert_eq. }
  split.
  - intros Hlive. unfold buildContext.
    now rewrite (CacheProperties.getResult_live hashQuery _ now2 query _ Hin Hlive).
  - intros Hold. unfold buildContext.
    rewrite (CacheProperties.getResult_expired hashQuery _ now2 query _ Hin Hold).
    now destruct (assemble env' query maxTokens').
Qed.

Lemma second_listing_is_served_from_the_cache :
  let c' := snd (buildContext (fun text => text) single_env 0 10 listing_query 600 ∅) in
  ((1000 - 10 <= DEFAULT_TTL)%Z ->
   buildContext (fun text => text) empty_env 1000 1010 listing_query 600 c'
   = (Done listing_context, c'))
  /\ ((DEFAULT_TTL < 1000 - 10)%Z ->
      fst (buildContext (fun text => text) empty_env 1000 1010 listing_query 600 c')
      = assemble empty_env listing_query 600).
Proof.
  apply (repeated_query_is_served_from_the_cache (fun text => text) single_env
           empty_env 0%Z 10%Z 1000%Z 1010%Z listing_query 600 600 ∅ listing_context).
  - reflexivity.
  - rewrite buildContext_empty_cache. reflexivity.
Defined.

End RetrieverTheorems.

(** ** More on the relationship expansion *)

Module ExpansionTheorems.
Import JS Schema Retriever Notions Scenarios ExpansionProperties.

Lemma lookup_map {A B} (f : A -> B) (l : list A) i : map f l !! i = f <$> (l !! i).
Proof.
  revert i. induction l as [|x l IH]; intros [|i]; simpl; try reflexivity. apply IH.
Qed.

Lemma map_set_key_in {B} k (v : B) m : k ∈ map fst (map_set k v m).
Proof.
  induction m as [|[k' v'] m IH]; simpl; [left|].
  unfold jseq. destruct (bool_decide_reflect (k' = k)) as [->|Hne]; simpl;
    [left|now right].
Qed.

Lemma map_set_keeps_keys {B} k (v : B) m k0 :
  k0 ∈ map fst m -> k0 ∈ map fst (map_set k v m).
Proof.
  induction m as [|[k' v'] m IH]; simpl; [intros H; inversion H|].
  unfold jseq. destruct (bool_decide_reflect (k' = k)) as [->|Hne]; simpl;
    [auto|].
  intros H. apply elem_of_cons in H as [->|H]; [left|right; auto].
Qed.

Lemma dedupe_keys_kept rs : forall m r,
  r ∈ rs ->
  pairKey r ∈ map fst (fold_left (fun m r => map_set (pairKey r) r m) rs m).
Proof.
  assert (Hkeep : forall rs m k0,
             k0 ∈ map fst m ->
             k0 ∈ map fst (fold_left (fun m r => map_set (pairKey r) r m) rs m)).
  { clear. induction rs as [|r rs IH]; intros m k0 H; simpl; [exact H|].
    apply IH. now apply map_set_keeps_keys. }
  induction rs as [|r0 rs IH]; intros m r Hin; [inversion Hin|]. simpl.
  apply elem_of_cons in Hin as [->|Hin]; [|now apply IH].
  apply Hkeep, map_set_key_in.
Qed.

Lemma dedupe_represents rs r :
  r ∈ rs -> exists r', r' ∈ dedupe rs /\ pairKey r' = pairKey r.
Proof.
  intros Hin. pose proof (dedupe_keys_kept rs [] r Hin) as Hk.
  apply list_elem_of_fmap in Hk as ([k r'] & Hk & Hin'). simpl in Hk. subst k.
  destruct (dedupe_fold rs []) as (_ & Hkey & _); [constructor| |].
  - intros kv H. inversion H.
  - exists r'. split.
    + unfold dedupe. apply list_elem_of_fmap. now exists (pairKey r, r').
    + symmetry. exact (Hkey _ Hin').
Qed.

(** The list that the expansion returns holds at most one edge for each
    ordered pair of tables: two positions of the list never agree in both
    table names. *)
Theorem at_most_one_edge_per_pair :
  forall schema seeds rels,
    expandRelationships schema seeds = Done rels ->
    NoDup (map pairKey rels)
    /\ (forall i j r1 r2,
        rels !! i = Some r1 -> rels !! j = Some r2 ->
        from_table r1 = from_table r2 -> to_table r1 = to_table r2 ->
        i = j).
Proof.
  intros schema seeds rels Hrun.
  assert (Hnd : NoDup (map pairKey rels)).
  { unfold expandRelationships in Hrun. destruct schema as [schema|].
    - destruct (traverse_all schema seeds _) as [st| |]; try discriminate.
      injection Hrun as <-. apply dedupe_keys.
    - injection Hrun as <-. constructor. }
  split; [exact Hnd|].
  intros i j r1 r2 Hi Hj Hf Ht.
  apply (NoDup_lookup _ i j (pairKey r1) Hnd).
  - now rewrite lookup_map, Hi.
  - rewrite lookup_map, Hj. simpl. unfold pairKey. now rewrite Hf, Ht.
Qed.

Lemma one_edge_per_pair_on_the_chain :
  NoDup (map pairKey
           [ edge (str "t0") (relationship "t1" "id:id");
             edge (str "t1") (relationship "t2" "id:id");
             edge (str "t2") (relationship "t3" "id:id") ])
  /\ (forall i j r1 r2,
        [ edge (str "t0") (relationship "t1" "id:id");
          edge (str "t1") (relationship "t2" "id:id");
          edge (str "t2") (relationship "t3" "id:id") ] !! i = Some r1 ->
        [ edge (str "t0") (relationship "t1" "id:id");
          edge (str "t1") (relationship "t2" "id:id");
          edge (str "t2") (relationship "t3" "id:id") ] !! j = Some r2 ->
        from_table r1 = from_table r2 -> to_table r1 = to_table r2 ->
        i = j).
Proof.
  apply (at_most_one_edge_per_pair (Some chain_schema) [str "t0"]).
  vm_compute. reflexivity.
Defined.

(** [plain schema]: no relationship of the registry points to a name that
    [Object.prototype] would answer for. *)
Definition plain (schema : FullSchema) : Prop :=
  forall u tableSchema rel,
    get schema u = Own tableSchema -> rel ∈ Schema.relationships tableSchema ->
    get schema (table rel) <> Inherited.

Lemma own_property_in {A} (o : list (jsstring * A)) k v :
  own_property o k = Some v -> (k, v) ∈ o.
Proof.
  induction o as [|[k' v'] o IH]; simpl; [discriminate|].
  unfold jseq. destruct (bool_decide_reflect (k' = k)) as [->|Hne].
  - intros [= ->]. left.
  - intros H. right. auto.
Qed.

Lemma get_own_in {A} (o : list (jsstring * A)) k v : get o k = Own v -> (k, v) ∈ o.
Proof.
  unfold get. destruct (own_property o k) as [v'|] eqn:E.
  - intros [= ->]. now apply own_property_in.
  - now destruct (bool_decide _).
Qed.

Lemma finance_schema_plain : plain finance_schema.
Proof.
  assert (H : Forall (fun kv =>
                        Forall (fun rel => get finance_schema (table rel) <> Inherited)
                          (Schema.relationships (snd kv))) finance_schema).
  { unfold finance_schema, registry_of. simpl map.
    repeat (constructor; [simpl; repeat (constructor; [vm_compute; discriminate|]);
                          constructor|]).
    constructor. }
  intros u tableSchema rel Hget Hrel. apply get_own_in in Hget.
  rewrite Forall_forall in H. specialize (H _ Hget). simpl in H.
  rewrite Forall_forall in H. now apply H.
Qed.

(** The expansion never fails for want of fuel, and it returns a list
    whenever no seed and no relationship target of the registry is the
    name of a member of [Object.prototype]; with such a name as the first
    seed the loop over the relationships of the table throws. *)
Theorem expansion_returns_unless_a_name_is_inherited :
  forall schema seeds,
    plain schema ->
    (forall t, t ∈ seeds -> get schema t <> Inherited) ->
    (exists rels, expandRelationships (Some schema) seeds = Done rels)
    /\ (forall name, name ∈ object_prototype_keys ->
        own_property schema name = None ->
        expandRelationships (Some schema) (name :: seeds) = Thrown notIterable).
Proof.
  intros schema seeds Hplain Hseeds. split.
  - now apply expandRelationships_returns.
  - intros name Hname Hown. unfold expandRelationships.
    rewrite traverse_all_cons. simpl.
    rewrite bool_decide_eq_false_2 by set_solver.
    unfold get. rewrite Hown, bool_decide_eq_true_2 by exact Hname. reflexivity.
Qed.

Lemma expansion_on_the_catalog :
  (exists rels,
      expandRelationships (Some finance_schema) [str "accounts"; str "nowhere"]
      = Done rels)
  /\ (forall name, name ∈ object_prototype_keys ->
        own_property finance_schema name = None ->
        expandRelationships (Some finance_schema)
          (name :: [str "accounts"; str "nowhere"]) = Thrown notIterable).
Proof.
  apply (expansion_returns_unless_a_name_is_inherited finance_schema
           [str "accounts"; str "nowhere"] finance_schema_plain).
  intros t Hin.
  apply elem_of_cons in Hin as [->|Hin]; [vm_compute; discriminate|].
  apply list_elem_of_singleton in Hin. subst t. vm_compute. discriminate.
Defined.

(** What the traversal leaves behind.  [complete schema st u]: every
    relationship of the own table [u] has been pushed.  [settled]: the
    list of edges and the visited set have only grown, and every table
    visited meanwhile is complete. *)
Definition complete (schema : FullSchema) (st : expansion) (u : jsstring) : Prop :=
  forall tableSchema rel,
    get schema u = Own tableSchema -> rel ∈ Schema.relationships tableSchema ->
    edge u rel ∈ pushed st.

Definition settled (schema : FullSchema) (st st' : expansion) : Prop :=
  (forall r, r ∈ pushed st -> r ∈ pushed st')
  /\ (forall u, u ∈ visited st -> u ∈ visited st')
  /\ (forall u, u ∈ visited st' -> u ∈ visited st \/ complete schema st' u).

Lemma settled_refl schema st : settled schema st st.
Proof. repeat split; auto. Qed.

Lemma settled_trans schema st1 st2 st3 :
  settled schema st1 st2 -> settled schema st2 st3 -> settled schema st1 st3.
Proof.
  intros (P12 & V12 & C12) (P23 & V23 & C23). repeat split; auto.
  intros u Hu. destruct (C23 u Hu) as [H2|Hc]; [|now right].
  destruct (C12 u H2) as [H1|Hc]; [now left|right].
  intros tableSchema rel Hg Hin. apply P23. exact (Hc tableSchema rel Hg Hin).
Qed.

Lemma for_relationships_settled schema visit tableName deeper rels : forall st st',
  (forall u s s', visit u s = Done s' -> settled schema s s') ->
  for_relationships visit tableName deeper rels st = Done st' ->
  settled schema st st'
  /\ (forall rel, rel ∈ rels -> edge tableName rel ∈ pushed st').
Proof.
  induction rels as [|rel rels IH]; intros st st' Hvisit; simpl.
  - intros [= <-]. split; [apply settled_refl|]. intros rel Hin. inversion Hin.
  - set (st1 := Expansion (pushed st ++ [edge tableName rel]) (visited st)).
    assert (H01 : settled schema st st1).
    { repeat split; simpl; auto. intros r Hr. apply elem_of_app. now left. }
    assert (Hrel : edge tableName rel ∈ pushed st1).
    { simpl. apply elem_of_app. right. left. }
    assert (Hend : forall st2,
               settled schema st1 st2 ->
               for_relationships visit tableName deeper rels st2 = Done st' ->
               settled schema st st'
               /\ (forall rel0, rel0 ∈ rel :: rels -> edge tableName rel0 ∈ pushed st')).
    { intros st2 H12 Hrest. destruct (IH st2 st' Hvisit Hrest) as [H2 Hrels].
      split; [eapply settled_trans; [exact H01|eapply settled_trans; eauto]|].
      intros rel0 Hin. apply elem_of_cons in Hin as [->|Hin]; [|auto].
      apply (proj1 H2), (proj1 H12), Hrel. }
    destruct deeper.
    + destruct (visit (table rel) st1) as [st2| |] eqn:Hv; try discriminate.
      apply Hend. exact (Hvisit _ _ _ Hv).
    + apply Hend, settled_refl.
Qed.

Lemma traverse_settled schema fuel : forall t d st st',
  traverse schema fuel t d st = Done st' ->
  settled schema st st' /\ (d <= 2 -> t ∈ visited st').
Proof.
  induction fuel as [|fuel IH]; intros t d st st'; simpl; [discriminate|].
  destruct (2 <? d) eqn:Hd; simpl.
  { intros [= <-]. split; [apply settled_refl|]. apply Nat.ltb_lt in Hd. lia. }
  destruct (bool_decide_reflect (t ∈ visited st)) as [Hin|Hout]; simpl.
  { intros [= <-]. split; [apply settled_refl|auto]. }
  set (st0 := Expansion (pushed st) ({[t]} ∪ visited st)).
  destruct (get schema t) as [tableSchema| |] eqn:Hg; [|discriminate|].
  - intros Hloop.
    destruct (for_relationships_settled schema _ t _ _ st0 st'
                (fun u s s' H => proj1 (IH u (S d) s s' H)) Hloop)
      as [(P & V & C) Hall].
    split; [|intros _; apply V; simpl; apply elem_of_union; left; now apply elem_of_singleton].
    repeat split.
    + exact P.
    + intros u Hu. apply V. simpl. apply elem_of_union. now right.
    + intros u Hu. destruct (C u Hu) as [H0|Hc]; [|now right].
      simpl in H0. apply elem_of_union in H0 as [Ht|Hv]; [|now left].
      apply elem_of_singleton in Ht. subst u. right.
      intros tableSchema' rel Hg' Hrel. rewrite Hg in Hg'.
      injection Hg' as <-. now apply Hall.
  - intros [= <-].
    split; [|intros _; simpl; apply elem_of_union; left; now apply elem_of_singleton].
    repeat split; simpl; auto; [intros u Hu; apply elem_of_union; now right|].
    intros u Hu. apply elem_of_union in Hu as [Ht|Hv]; [|now left].
    apply elem_of_singleton in Ht. subst u. right.
    intros tableSchema rel Hg'. congruence.
Qed.

Lemma traverse_all_settled schema seeds : forall st st',
  traverse_all schema seeds st = Done st' ->
  settled schema st st' /\ (forall t, t ∈ seeds -> t ∈ visited st').
Proof.
  induction seeds as [|t rest IH]; intros st st'.
  - simpl. intros [= <-]. split; [apply settled_refl|]. intros t Hin. inversion Hin.
  - rewrite traverse_all_cons.
    destruct (traverse schema 3 t 0 st) as [st1| |] eqn:Ht; try discriminate.
    intros Hrest. destruct (traverse_settled schema 3 t 0 st st1 Ht) as [H01 Hvis].
    destruct (IH st1 st' Hrest) as [H12 Hseeds].
    split; [eapply settled_trans; eauto|].
    intros u Hu. apply elem_of_cons in Hu as [->|Hu]; [|auto].
    apply (proj1 (proj2 H12)), Hvis. lia.
Qed.

(** Every relationship of every seed table is represented in the list
    returned: the list holds an edge with the same key (the two table
    names written one after the other), and with the same two table names
    when no other pair of tables of the list is written the same way. *)
Theorem relationships_of_the_seeds_are_returned :
  forall schema seeds rels t tableSchema rel,
    expandRelationships (Some schema) seeds = Done rels ->
    t ∈ seeds ->
    get schema t = Own tableSchema ->
    rel ∈ Schema.relationships tableSchema ->
    exists r, r ∈ rels /\ pairKey r = pairKey (edge t rel)
              /\ registry_edge schema r.
Proof.
  intros schema seeds rels t tableSchema rel Hrun Hseed Hg Hrel.
  unfold expandRelationships in Hrun.
  destruct (traverse_all schema seeds _) as [st| |] eqn:Ht; try discriminate.
  injection Hrun as <-.
  destruct (traverse_all_settled schema seeds _ st Ht) as [(_ & _ & C) Hvis].
  destruct (C t (Hvis t Hseed)) as [Hempty|Hc];
    [simpl in Hempty; now apply not_elem_of_empty in Hempty|].
  destruct (dedupe_represents (pushed st) _ (Hc tableSchema rel Hg Hrel))
    as (r & Hin & Hkey).
  exists r. repeat split; [exact Hin|exact Hkey|].
  apply dedupe_subset in Hin.
  pose proof (traverse_all_near schema seeds seeds (Expansion [] ∅) st
                (fun t H => H) (Forall_nil_2 _) Ht) as Hall.
  rewrite Forall_forall in Hall. exact (proj2 (Hall r Hin)).
Qed.

Lemma transactions_of_the_accounts_are_returned :
  exists r,
    r ∈ dedupe (pushed (match traverse_all finance_schema [str "accounts"]
                                (Expansion [] ∅) with
                        | Done st => st
                        | _ => Expansion [] ∅
                        end))
    /\ pairKey r
       = pairKey (edge (str "accounts") (relationship "transactions" "id:account_id"))
    /\ registry_edge finance_schema r.
Proof.
  apply (relationships_of_the_seeds_are_returned finance_schema [str "accounts"]
           _ (str "accounts") accounts_table
           (relationship "transactions" "id:account_id")).
  - vm_compute. reflexivity.
  - left.
  - vm_compute. reflexivity.
  - right. left.
Defined.

(** The traversal is depth-first with one visited set for all seeds, so
    the list returned depends on the order of the seeds, and a table
    within two relationships of a seed can be left out.  In the registry
    A -> x -> u -> v -> w, B -> u, table v is two relationships away from
    the seed B; its relationship to w is returned for the seeds B, A and
    not for the seeds A, B, where u is first met at depth 2. *)
Theorem expansion_depends_on_the_order_of_the_seeds :
  let e := edge (str "v") (relationship "w" "id:id") in
  within detour_schema [str "A"; str "B"] 2 (str "v")
  /\ (exists rels,
        expandRelationships (Some detour_schema) [str "B"; str "A"] = Done rels
        /\ e ∈ rels)
  /\ (exists rels,
        expandRelationships (Some detour_schema) [str "A"; str "B"] = Done rels
        /\ e ∉ rels).
Proof.
  cbv zeta. split; [|split].
  - apply (within_step _ _ 1 (str "u")); [|vm_compute; left].
    apply (within_step _ _ 0 (str "B")); [|vm_compute; left].
    constructor. right. left.
  - eexists. split; [vm_compute; reflexivity|].
    do 2 right. left.
  - eexists. split; [vm_compute; reflexivity|].
    intros Hin. repeat (apply elem_of_cons in Hin as [Hin|Hin]; [discriminate|]).
    inversion Hin.
Qed.

End ExpansionTheorems.

(** ** De-duplication of the expanded relationships *)

Module ExpansionClaims.
Import JS Schema Retriever Notions Scenarios ExpansionProperties ExpansionTheorems.

(** [separated schema]: two relationships of the registry with different
    (from, to) pairs have different keys. *)
Definition separated (schema : FullSchema) : Prop :=
  forall r1 r2,
    registry_edge schema r1 -> registry_edge schema r2 ->
    pairKey r1 = pairKey r2 ->
    from_table r1 = from_table r2 /\ to_table r1 = to_table r2.

(** The relationships of a registry, table by table, and the test that
    decides [separated] on them. *)
Definition edges_of (schema : FullSchema) : list RetrievedRelationship :=
  flat_map (fun entry => map (edge (fst entry)) (Schema.relationships (snd entry)))
    schema.

Definition same_pair (r1 r2 : RetrievedRelationship) : bool :=
  jseq (from_table r1) (from_table r2) && jseq (to_table r1) (to_table r2).

Definition separatedb (edges : list RetrievedRelationship) : bool :=
  forallb (fun r1 =>
             forallb (fun r2 => implb (jseq (pairKey r1) (pairKey r2)) (same_pair r1 r2))
               edges)
    edges.

Lemma registry_edge_listed schema r : registry_edge schema r -> r ∈ edges_of schema.
Proof.
  intros (tableSchema & rel & Hget & Hrel & ->). apply get_own_in in Hget.
  unfold edges_of. apply list_elem_of_In, List.in_flat_map.
  exists (from_table r, tableSchema). split; [now apply list_elem_of_In|].
  simpl. apply List.in_map. now apply list_elem_of_In.
Qed.

Lemma separatedb_sound schema : separatedb (edges_of schema) = true -> separated schema.
Proof.
  unfold separatedb. rewrite List.forallb_forall. intros H r1 r2 H1 H2 Hkey.
  apply registry_edge_listed, list_elem_of_In in H1.
  apply registry_edge_listed, list_elem_of_In in H2.
  specialize (H r1 H1). rewrite List.forallb_forall in H. specialize (H r2 H2).
  unfold jseq at 1 in H. rewrite bool_decide_eq_true_2 in H by exact Hkey.
  simpl in H. unfold same_pair, jseq in H.
  apply andb_true_iff in H as [Hf Ht].
  apply bool_decide_eq_true in Hf. apply bool_decide_eq_true in Ht. auto.
Qed.

(** The catalog of [loadSchemaRegistry] keeps the keys of different pairs
    apart. *)
Lemma finance_schema_separated : separated finance_schema.
Proof. apply separatedb_sound. vm_compute. reflexivity. Qed.

(** C8.  In a registry whose table names keep the keys of different
    pairs apart, as the catalog of [loadSchemaRegistry] does, the list
    that the expansion returns is the list of the pushed edges
    de-duplicated exactly by the (from_table, to_table) pair: it holds at
    most one edge for any ordered pair of table names, every pair that
    the traversal pushed is the pair of an edge of the list (two pushed
    edges with different pairs are both represented, none is merged into
    another), and every edge of the list was pushed. *)
Theorem C8_one_edge_for_each_pushed_pair :
  forall schema seeds st,
    separated schema ->
    traverse_all schema seeds (Expansion [] ∅) = Done st ->
    exists rels,
      expandRelationships (Some schema) seeds = Done rels
      /\ (forall i j r1 r2,
            rels !! i = Some r1 -> rels !! j = Some r2 ->
            from_table r1 = from_table r2 -> to_table r1 = to_table r2 ->
            i = j)
      /\ (forall r,
            r ∈ pushed st ->
            exists r', r' ∈ rels
                       /\ from_table r' = from_table r /\ to_table r' = to_table r)
      /\ (forall r1 r2,
            r1 ∈ pushed st -> r2 ∈ pushed st ->
            (from_table r1, to_table r1) <> (from_table r2, to_table r2) ->
            exists r1' r2',
              r1' ∈ rels /\ r2' ∈ rels /\ r1' <> r2'
              /\ (from_table r1', to_table r1') = (from_table r1, to_table r1)
              /\ (from_table r2', to_table r2') = (from_table r2, to_table r2))
      /\ (forall r, r ∈ rels -> r ∈ pushed st).
Proof.
  intros schema seeds st Hsep Hrun.
  exists (dedupe (pushed st)). unfold expandRelationships. rewrite Hrun.
  split; [reflexivity|].
  pose proof (traverse_all_near schema seeds seeds (Expansion [] ∅) st
                (fun t H => H) (Forall_nil_2 _) Hrun) as Hnear.
  rewrite Forall_forall in Hnear.
  assert (Hkept : forall r,
             r ∈ pushed st ->
             exists r', r' ∈ dedupe (pushed st)
                        /\ from_table r' = from_table r /\ to_table r' = to_table r).
  { intros r Hin. destruct (dedupe_represents (pushed st) r Hin) as (r' & Hin' & Hkey).
    exists r'. split; [exact Hin'|].
    apply Hsep; [|apply Hnear, Hin|exact Hkey].
    apply Hnear, dedupe_subset, Hin'. }
  split; [|split; [exact Hkept|split; [|intros r; apply dedupe_subset]]].
  - intros i j r1 r2 Hi Hj Hf Ht.
    apply (NoDup_lookup _ i j (pairKey r1) (dedupe_keys (pushed st))).
    + now rewrite lookup_map, Hi.
    + rewrite lookup_map, Hj. simpl. unfold pairKey. now rewrite Hf, Ht.
  - intros r1 r2 H1 H2 Hdiff.
    destruct (Hkept r1 H1) as (r1' & Hin1 & Hf1 & Ht1).
    destruct (Hkept r2 H2) as (r2' & Hin2 & Hf2 & Ht2).
    exists r1', r2'. repeat split; auto; [|now rewrite Hf1, Ht1|now rewrite Hf2, Ht2].
    intros ->. apply Hdiff. now rewrite <- Hf1, <- Ht1, Hf2, Ht2.
Qed.

(** On the catalog, from the seed "accounts". *)
Lemma C8_expansion_from_accounts_keeps_every_pair :
  let st := match traverse_all finance_schema [str "accounts"] (Expansion [] ∅) with
            | Done st => st
            | _ => Expansion [] ∅
            end in
  exists rels,
    expandRelationships (Some finance_schema) [str "accounts"] = Done rels
    /\ (forall i j r1 r2,
          rels !! i = Some r1 -> rels !! j = Some r2 ->
          from_table r1 = from_table r2 -> to_table r1 = to_table r2 ->
          i = j)
    /\ (forall r,
          r ∈ pushed st ->
          exists r', r' ∈ rels
                     /\ from_table r' = from_table r /\ to_table r' = to_table r)
    /\ (forall r1 r2,
          r1 ∈ pushed st -> r2 ∈ pushed st ->
          (from_table r1, to_table r1) <> (from_table r2, to_table r2) ->
          exists r1' r2',
            r1' ∈ rels /\ r2' ∈ rels /\ r1' <> r2'
            /\ (from_table r1', to_table r1') = (from_table r1, to_table r1)
            /\ (from_table r2', to_table r2') = (from_table r2, to_table r2))
    /\ (forall r, r ∈ rels -> r ∈ pushed st).
Proof.
  intros st.
  apply (C8_one_edge_for_each_pushed_pair finance_schema [str "accounts"] st
           finance_schema_separated).
  vm_compute. reflexivity.
Defined.

End ExpansionClaims.

(** ** The accessors of the schema registry *)

Module RegistryTheorems.
Import JS Schema Validator Registry ValidatorProperties ValidatorTheorems.

Lemma own_property_keys {A} (o : list (jsstring * A)) k :
  (exists v, own_property o k = Some v) <-> k ∈ keys o.
Proof.
  unfold keys. induction o as [|[k' v'] o IH]; simpl.
  - split; [intros [v H]; discriminate|intros H; inversion H].
  - destruct (jseq_spec k' k) as [->|Hne].
    + split; [intros _; left|intros _; eauto].
    + rewrite IH. split; [intros H; now right|].
      intros H. apply elem_of_cons in H as [->|H]; [congruence|exact H].
Qed.

Lemma validateTableName_defined schema t :
  validateTableName schema t = defined (get schema t).
Proof.
  unfold validateTableName, get. destruct (own_property schema t); [reflexivity|].
  now destruct (bool_decide _).
Qed.

(** [validateTableName] answers true for the names of the registry and for
    the names of the members of [Object.prototype], whatever the registry
    holds, and for no other name; the table check of the validator
    accepts the same names. *)
Theorem table_names_accepted :
  forall schema t l,
    (validateTableName schema t = true
     <-> t ∈ getTableNames schema \/ t ∈ object_prototype_keys)
    /\ fst (validateTableExists t schema l) = validateTableName schema t
    /\ (validateTableName schema t = false ->
        getTableSchema schema t = Missing
        /\ snd (validateTableExists t schema l)
           = push_error (tableMissing schema t) l).
Proof.
  intros schema t l. split; [|split].
  - unfold validateTableName, getTableNames.
    destruct (own_property schema t) as [v|] eqn:E.
    + split; [intros _; left; apply own_property_keys; eauto|reflexivity].
    + rewrite bool_decide_eq_true. split; [now right|]. intros [H|H]; [|exact H].
      apply own_property_keys in H as [v H]. congruence.
  - rewrite validateTableName_defined. unfold validateTableExists.
    now destruct (defined (get schema t)).
  - rewrite validateTableName_defined. unfold validateTableExists, getTableSchema.
    destruct (get schema t); simpl; try discriminate. auto.
Qed.

(** A table name that [validateTableName] accepts and the registry does
    not hold makes the two column accessors throw. *)
Theorem accepted_name_outside_the_registry_throws :
  forall schema t c,
    validateTableName schema t = true ->
    t ∉ getTableNames schema ->
    validateColumn schema t c = inl (in_undefined c)
    /\ isColumnAggregatable schema t c = inl (undefined_read c).
Proof.
  intros schema t c Hacc Hout. unfold validateTableName in Hacc.
  unfold validateColumn, isColumnAggregatable, get.
  destruct (own_property schema t) as [v|] eqn:E.
  - exfalso. apply Hout. apply own_property_keys. eauto.
  - rewrite Hacc. auto.
Qed.

Lemma toString_is_accepted_and_throws :
  validateColumn finance_schema (str "toString") (str "id")
  = inl (in_undefined (str "id"))
  /\ isColumnAggregatable finance_schema (str "toString") (str "id")
     = inl (undefined_read (str "id")).
Proof.
  apply (accepted_name_outside_the_registry_throws finance_schema (str "toString")
           (str "id")).
  - vm_compute. reflexivity.
  - vm_compute. intros H.
    repeat (apply elem_of_cons in H as [H|H]; [discriminate|]). inversion H.
Defined.

(** The column accessor of the registry and the column check of the
    validator agree: where [validateColumn] answers true the validator
    reports nothing, where it answers false on a table of the registry
    the validator reports the column as missing, and where it throws the
    validator throws. *)
Theorem column_checks_agree :
  forall schema t c l,
    c <> str "*" ->
    match validateColumn schema t c with
    | inr true => validateColumnExists t c (get schema t) l = Normal l
    | inr false =>
        match get schema t with
        | Own ts =>
            validateColumnExists t c (get schema t) l
            = Normal (push_error (columnMissing t c ts) l)
        | _ => get schema t = Missing
        end
    | inl _ => exists m, validateColumnExists t c (get schema t) l = Throws m l
    end.
Proof.
  intros schema t c l Hstar. apply jseq_false in Hstar.
  unfold validateColumn, validateColumnExists. rewrite Hstar.
  destruct (get schema t) as [ts| |]; [|eauto|reflexivity].
  unfold get. destruct (own_property (columns ts) c); [reflexivity|].
  destruct (bool_decide _); reflexivity.
Qed.

Lemma users_email_passes_both_checks :
  validateColumnExists (str "users") (str "email")
    (get finance_schema (str "users")) (Log [] [])
  = Normal (Log [] []).
Proof.
  apply (column_checks_agree finance_schema (str "users") (str "email") (Log [] [])).
  vm_compute. discriminate.
Defined.

(** The flag [aggregatable] is read in two ways.  A column for which
    [isColumnAggregatable] answers true never gets the warning of the
    validator; a column that carries no flag gets the answer false from
    [isColumnAggregatable] and no warning from the validator either; and
    a warning is given only where [isColumnAggregatable] answers false. *)
Theorem aggregatable_flag_is_read_in_two_ways :
  forall schema t c f ts info l,
    c <> str "*" ->
    get schema t = Own ts ->
    get (columns ts) c = Own info ->
    exists es ws,
      validateAggregation t c f (get schema t) l
      = Normal (Log (log_errors l ++ es) (log_warnings l ++ ws))
      /\ (isColumnAggregatable schema t c = inr true -> ws = [])
      /\ (aggregatable info = None ->
          isColumnAggregatable schema t c = inr false /\ ws = [])
      /\ (ws <> [] -> isColumnAggregatable schema t c = inr false).
Proof.
  intros schema t c f ts info l Hstar Ht Hc.
  rewrite Ht, (validateAggregation_own t c f ts info l Hstar Hc).
  eexists. eexists. split; [reflexivity|].
  unfold isColumnAggregatable. rewrite Ht, Hc.
  destruct (aggregatable info) as [a|]; simpl.
  - destruct (jseq a (str "false")); simpl.
    + split; [discriminate|]. split; [discriminate|reflexivity].
    + rewrite Bool.andb_false_r. simpl.
      split; [reflexivity|]. split; [discriminate|]. intros H. now contradiction H.
  - split; [discriminate|]. split; [auto|]. intros H. now contradiction H.
Qed.

Lemma users_id_carries_no_flag :
  exists es ws,
    validateAggregation (str "users") (str "id") (str "SUM")
      (get finance_schema (str "users")) (Log [] [])
    = Normal (Log ([] ++ es) ([] ++ ws))
    /\ (isColumnAggregatable finance_schema (str "users") (str "id") = inr true ->
        ws = [])
    /\ (@None jsstring = None ->
        isColumnAggregatable finance_schema (str "users") (str "id") = inr false
        /\ ws = [])
    /\ (ws <> [] ->
        isColumnAggregatable finance_schema (str "users") (str "id") = inr false).
Proof.
  apply (aggregatable_flag_is_read_in_two_ways finance_schema (str "users") (str "id")
           (str "SUM") users_table
           {| type := str "uuid"; col_description := Some (str "Primary key");
              values := None; unit := None; aggregatable := None |} (Log [] [])).
  - vm_compute. discriminate.
  - vm_compute. reflexivity.
  - vm_compute. reflexivity.
Defined.

End RegistryTheorems.

(** ** The query planner *)

Module PlannerTheorems.
Import JS Planner ValidatorProperties ValidatorTheorems ExpansionTheorems.

Lemma str_inj a b : str a = str b -> a = b.
Proof.
  unfold str. intros H.
  rewrite <- (string_of_list_ascii_of_string a), <- (string_of_list_ascii_of_string b).
  f_equal. revert H. generalize (list_ascii_of_string a) (list_ascii_of_string b).
  induction l as [|x l IH]; intros [|y l']; simpl; try discriminate; [reflexivity|].
  intros [= Hxy Hl]. f_equal; [|now apply IH].
  rewrite <- (ascii_N_embedding x), <- (ascii_N_embedding y). now rewrite Hxy.
Qed.

Lemma decimal_inj a b : decimal a = decimal b -> a = b.
Proof.
  unfold decimal. intros H. apply str_inj in H.
  apply (f_equal NilEmpty.uint_of_string) in H. rewrite !NilEmpty.usu in H.
  injection H as H. apply (f_equal N.of_uint) in H.
  now rewrite !DecimalN.Unsigned.of_to in H.
Qed.

(** The plan holds one query for each widget hint, in the order of the
    hints: the query at index i is named query_(i+1) and carries the
    visualization type, the purpose and the metrics of hint i.  The names
    are pairwise different, and the estimated time is 800 ms for each
    query. *)
Theorem plan_has_one_query_per_hint :
  forall now intent,
    length (queries (planQueries now intent)) = length (widget_hints intent)
    /\ estimated_execution_time_ms (planQueries now intent)
       = (N.of_nat (length (widget_hints intent)) * 800)%N
    /\ (forall i hint,
          widget_hints intent !! i = Some hint ->
          exists q,
            queries (planQueries now intent) !! i = Some q
            /\ query_id q = str "query_" ++ decimal (N.of_nat (i + 1))
            /\ visualization_type q = suggested_viz_type hint
            /\ qs_description q = purpose hint
            /\ expected_columns q = suggested_metrics hint)
    /\ NoDup (map query_id (queries (planQueries now intent))).
Proof.
  intros now intent. unfold planQueries. cbn [queries estimated_execution_time_ms].
  rewrite length_imap. split; [reflexivity|]. split; [reflexivity|]. split.
  - intros i hint Hi. exists (querySpec intent i hint).
    rewrite list_lookup_imap, Hi. repeat split; reflexivity.
  - apply NoDup_alt. intros i j x Hi Hj.
    rewrite lookup_map, list_lookup_imap in Hi, Hj.
    destruct (widget_hints intent !! i) as [hi|]; [|discriminate].
    destruct (widget_hints intent !! j) as [hj|]; [|discriminate].
    simpl in Hi, Hj. injection Hi as <-. injection Hj as Hj.
    apply decimal_inj in Hj. lia.
Qed.

Lemma trends_split :
  split_at_first (str "{time_range}") trends_template
  = Some (str "Show portfolio value trends over the last ",
          str " with date and portfolio value for each day").
Proof. vm_compute. reflexivity. Qed.

Lemma trends_replaced r :
  replace trends_template (str "{time_range}") r
  = str "Show portfolio value trends over the last "
    ++ substitution (str "{time_range}")
         (str "Show portfolio value trends over the last ")
         (str " with date and portfolio value for each day") r
    ++ str " with date and portfolio value for each day".
Proof. unfold replace. now rewrite trends_split. Qed.

Lemma nlQuery_known metrics timeRange ty :
  ty ∈ map str [ "PORTFOLIO"; "TRANSACTIONS"; "BUDGETS"; "FINANCIAL_GOALS" ]%string ->
  nlQuery ty timeRange metrics <> [].
Proof.
  intros Hin. unfold nlQuery.
  repeat (apply elem_of_cons in Hin as [->|Hin];
          [destruct (has metrics "ticker" && has metrics "market_value"),
             (has metrics "sector"), (has metrics "gains"),
             (has metrics "portfolio_value"), (has metrics "category"),
             (has metrics "date"), (has metrics "merchant"), (has metrics "spent");
           try (vm_compute; discriminate);
           change (jseq (str "PORTFOLIO") (str "PORTFOLIO")) with true; cbv iota;
           rewrite trends_replaced; discriminate|]).
  inversion Hin.
Qed.

(** A query of the plan has an empty text exactly when the dashboard type
    is none of PORTFOLIO, TRANSACTIONS, BUDGETS and FINANCIAL_GOALS: for a
    CUSTOM dashboard every query is planned with the empty text. *)
Theorem query_text_is_empty_outside_the_four_dashboards :
  forall now intent q,
    q ∈ queries (planQueries now intent) ->
    (nl_query q = []
     <-> dashboard_type intent
         ∉ map str [ "PORTFOLIO"; "TRANSACTIONS"; "BUDGETS"; "FINANCIAL_GOALS" ]%string).
Proof.
  intros now intent q Hq. unfold planQueries in Hq. cbn [queries] in Hq.
  apply elem_of_lookup_imap_1 in Hq as (i & hint & -> & _). cbn [querySpec nl_query].
  split.
  - intros Hempty Hin. exact (nlQuery_known _ _ _ Hin Hempty).
  - intros Hout. unfold nlQuery.
    destruct (jseq_spec (dashboard_type intent) (str "PORTFOLIO")) as [E|_];
      [exfalso; apply Hout; rewrite E; left|].
    destruct (jseq_spec (dashboard_type intent) (str "TRANSACTIONS")) as [E|_];
      [exfalso; apply Hout; rewrite E; right; left|].
    destruct (jseq_spec (dashboard_type intent) (str "BUDGETS")) as [E|_];
      [exfalso; apply Hout; rewrite E; do 2 right; left|].
    destruct (jseq_spec (dashboard_type intent) (str "FINANCIAL_GOALS")) as [E|_];
      [exfalso; apply Hout; rewrite E; do 3 right; left|].
    reflexivity.
Qed.

Definition custom_intent : DashboardIntent :=
  {| dashboard_type := str "CUSTOM"; user_goal := str "see my net worth";
     focus_areas := [str "net worth"]; time_range := None; suggested_widgets := 1;
     widget_hints :=
       [ {| purpose := str "Net worth"; suggested_viz_type := str "kpi";
            suggested_metrics := [str "net_worth"] |} ] |}.

Lemma custom_dashboard_plans_the_empty_text :
  nl_query (querySpec custom_intent 0
              {| purpose := str "Net worth"; suggested_viz_type := str "kpi";
                 suggested_metrics := [str "net_worth"] |}) = [].
Proof.
  apply (proj2 (query_text_is_empty_outside_the_four_dashboards 0%N custom_intent _
                  ltac:(vm_compute; left))).
  vm_compute. intros H.
  repeat (apply elem_of_cons in H as [H|H]; [discriminate|]). inversion H.
Defined.

Lemma substitution_plain matched before after r :
  36%N ∉ r -> substitution matched before after r = r.
Proof.
  induction r as [|c r IH]; intros Hno; [reflexivity|].
  apply not_elem_of_cons in Hno as [Hc Hr]. specialize (IH Hr).
  cbn [substitution]. destruct (N.eqb_spec c 36) as [->|_]; [congruence|].
  now rewrite IH.
Qed.

(** The trends query of a PORTFOLIO dashboard names the time range of the
    intent, or 30_days when the intent has none or an empty one, provided
    that the time range holds no dollar sign (which [replace] would read
    as the start of a replacement pattern). *)
Theorem trends_query_names_the_time_range :
  forall timeRange metrics,
    has metrics "ticker" && has metrics "market_value" = false ->
    has metrics "sector" = false ->
    has metrics "gains" = false ->
    has metrics "portfolio_value" = true ->
    36%N ∉ opt_or_else timeRange (str "30_days") ->
    nlQuery (str "PORTFOLIO") timeRange metrics
    = str "Show portfolio value trends over the last "
      ++ opt_or_else timeRange (str "30_days")
      ++ str " with date and portfolio value for each day".
Proof.
  intros timeRange metrics H1 H2 H3 H4 Hplain. unfold nlQuery.
  change (jseq (str "PORTFOLIO") (str "PORTFOLIO")) with true. cbv iota.
  rewrite H1, H2, H3, H4, trends_replaced, (substitution_plain _ _ _ _ Hplain).
  reflexivity.
Qed.

Lemma trends_over_7_days :
  nlQuery (str "PORTFOLIO") (Some (str "7_days")) [str "portfolio_value"; str "date"]
  = str "Show portfolio value trends over the last "
    ++ opt_or_else (Some (str "7_days")) (str "30_days")
    ++ str " with date and portfolio value for each day".
Proof.
  apply (trends_query_names_the_time_range (Some (str "7_days"))
           [str "portfolio_value"; str "date"]);
    try (vm_compute; reflexivity).
  vm_compute. intros H.
  repeat (apply elem_of_cons in H as [H|H]; [discriminate|]). inversion H.
Defined.

Ltac pick_element :=
  first [ apply list_elem_of_here | apply list_elem_of_further; pick_element ].

Lemma getMockData_served ty metrics :
  getMockData ty metrics
  ∈ [ []; top_holdings_mock; allocation_mock; by_category_mock; progress_mock ]
  /\ (ty = str "BUDGETS" -> getMockData ty metrics = []).
Proof.
  assert (Hcases : ty = str "PORTFOLIO" \/ ty = str "TRANSACTIONS"
                   \/ ty = str "BUDGETS" \/ ty = str "FINANCIAL_GOALS"
                   \/ own_property mockDataFallbacks ty = None).
  { unfold mockDataFallbacks. cbn [own_property].
    destruct (jseq_spec (str "PORTFOLIO") ty) as [<-|_]; [auto|].
    destruct (jseq_spec (str "TRANSACTIONS") ty) as [<-|_]; [auto|].
    destruct (jseq_spec (str "BUDGETS") ty) as [<-|_]; [auto|].
    destruct (jseq_spec (str "FINANCIAL_GOALS") ty) as [<-|_]; [auto|].
    do 4 right. reflexivity. }
  unfold getMockData.
  destruct Hcases as [->|[->|[->|[->|Hnone]]]].
  1-4: destruct (has metrics "ticker" && has metrics "market_value"),
         (has metrics "sector"), (has metrics "category"), (has metrics "goal_name");
       (split; [pick_element
               |intros H; first [vm_compute in H; discriminate | vm_compute; reflexivity]]).
  unfold get. rewrite Hnone.
  destruct (bool_decide _); cbn [defined negb dataset];
    destruct (has metrics "ticker" && has metrics "market_value"),
      (has metrics "sector"), (has metrics "category"), (has metrics "goal_name");
    (split; [left|reflexivity]).
Qed.

(** The mock rows handed to a query as a fallback are the empty list or
    one of four of the six mock tables: the budget status rows and the
    transaction summary rows are never served, and every query of a
    BUDGETS dashboard gets the empty list. *)
Theorem mock_rows_that_are_never_served :
  forall ty metrics,
    getMockData ty metrics
    ∈ [ []; top_holdings_mock; allocation_mock; by_category_mock; progress_mock ]
    /\ getMockData ty metrics <> status_mock
    /\ getMockData ty metrics <> summary_mock
    /\ (forall now intent q,
          dashboard_type intent = str "BUDGETS" ->
          q ∈ queries (planQueries now intent) ->
          fallback_mock_data q = []).
Proof.
  intros ty metrics. destruct (getMockData_served ty metrics) as [Hin _].
  split; [exact Hin|]. split; [|split].
  - intros E. rewrite E in Hin.
    repeat (apply elem_of_cons in Hin as [Hin|Hin]; [vm_compute in Hin; discriminate|]).
    inversion Hin.
  - intros E. rewrite E in Hin.
    repeat (apply elem_of_cons in Hin as [Hin|Hin]; [vm_compute in Hin; discriminate|]).
    inversion Hin.
  - intros now intent q Hty Hq. unfold planQueries in Hq. cbn [queries] in Hq.
    apply elem_of_lookup_imap_1 in Hq as (i & hint & -> & _).
    cbn [querySpec fallback_mock_data].
    exact (proj2 (getMockData_served _ _) Hty).
Qed.

End PlannerTheorems.

(** ** The display of a validation result *)

Module ReportTheorems.
Import JS Validator Report ValidatorProperties RetrieverTheorems.

Section Format.
Context (check cross bullet warning_sign bulb : jsstring).

Local Abbreviation line := (Report.line bullet).
Local Abbreviation bullets := (Report.bullets bullet).
Local Abbreviation format := (formatValidationResult check cross bullet warning_sign bulb).

Lemma bullets_app items : forall output,
  bullets items output = output ++ concat (map line items).
Proof.
  unfold Report.bullets.
  induction items as [|x items IH]; intros output; cbn [fold_left map concat].
  - now rewrite List.app_nil_r.
  - now rewrite IH, <- List.app_assoc.
Qed.

Lemma concat_lines_in items x :
  x ∈ items -> exists a b, concat (map line items) = a ++ line x ++ b.
Proof.
  induction items as [|y items IH]; intros Hin; [inversion Hin|].
  apply elem_of_cons in Hin as [->|Hin]; cbn [map concat].
  - exists [], (concat (map line items)). reflexivity.
  - destruct (IH Hin) as (a & b & ->). exists (line y ++ a), b.
    now rewrite <- List.app_assoc.
Qed.

Lemma nonempty_length {A} (l : list A) x : x ∈ l -> (0 <? length l) = true.
Proof. destruct l; [intros H; inversion H|reflexivity]. Qed.

Definition errors_part (result : ValidationResult) : jsstring :=
  if valid result
  then check ++ str " Query is valid" ++ [10%N]
  else (cross ++ str " Query has errors:" ++ [10%N])
       ++ concat (map line (errors result)).

Definition warnings_part (result : ValidationResult) : jsstring :=
  if 0 <? length (warnings result)
  then ([10%N] ++ warning_sign ++ str "  Warnings:" ++ [10%N])
       ++ concat (map line (warnings result))
  else [].

Definition suggestions_part (result : ValidationResult) : jsstring :=
  if 0 <? length (suggestions result)
  then ([10%N] ++ bulb ++ str " Suggestions:" ++ [10%N])
       ++ concat (map line (suggestions result))
  else [].

(** The display is the three parts, one after the other. *)
Lemma format_parts result :
  format result = errors_part result ++ warnings_part result ++ suggestions_part result.
Proof.
  unfold formatValidationResult, errors_part, warnings_part, suggestions_part.
  destruct (valid result), (0 <? length (warnings result)),
    (0 <? length (suggestions result));
    rewrite ?bullets_app, ?List.app_nil_r;
    repeat (progress (cbn [app]; rewrite <- ?List.app_assoc)); reflexivity.
Qed.

End Format.

Lemma validateQuery_invalid schema sql e :
  e ∈ errors (validateQuery schema sql) -> valid (validateQuery schema sql) = false.
Proof.
  unfold validateQuery. destruct (validateTables schema sql) as [l|m l]; [|reflexivity].
  cbn [errors valid]. generalize (log_errors
    (when (negb (includes sql (str "SELECT")) && negb (includes sql (str "select")))
       (push_error noSelect) l)).
  intros es Hin. destruct es; [inversion Hin|reflexivity].
Qed.

Lemma starts_with_app_l p : forall a b,
  starts_with p a = true -> starts_with p (a ++ b) = true.
Proof.
  induction p as [|q p IH]; intros a b; [reflexivity|].
  destruct a as [|x a]; simpl; [discriminate|].
  intros H. apply andb_true_iff in H as [-> H]. simpl. now apply IH.
Qed.

Lemma includes_app_l a b p : includes a p = true -> includes (a ++ b) p = true.
Proof.
  induction a as [|x a IH]; simpl.
  - rewrite orb_false_r. destruct p; [|discriminate]. intros _. now destruct b.
  - intros H. apply orb_true_iff in H as [H|H]; apply orb_true_iff.
    + left. exact (starts_with_app_l p (x :: a) b H).
    + right. now apply IH.
Qed.

Lemma includes_app_r a b p : includes b p = true -> includes (a ++ b) p = true.
Proof.
  intros H. induction a as [|x a IH]; simpl; [exact H|].
  rewrite IH. apply orb_true_r.
Qed.

(** The display shows every finding.  For a result that is not valid
    every error has its bullet line in the text; every warning and every
    suggestion has its bullet line whether the result is valid or not; a
    valid result is displayed with the line that says so first.  Every
    error that [validateQuery] returns is therefore shown. *)
Theorem display_shows_every_finding :
  forall check cross bullet warning_sign bulb result,
    let output := formatValidationResult check cross bullet warning_sign bulb result in
    (valid result = false ->
     forall e, e ∈ errors result -> includes output (line bullet e) = true)
    /\ (forall w, w ∈ warnings result -> includes output (line bullet w) = true)
    /\ (forall g, g ∈ suggestions result -> includes output (line bullet g) = true)
    /\ (valid result = true ->
        starts_with (check ++ str " Query is valid" ++ [10%N]) output = true)
    /\ (forall schema sql e,
          e ∈ errors (validateQuery schema sql) ->
          includes (formatValidationResult check cross bullet warning_sign bulb
                      (validateQuery schema sql)) (line bullet e) = true).
Proof.
  intros check cross bullet warning_sign bulb result output.
  assert (Herr : forall r e,
             valid r = false -> e ∈ errors r ->
             includes (formatValidationResult check cross bullet warning_sign bulb r)
               (line bullet e) = true).
  { intros r e Hv Hin. rewrite format_parts. unfold errors_part. rewrite Hv.
    destruct (concat_lines_in bullet _ _ Hin) as (a & b & ->).
    apply includes_app_l, includes_app_r, includes_middle. }
  subst output. split; [intros Hv e Hin; now apply Herr|]. split; [|split; [|split]].
  - intros w Hin. rewrite format_parts. unfold warnings_part.
    rewrite (nonempty_length _ _ Hin).
    destruct (concat_lines_in bullet _ _ Hin) as (a & b & ->).
    apply includes_app_r, includes_app_l, includes_app_r, includes_middle.
  - intros g Hin. rewrite format_parts. unfold suggestions_part.
    rewrite (nonempty_length _ _ Hin).
    destruct (concat_lines_in bullet _ _ Hin) as (a & b & ->).
    apply includes_app_r, includes_app_r, includes_app_r, includes_middle.
  - intros Hv. rewrite format_parts. unfold errors_part. rewrite Hv.
    apply starts_with_prefix.
  - intros schema sql e Hin. apply Herr; [|exact Hin].
    exact (validateQuery_invalid schema sql e Hin).
Qed.

End ReportTheorems.
